(** * Black Flag actor: derived-data pipeline of [BlackFlagActor]

    Shallow embedding of [src/system/documents/actor.mjs] and the
    properties of its derivation pipeline
    ([prepareAbilityScoreMods], [loadForeignDocuments],
    [prepareForeignDocumentData], [prepareCharacterBuilderData],
    [prepareAdvantages]).

    Conventions of the embedding:
    - a JS number that holds an integer is a [Z], and arithmetic on it
      rounds to the nearest double where the code's does;
    - a property that may be [undefined]/[null] is an [option];
    - a JS object read through [Object.entries]/[Object.keys] is an
      association list in property order (its keys are pairwise distinct);
      a read [o[k]] that finds no own property goes on to the members
      every ordinary object inherits from [Object.prototype];
    - a JS [Set] or [Map] is the list of its entries in insertion order;
      membership of a [Set] is SameValueZero, i.e. object identity for
      objects, so objects that end up in a [Set] carry their identity;
    - [String.prototype.localeCompare] is a parameter of the development,
      and so is what the engine's [sort] does when its comparator can
      throw. *)

From Stdlib Require Import ZArith List String Ascii Bool Lia Sorted Permutation OrdersEx.
From stdpp Require Import base option list strings gmap.

Local Open Scope string_scope.
Local Open Scope list_scope.
Local Open Scope Z_scope.

(** ** JavaScript helpers *)

Module Js.

(** Truthiness of a value that is either [undefined] or a string:
    [undefined] and the empty string are falsy. *)
Definition truthy (v : option string) : bool :=
  match v with
  | Some s => negb (String.eqb s "")
  | None => false
  end.

(** [a ?? b] *)
Definition nullish {A} (a : option A) (b : A) : A :=
  match a with Some x => x | None => b end.

(** [a === b] on values that are [undefined] or a string. *)
Definition strict_eq (a b : option string) : bool :=
  match a, b with
  | Some x, Some y => String.eqb x y
  | None, None => true
  | _, _ => false
  end.

(** [Array.prototype.find]. *)
Fixpoint find {A} (p : A -> bool) (l : list A) : option A :=
  match l with
  | [] => None
  | x :: l' => if p x then Some x else find p l'
  end.

(** Lookup of an own property in an object given by its entries. *)
Fixpoint get {A} (o : list (string * A)) (k : string) : option A :=
  match o with
  | [] => None
  | (k', v) :: o' => if String.eqb k' k then Some v else get o' k
  end.

(** [Object.keys]. *)
Definition keys {A} (o : list (string * A)) : list string := map fst o.

(** The property names an ordinary object inherits from
    [Object.prototype]: eleven functions and the accessor [__proto__],
    which answers the prototype object.  All twelve reads are truthy,
    and none of the values has enumerable properties of its own. *)
Definition objectPrototype : list string :=
  ["constructor"; "hasOwnProperty"; "isPrototypeOf"; "propertyIsEnumerable";
   "toLocaleString"; "toString"; "valueOf";
   "__defineGetter__"; "__defineSetter__"; "__lookupGetter__"; "__lookupSetter__";
   "__proto__"].

Definition inherited (k : string) : bool := existsb (String.eqb k) objectPrototype.

(** What a read [o[k]] finds in an ordinary object given by its own
    entries: an own property, an inherited member, or nothing
    ([undefined]). *)
Inductive Member (A : Type) :=
| Own (v : A)
| Inherited
| Missing.
Arguments Own {A}.
Arguments Inherited {A}.
Arguments Missing {A}.

Definition read {A} (o : list (string * A)) (k : string) : Member A :=
  match get o k with
  | Some v => Own v
  | None => if inherited k then Inherited else Missing
  end.

(** The double nearest to an integer, ties to the even significand:
    the value of an arithmetic operation whose exact result is the
    integer [x].  Integers up to [2^53] in magnitude are doubles; a
    larger one is rounded to 53 significant bits.  (A result is never
    beyond the largest double here: the operands are doubles
    themselves.) *)
Definition toDouble (x : Z) : Z :=
  let a := Z.abs x in
  if a <? 2 ^ 53 then x
  else
    let e := Z.log2 a - 52 in
    let q := a / 2 ^ e in
    let r := a mod 2 ^ e in
    let half := 2 ^ (e - 1) in
    let q' := if r <? half then q
              else if half <? r then q + 1
              else if Z.even q then q else q + 1 in
    Z.sgn x * (q' * 2 ^ e).

End Js.

(** ** Data model *)

(** [system.abilities[a]] after derivation. *)
Record AbilityScore := { value : Z; mod_ : Z }.

(** One entry of a Rule Catalog table such as [CONFIG.SYSTEM.PROFICIENCY_TYPES]. *)
Record CatalogEntry := { ce_label : string }.

(** A Rule Catalog table: an object from type key to entry. *)
Definition Category := list (string * CatalogEntry).

(** One option of a trait's character-builder JSON. *)
Record BuilderOption := {
  bo_amount : option Z;
  bo_category : option string;
  bo_label : option string;
  bo_values : option (list string);
  bo_valuesType : option string
}.

Record BuilderInfo := {
  bi_mode : option string;
  bi_options : option (list (string * BuilderOption))
}.

Record Innate := {
  in_proficiencies : list string;
  in_resistances : list string;
  in_languages : list string;
  in_saveAdvantages : list string
}.

(** A trait as stored on a source document ([doc.system.traits]). *)
Record TraitTemplate := {
  tt_id : option string;
  tt_name : string;
  tt_innate : Innate;
  tt_builderInfo : option BuilderInfo
}.

(** A trait attached to the character: the duplicated template stamped
    with [source], [sourceId] and [color] of the owning document. *)
Record Trait := {
  t_id : option string;
  t_name : string;
  t_innate : Innate;
  t_builderInfo : option BuilderInfo;
  t_source : string;
  t_sourceId : string;
  t_color : option string
}.

Record ChoiceSlot := {
  cs_key : string;
  cs_label : string;
  cs_category : option string;
  cs_options : list string;
  cs_chosenValues : list string;   (* the elements of the Set *)
  cs_amount : Z
}.

(** A trait choice: the fields of the trait it was duplicated from,
    plus [choices] and [choicesFulfilled]. *)
Record TraitChoice := {
  tc_trait : Trait;
  tc_choices : list ChoiceSlot;
  tc_choicesFulfilled : bool
}.

Definition tc_id (tc : TraitChoice) : option string := t_id (tc_trait tc).

(** A source document (background, heritage, lineage, class, talent).
    [d_oid] is the identity of the JS object. *)
Record Document := {
  d_oid : nat;
  d_id : string;
  d_name : string;
  d_type : string;
  d_color : option string;
  d_traits : list TraitTemplate
}.

(** A [Collection]: a [Map] from document id to document. *)
Definition Collection := list (string * Document).

(** The part of [this.system] that the pipeline reads and writes.  The
    ability table and the four advantage sets change their element type
    while the pipeline runs, so the record is parametric in both. *)
Record System (Abl Adv : Type) := mkSystem {
  abilities : gmap string Abl;
  backgroundId : option string;  background : option Document;
  heritageId : option string;    heritage : option Document;
  lineageId : option string;     lineage : option Document;
  classId : option string;       class : option Document;
  traits : list Trait;
  traitChoices : list TraitChoice;
  proficiencies : list Adv;
  resistances : list Adv;
  languages : list Adv;
  saveAdvantages : list Adv
}.
Arguments mkSystem {Abl Adv}.
Arguments abilities {Abl Adv}.
Arguments backgroundId {Abl Adv}.
Arguments background {Abl Adv}.
Arguments heritageId {Abl Adv}.
Arguments heritage {Abl Adv}.
Arguments lineageId {Abl Adv}.
Arguments lineage {Abl Adv}.
Arguments classId {Abl Adv}.
Arguments class {Abl Adv}.
Arguments traits {Abl Adv}.
Arguments traitChoices {Abl Adv}.
Arguments proficiencies {Abl Adv}.
Arguments resistances {Abl Adv}.
Arguments languages {Abl Adv}.
Arguments saveAdvantages {Abl Adv}.

(** ** Ability modifiers: [prepareAbilityScoreMods] *)

Module Abilities.

(** [Math.floor((abl - 10) / 2)] on an integer score: the difference
    is rounded to a double, halving a double is exact, and [Z.div]
    rounds towards minus infinity like [Math.floor]. *)
Definition modifier (abl : Z) : Z := Js.toDouble (abl - 10) / 2.

(** The table is rewritten in place: while the loop runs it holds raw
    scores ([inl]) for the keys not yet visited and derived pairs
    ([inr]) for the others. *)
Definition assign (tbl : gmap string (Z + AbilityScore)) (e : string * Z)
  : gmap string (Z + AbilityScore) :=
  <[ e.1 := inr {| value := e.2; mod_ := modifier e.2 |} ]> tbl.

Definition deriveTable (raw : gmap string Z) : gmap string (Z + AbilityScore) :=
  foldl assign (inl <$> raw) (map_to_list raw).

Definition prepareAbilityScoreMods {Adv} (s : System Z Adv)
  : System (Z + AbilityScore) Adv :=
  mkSystem (deriveTable (abilities s))
    (backgroundId s) (background s) (heritageId s) (heritage s)
    (lineageId s) (lineage s) (classId s) (class s)
    (traits s) (traitChoices s)
    (proficiencies s) (resistances s) (languages s) (saveAdvantages s).

End Abilities.

(** ** Arrays, Sets and Maps *)

Module Coll.

Section Generic.
Context {A : Type}.

(** [Array.prototype.sort(cmp)] on defined elements: a stable sort
    (ECMAScript 2019); [cmp x y <= 0] keeps [x] before [y]. *)
Fixpoint insert (cmp : A -> A -> Z) (x : A) (l : list A) : list A :=
  match l with
  | [] => [x]
  | y :: l' => if cmp x y <=? 0 then x :: y :: l' else y :: insert cmp x l'
  end.

Definition sort (cmp : A -> A -> Z) (l : list A) : list A :=
  foldr (insert cmp) [] l.

(** [Array.prototype.sort(cmp)] on an array that may hold
    [undefined]: the comparator only sees defined elements, and the
    [undefined] ones are moved behind them. *)
Definition sortUndef (cmp : A -> A -> Z) (l : list (option A)) : list (option A) :=
  map Some (sort cmp (omap id l)) ++ filter (fun x => x = None) l.

(** [Set.prototype.add] with [same] as SameValueZero. *)
Definition set_add (same : A -> A -> bool) (s : list A) (x : A) : list A :=
  if existsb (same x) s then s else s ++ [x].

(** [new Set(iterable)]. *)
Definition set_of (same : A -> A -> bool) (l : list A) : list A :=
  foldl (set_add same) [] l.

(** [forEach(x => set.add(x))]. *)
Definition set_add_all (same : A -> A -> bool) (s l : list A) : list A :=
  foldl (set_add same) s l.
End Generic.

(** [Map.prototype.set]: an existing key keeps its position. *)
Fixpoint map_set {V} (c : list (string * V)) (k : string) (v : V) : list (string * V) :=
  match c with
  | [] => [(k, v)]
  | (k', v') :: c' =>
      if String.eqb k' k then (k, v) :: c' else (k', v') :: map_set c' k v
  end.

(** [Map.prototype.get] with a key that may be [undefined]. *)
Definition map_get {V} (c : list (string * V)) (k : option string) : option V :=
  match k with
  | Some k => Js.get c k
  | None => None
  end.

Definition values {V} (c : list (string * V)) : list V := map snd c.

End Coll.

(** ** Foreign documents: [loadForeignDocuments], [prepareForeignDocumentData] *)

(** SameValueZero on documents is object identity. *)
Definition same_doc (a b : Document) : bool := Nat.eqb (d_oid a) (d_oid b).

Record IndexEntry := { ie_id : string; ie_type : string }.

(** A compendium pack; [pack_getDocument] answers [null]/[undefined] as [None]. *)
Record Pack := {
  pack_type : string;                       (* pack.metadata.type *)
  pack_index : list IndexEntry;
  pack_getDocument : string -> option Document
}.

(** The Document Provider: [game.collections] and [game.packs]. *)
Record Game := {
  collections : string -> list Document;
  packs : list Pack
}.

(** [CONFIG.SYSTEM]: the five catalog caches, the four Rule Catalog
    tables the advantage step names, and its other own members, each
    given by its own enumerable properties.  The object and its tables
    are ordinary objects: what they inherit is [Js.objectPrototype]. *)
Record Config := {
  LINEAGE_DOCUMENTS : Collection;
  HERITAGE_DOCUMENTS : Collection;
  BACKGROUND_DOCUMENTS : Collection;
  TALENT_DOCUMENTS : Collection;
  CLASS_DOCUMENTS : Collection;
  PROFICIENCY_TYPES : Category;
  DAMAGE_TYPES : Category;
  LANGUAGE_TYPES : Category;
  SAVE_TYPES : Category;
  other_members : list (string * Category)
}.

(** The process-wide state a derivation pass can change: the
    configuration object and the list of ids requested through
    [pack.getDocument] so far. *)
Record Env := { cfg : Config; fetched : list string }.

(** What [this._source.system] stores about the source documents. *)
Record SourceRefs := {
  src_background : option string;
  src_heritage : option string;
  src_lineage : option string;
  src_class : option string
}.

Module Catalog.

Section WithLocale.
Variable localeCompare : string -> string -> Z.

(** Body of [for ( const id of ids )]. *)
Definition fetchOne (pack : Pack) (st : list Document * list string) (id : string)
  : list Document * list string :=
  let '(docs, tr) := st in
  match pack_getDocument pack id with
  | Some doc => (docs ++ [doc], tr ++ [id])
  | None => (docs, tr ++ [id])
  end.

(** Body of [for ( let pack of game.packs )]. *)
Definition scanPack (type subtype : string) (st : list Document * list string) (pack : Pack)
  : list Document * list string :=
  if negb (String.eqb (pack_type pack) type) then st
  else
    let ids := map ie_id (filter (fun d => String.eqb (ie_type d) subtype) (pack_index pack)) in
    foldl (fetchOne pack) st ids.

(** The array [docs] after the dedupe-and-sort line. *)
Definition sortedDocs (docs : list Document) : list Document :=
  Coll.sort (fun a b => localeCompare (d_name a) (d_name b)) (Coll.set_of same_doc docs).

Definition toCollection (docs : list Document) : Collection :=
  foldl (fun c d => Coll.map_set c (d_id d) d) [] docs.

(** The array [docs] when the loop over the packs is done, and the
    ids requested from the packs. *)
Definition gather (game : Game) (type subtype : string)
  : list Document * list string :=
  let docs := filter (fun d => String.eqb (d_type d) subtype) (collections game type) in
  foldl (scanPack type subtype) (docs, []) (packs game).

(** [getForeignDocuments(type, subtype)]: the collection and the ids fetched. *)
Definition getForeignDocuments (game : Game) (type subtype : string)
  : Collection * list string :=
  let '(docs, tr) := gather game type subtype in
  (toCollection (sortedDocs docs), tr).

Definition loadForeignDocuments (game : Game) (e : Env) : Env :=
  let c := cfg e in
  let '(lin, t1) := getForeignDocuments game "Item" "lineage" in
  let '(her, t2) := getForeignDocuments game "Item" "heritage" in
  let '(bac, t3) := getForeignDocuments game "Item" "background" in
  let '(tal, t4) := getForeignDocuments game "Item" "talent" in
  let '(cla, t5) := getForeignDocuments game "Item" "class" in
  {| cfg := {| LINEAGE_DOCUMENTS := lin; HERITAGE_DOCUMENTS := her;
               BACKGROUND_DOCUMENTS := bac; TALENT_DOCUMENTS := tal;
               CLASS_DOCUMENTS := cla;
               PROFICIENCY_TYPES := PROFICIENCY_TYPES c;
               DAMAGE_TYPES := DAMAGE_TYPES c;
               LANGUAGE_TYPES := LANGUAGE_TYPES c;
               SAVE_TYPES := SAVE_TYPES c;
               other_members := other_members c |};
     fetched := fetched e ++ t1 ++ t2 ++ t3 ++ t4 ++ t5 |}.

(** [if (CONFIG.SYSTEM.BACKGROUND_DOCUMENTS.size === 0) await this.loadForeignDocuments()] *)
Definition ensureLoaded (game : Game) (e : Env) : Env :=
  if (length (BACKGROUND_DOCUMENTS (cfg e)) =? 0)%nat
  then loadForeignDocuments game e else e.
End WithLocale.

(** Traits carried by one resolved document. *)
Definition stamp (doc : Document) (trait : TraitTemplate) : Trait :=
  {| t_id := tt_id trait; t_name := tt_name trait; t_innate := tt_innate trait;
     t_builderInfo := tt_builderInfo trait;
     t_source := d_name doc; t_sourceId := d_id doc; t_color := d_color doc |}.

Definition traitsOf (doc : option Document) : list Trait :=
  match doc with
  | Some d => map (stamp d) (d_traits d)
  | None => []
  end.

(** Body of the loop that adds missing trait choices. *)
Definition addMissing (tcs : list TraitChoice) (trait : Trait) : list TraitChoice :=
  if negb (Js.truthy (t_id trait)) then tcs
  else match Js.find (fun t => Js.strict_eq (tc_id t) (t_id trait)) tcs with
       | Some _ => tcs
       | None => tcs ++ [ {| tc_trait := trait; tc_choices := [];
                             tc_choicesFulfilled := false |} ]
       end.

(** The final [filter]. *)
Definition prune (trs : list Trait) (tcs : list TraitChoice) : list TraitChoice :=
  filter (fun t => bool_decide (is_Some
            (Js.find (fun t2 => Js.strict_eq (t_id t2) (tc_id t)) trs))) tcs.

Definition reconcile (trs : list Trait) (tcs : list TraitChoice) : list TraitChoice :=
  prune trs (foldl addMissing tcs trs).

Definition prepareForeignDocumentData {Abl Adv}
    (localeCompare : string -> string -> Z) (game : Game)
    (e : Env) (src : SourceRefs) (s : System Abl Adv) : Env * System Abl Adv :=
  let e' := ensureLoaded localeCompare game e in
  let c := cfg e' in
  let bg := Coll.map_get (BACKGROUND_DOCUMENTS c) (src_background src) in
  let he := Coll.map_get (HERITAGE_DOCUMENTS c) (src_heritage src) in
  let li := Coll.map_get (LINEAGE_DOCUMENTS c) (src_lineage src) in
  let cl := Coll.map_get (CLASS_DOCUMENTS c) (src_class src) in
  let trs := traitsOf bg ++ traitsOf he ++ traitsOf li in
  (e', mkSystem (abilities s)
         (src_background src) bg (src_heritage src) he
         (src_lineage src) li (src_class src) cl
         trs (reconcile trs (traitChoices s))
         (proficiencies s) (resistances s) (languages s) (saveAdvantages s)).

End Catalog.

(** ** Choice fulfillment: [prepareCharacterBuilderData] *)

Module Builder.

(** [CONFIG.SYSTEM[name]], reduced to what the builder reads from it:
    [None] when the member is missing, otherwise its [Object.keys].
    The catalog caches are Maps and have no enumerable keys, and
    neither has a member that [CONFIG.SYSTEM] inherits. *)
Definition memberKeys (c : Config) (name : string) : option (list string) :=
  if String.eqb name "PROFICIENCY_TYPES" then Some (Js.keys (PROFICIENCY_TYPES c))
  else if String.eqb name "DAMAGE_TYPES" then Some (Js.keys (DAMAGE_TYPES c))
  else if String.eqb name "LANGUAGE_TYPES" then Some (Js.keys (LANGUAGE_TYPES c))
  else if String.eqb name "SAVE_TYPES" then Some (Js.keys (SAVE_TYPES c))
  else if existsb (String.eqb name)
            ["LINEAGE_DOCUMENTS"; "HERITAGE_DOCUMENTS"; "BACKGROUND_DOCUMENTS";
             "TALENT_DOCUMENTS"; "CLASS_DOCUMENTS"] then Some []
  else match Js.read (other_members c) name with
       | Js.Own member => Some (Js.keys member)
       | Js.Inherited => Some []
       | Js.Missing => None
       end.

(** The candidate values of an option; [None] is the [continue] taken
    when [valuesType] names no member of [CONFIG.SYSTEM]. *)
Definition resolveValues (c : Config) (opt : BuilderOption) : option (list string) :=
  let values := Js.nullish (bo_values opt) [] in
  if Js.truthy (bo_valuesType opt) && (length values =? 0)%nat then
    match memberKeys c (Js.nullish (bo_valuesType opt) "") with
    | None => None
    | Some ks => Some (values ++ ks)
    end
  else Some values.

(** [trait.choices.find(c => c.key === key)] followed by the in-place
    update of the slot that was found. *)
Fixpoint refresh (key : string) (f : ChoiceSlot -> ChoiceSlot) (l : list ChoiceSlot)
  : list ChoiceSlot :=
  match l with
  | [] => []
  | c :: l' => if String.eqb (cs_key c) key then f c :: l' else c :: refresh key f l'
  end.

Definition update (key : string) (opt : BuilderOption) (values : list string)
    (amount : Z) (c : ChoiceSlot) : ChoiceSlot :=
  {| cs_key := cs_key c;
     cs_label := Js.nullish (bo_label opt) key;
     cs_category := bo_category opt;
     cs_options := values;
     cs_chosenValues := cs_chosenValues c;
     cs_amount := amount |}.

Definition fresh (key : string) (opt : BuilderOption) (values : list string)
    (amount : Z) : ChoiceSlot :=
  {| cs_key := key;
     cs_label := Js.nullish (bo_label opt) key;
     cs_category := bo_category opt;
     cs_options := values;
     cs_chosenValues := [];
     cs_amount := amount |}.

(** Body of [for ( const [key, option] of Object.entries(options) )];
    the state is [trait.choices] and [choicesMade]. *)
Definition processOption (c : Config) (st : list ChoiceSlot * Z)
    (e : string * BuilderOption) : list ChoiceSlot * Z :=
  let '(choices, choicesMade) := st in
  let '(key, opt) := e in
  let amount := Js.nullish (bo_amount opt) 1 in
  match resolveValues c opt with
  | None => st
  | Some values =>
      match Js.find (fun s => String.eqb (cs_key s) key) choices with
      | Some currentChoice =>
          (refresh key (update key opt values amount) choices,
           if Z.of_nat (length (cs_chosenValues currentChoice)) =? amount
           then choicesMade + 1 else choicesMade)
      | None => (choices ++ [fresh key opt values amount], choicesMade)
      end
  end.

Definition processOptions (c : Config) (choices : list ChoiceSlot)
    (options : list (string * BuilderOption)) : list ChoiceSlot * Z :=
  foldl (processOption c) (choices, 0) options.

(** The [switch ( mode )]; an unmatched mode leaves the flag as it was. *)
Definition fulfilled (mode : string) (choicesMade : Z) (nOptions : nat) (prior : bool) : bool :=
  if String.eqb mode "ALL" then choicesMade =? Z.of_nat nOptions
  else if String.eqb mode "ANY" then choicesMade >? 0
  else if String.eqb mode "CHOOSE_ONE" then choicesMade =? 1
  else prior.

(** [trait.builderInfo.mode || "all"] *)
Definition defaultMode (m : option string) : string :=
  if Js.truthy m then Js.nullish m "" else "all".

Definition setMode (t : Trait) (bi : BuilderInfo) (mode : string) : Trait :=
  {| t_id := t_id t; t_name := t_name t; t_innate := t_innate t;
     t_builderInfo := Some {| bi_mode := Some mode; bi_options := bi_options bi |};
     t_source := t_source t; t_sourceId := t_sourceId t; t_color := t_color t |}.

(** [trait.builderInfo?.options] *)
Definition optionsOf (t : Trait) : option (list (string * BuilderOption)) :=
  match t_builderInfo t with
  | Some bi => bi_options bi
  | None => None
  end.

(** Body of [for ( const trait of this.system.traitChoices )]. *)
Definition evaluate (c : Config) (tc : TraitChoice) : TraitChoice :=
  let choices := match tc_choices tc with [] => [] | l => l end in
  match t_builderInfo (tc_trait tc) with
  | None => {| tc_trait := tc_trait tc; tc_choices := choices; tc_choicesFulfilled := true |}
  | Some bi =>
      match bi_options bi with
      | None => {| tc_trait := tc_trait tc; tc_choices := choices;
                   tc_choicesFulfilled := true |}
      | Some options =>
          let mode := defaultMode (bi_mode bi) in
          let '(choices', choicesMade) := processOptions c choices options in
          {| tc_trait := setMode (tc_trait tc) bi mode;
             tc_choices := choices';
             tc_choicesFulfilled :=
               fulfilled mode choicesMade (length (Js.keys options))
                         (tc_choicesFulfilled tc) |}
      end
  end.

Definition prepareCharacterBuilderData {Abl Adv} (c : Config) (s : System Abl Adv)
  : System Abl Adv :=
  mkSystem (abilities s)
    (backgroundId s) (background s) (heritageId s) (heritage s)
    (lineageId s) (lineage s) (classId s) (class s)
    (traits s) (map (evaluate c) (traitChoices s))
    (proficiencies s) (resistances s) (languages s) (saveAdvantages s).

End Builder.

(** ** Advantages: [prepareAdvantages] *)

(** A stored manual entry; the code reads its [value] property. *)
Record ManualValue := { mv_value : string }.

(** The [value] of an advantage: the stored entry itself on the manual
    tier, the type key on the innate and choice tiers. *)
Inductive AdvValue :=
| Stored (m : ManualValue)
| Key (k : string).

Record Advantage := {
  source : string;
  sourceType : string;
  sourceId : option string;
  adv_value : AdvValue;
  label : option string;          (* [undefined] when the type has no label *)
  style : option string
}.

(** An advantage object in memory: [a_oid] is its identity. *)
Record AdvObj := { a_oid : nat; a_data : Advantage }.

(** An element of an advantage set: [None] is [undefined]. *)
Definition same_adv (a b : option AdvObj) : bool :=
  match a, b with
  | Some x, Some y => Nat.eqb (a_oid x) (a_oid y)
  | None, None => true
  | _, _ => false
  end.

(** Allocation of objects, the diagnostics sink [CONFIG.SYSTEM.log] and
    thrown exceptions. *)
Module Eff.

Record Heap := { next_oid : nat; log : list string }.

Inductive Res (A : Type) :=
| Ok (a : A)
| Throw (e : string).
Arguments Ok {A}.
Arguments Throw {A}.

Definition M (A : Type) := Heap -> Res (A * Heap).

Definition ret {A} (a : A) : M A := fun h => Ok (a, h).

Definition bind {A B} (m : M A) (k : A -> M B) : M B :=
  fun h => match m h with
           | Ok (a, h') => k a h'
           | Throw e => Throw e
           end.

Definition throw {A} (e : string) : M A := fun _ => Throw e.

Definition lift {A} (r : Res A) : M A :=
  fun h => match r with Ok a => Ok (a, h) | Throw e => Throw e end.

(** [let result = {}; ...]: a new object with the given content. *)
Definition alloc (a : Advantage) : M AdvObj :=
  fun h => Ok ({| a_oid := next_oid h; a_data := a |},
               {| next_oid := S (next_oid h); log := log h |}).

Definition logMsg (msg : string) : M unit :=
  fun h => Ok (tt, {| next_oid := next_oid h; log := log h ++ [msg] |}).

Fixpoint mapM {A B} (f : A -> M B) (l : list A) : M (list B) :=
  match l with
  | [] => ret []
  | x :: l' => bind (f x) (fun y => bind (mapM f l') (fun ys => ret (y :: ys)))
  end.

Fixpoint foldM {A B} (f : A -> B -> M A) (a : A) (l : list B) : M A :=
  match l with
  | [] => ret a
  | x :: l' => bind (f a x) (fun a' => foldM f a' l')
  end.

End Eff.

Notation "'do' x <- m ; k" := (Eff.bind m (fun x => k))
  (at level 10, x name, m at level 100, k at level 200, only parsing).

Module Style.

(** [\w] without the unicode flag: [A-Za-z0-9_]. *)
Definition is_word (c : ascii) : bool :=
  let n := nat_of_ascii c in
  ((48 <=? n) && (n <=? 57) || (65 <=? n) && (n <=? 90)
   || (97 <=? n) && (n <=? 122) || (n =? 95))%nat.

(** [s.match(/\w\w/g)]: the matches from left to right; the empty
    list stands for the [null] that [match] returns without a match. *)
Fixpoint match_ww (s : string) : list string :=
  match s with
  | String a s' =>
      match s' with
      | String b rest =>
          if is_word a && is_word b
          then String a (String b EmptyString) :: match_ww rest
          else match_ww s'
      | EmptyString => []
      end
  | EmptyString => []
  end.

Definition hexDigit (c : ascii) : option Z :=
  let n := nat_of_ascii c in
  if ((48 <=? n) && (n <=? 57))%nat then Some (Z.of_nat n - 48)
  else if ((65 <=? n) && (n <=? 70))%nat then Some (Z.of_nat n - 55)
  else if ((97 <=? n) && (n <=? 102))%nat then Some (Z.of_nat n - 87)
  else None.

(** The digits [parseInt] consumes: the longest prefix of hex digits. *)
Fixpoint hexPrefix (s : string) : list Z :=
  match s with
  | String c s' => match hexDigit c with
                   | Some d => d :: hexPrefix s'
                   | None => []
                   end
  | EmptyString => []
  end.

(** With radix 16 a leading [0x] or [0X] is dropped. *)
Definition strip0x (s : string) : string :=
  match s with
  | String "0" (String "x" s') => s'
  | String "0" (String "X" s') => s'
  | _ => s
  end.

(** [parseInt(c, 16)] on a string of word characters (so without
    leading white space or sign); [None] is [NaN]. *)
Definition parseInt16 (s : string) : option Z :=
  match hexPrefix (strip0x s) with
  | [] => None
  | ds => Some (fold_left (fun acc d => 16 * acc + d) ds 0)
  end.

(** Arithmetic on numbers that may be [NaN]. *)
Definition nmul (a : option Z) (k : Z) : option Z := option_map (fun x => x * k) a.
Definition nadd (a b : option Z) : option Z :=
  match a, b with Some x, Some y => Some (x + y) | _, _ => None end.

(** [Math.round(x / 1000)] for an integer [x]: halves round up. *)
Definition roundDiv1000 (x : Z) : Z := (x + 500) / 1000.

(** [rgb[i]]: [undefined] past the end behaves as [NaN] in the sum. *)
Definition component (rgb : list (option Z)) (i : nat) : option Z :=
  nth i rgb None.

Definition brightness (rgb : list (option Z)) : option Z :=
  option_map roundDiv1000
    (nadd (nadd (nmul (component rgb 0) 299) (nmul (component rgb 1) 587))
          (nmul (component rgb 2) 114)).

(** [brightness > 125 ? "black" : "white"]; a comparison with [NaN] is false. *)
Definition foreground (b : option Z) : string :=
  match b with
  | Some v => if v >? 125 then "black" else "white"
  | None => "white"
  end.

(** [buildStyleString(trait, result)]: the string stored in
    [result.style]; calling [map] on the [null] of a failed [match]
    throws. *)
Definition buildStyleString (color : option string) : Eff.Res string :=
  if Js.truthy color then
    let col := Js.nullish color "" in
    match match_ww col with
    | [] => Eff.Throw "TypeError"
    | ms =>
        let rgb := map parseInt16 ms in
        Eff.Ok ("background-color: " +:+ col +:+ ";" +:+
                "color: " +:+ foreground (brightness rgb) +:+ ";")
    end
  else Eff.Ok "".

End Style.

Module Advantages.

Import Eff.

(** [types[key]], reduced to what the code reads from it: [None] when
    the read answers [undefined], otherwise [config.label].  An entry of
    the table has its label; an inherited member (a function, or the
    prototype object) is truthy and has no [label]. *)
Definition labelOf (types : Category) (key : string) : option (option string) :=
  match Js.read types key with
  | Js.Own config => Some (Some (ce_label config))
  | Js.Inherited => Some None
  | Js.Missing => None
  end.

(** [mapManualData(types, value)]; reading [label] of [undefined]
    throws. *)
Definition mapManualData (types : Category) (v : ManualValue) : M (option AdvObj) :=
  match labelOf types (mv_value v) with
  | None => throw "TypeError"
  | Some lbl =>
      do o <- alloc {| source := "Manual"; sourceType := "manual"; sourceId := None;
                       adv_value := Stored v; label := lbl;
                       style := None |};
      ret (Some o)
  end.

(** [Set.prototype.map(f)] of the platform: a new Set of the images,
    refused when its size differs from the size of the receiver. *)
Definition setMap {A} (f : A -> M (option AdvObj)) (s : list A) : M (list (option AdvObj)) :=
  do ys <- mapM f s;
  let mapped := Coll.set_of same_adv ys in
  if (length mapped =? length s)%nat then ret mapped else throw "Error".

Definition sourceLabel (t : Trait) : string :=
  t_source t +:+ " (" +:+ t_name t +:+ ")".

Definition unknownType (t : Trait) (k : string) : string :=
  "Unknown type " +:+ k +:+ " in " +:+ t_source t +:+ " (" +:+ t_name t +:+ ")".

(** [mapInnate(trait, types, innate)]; the bare [return] yields
    [undefined]. *)
Definition mapInnate (trait : Trait) (types : Category) (innate : string)
  : M (option AdvObj) :=
  match labelOf types innate with
  | None =>
      do _ <- logMsg (unknownType trait innate);
      ret None
  | Some lbl =>
      do st <- lift (Style.buildStyleString (t_color trait));
      do o <- alloc {| source := sourceLabel trait; sourceType := "innate";
                       sourceId := Some (t_sourceId trait);
                       adv_value := Key innate; label := lbl;
                       style := Some st |};
      ret (Some o)
  end.

(** [list.map(x => mapInnate(trait, types, x)).forEach(x => set.add(x))] *)
Definition addInnate (trait : Trait) (types : Category) (keys : list string)
    (set : list (option AdvObj)) : M (list (option AdvObj)) :=
  do rs <- mapM (mapInnate trait types) keys;
  ret (Coll.set_add_all same_adv set rs).

(** Body of [for ( const value of choice.chosenValues )]. *)
Definition reduceValue (trait : Trait) (types : Category)
    (advantages : list (option AdvObj)) (v : string) : M (list (option AdvObj)) :=
  match labelOf types v with
  | None =>
      do _ <- logMsg (unknownType trait v);
      ret advantages
  | Some lbl =>
      do st <- lift (Style.buildStyleString (t_color trait));
      do o <- alloc {| source := sourceLabel trait; sourceType := "choice";
                       sourceId := Some (t_sourceId trait);
                       adv_value := Key v; label := lbl;
                       style := Some st |};
      ret (advantages ++ [Some o])
  end.

(** [reduceTraitChoice(trait, category, choice, advantages)], with
    [types] standing for [CONFIG.SYSTEM[category]]. *)
Definition reduceTraitChoice (trait : Trait) (category : string) (types : Category)
    (advantages : list (option AdvObj)) (choice : ChoiceSlot)
  : M (list (option AdvObj)) :=
  if negb (Js.strict_eq (cs_category choice) (Some category)) then ret advantages
  else foldM (reduceValue trait types) advantages (cs_chosenValues choice).

(** [choices.reduce(..., []).forEach(x => set.add(x))] *)
Definition addChoices (tc : TraitChoice) (category : string) (types : Category)
    (set : list (option AdvObj)) : M (list (option AdvObj)) :=
  do rs <- foldM (reduceTraitChoice (tc_trait tc) category types) [] (tc_choices tc);
  ret (Coll.set_add_all same_adv set rs).

(** The four sets while the loops run. *)
Definition Sets : Type :=
  list (option AdvObj) * list (option AdvObj) * list (option AdvObj) * list (option AdvObj).

(** Body of [for (const trait of this.system.traits)]. *)
Definition innateStep (c : Config) (sets : Sets) (trait : Trait) : M Sets :=
  let '(p, r, l, s) := sets in
  do p' <- addInnate trait (PROFICIENCY_TYPES c) (in_proficiencies (t_innate trait)) p;
  do r' <- addInnate trait (DAMAGE_TYPES c) (in_resistances (t_innate trait)) r;
  do l' <- addInnate trait (LANGUAGE_TYPES c) (in_languages (t_innate trait)) l;
  do s' <- addInnate trait (SAVE_TYPES c) (in_saveAdvantages (t_innate trait)) s;
  ret (p', r', l', s').

(** Body of [for (const trait of this.system.traitChoices)]. *)
Definition choiceStep (c : Config) (sets : Sets) (tc : TraitChoice) : M Sets :=
  let '(p, r, l, s) := sets in
  do p' <- addChoices tc "PROFICIENCY_TYPES" (PROFICIENCY_TYPES c) p;
  do r' <- addChoices tc "DAMAGE_TYPES" (DAMAGE_TYPES c) r;
  do l' <- addChoices tc "LANGUAGE_TYPES" (LANGUAGE_TYPES c) l;
  do s' <- addChoices tc "SAVE_TYPES" (SAVE_TYPES c) s;
  ret (p', r', l', s').

(** The entry has a label, so [a.label.localeCompare] can be called. *)
Definition labelled (a : AdvObj) : bool :=
  match label (a_data a) with Some _ => true | None => false end.

(** The text a label is compared as: [localeCompare] turns its
    argument into a string, [undefined] into ["undefined"]. *)
Definition labelText (a : AdvObj) : string := Js.nullish (label (a_data a)) "undefined".

Section WithLocale.
Variable localeCompare : string -> string -> Z.

(** [Array.prototype.sort] calls its comparator in an order the engine
    chooses.  The comparator [(a, b) => a.label.localeCompare(b.label)]
    throws when [a] has no label, so on an array of two or more entries
    one of which has no label it is up to the engine whether the sort
    throws, and which order it leaves otherwise: [engineSort] stands for
    what the engine does with the entries of such an array. *)
Variable engineSort : list AdvObj -> Res (list AdvObj).

(** The comparator on entries that have a label. *)
Definition byLabel (a b : AdvObj) : Z :=
  localeCompare (labelText a) (labelText b).

(** [new Set(Array.from(set).sort((a, b) => a.label.localeCompare(b.label)))]:
    when every entry has a label, or there is at most one entry (the
    comparator is not called then), the stable sort with [undefined]
    moved to the end; otherwise the engine's. *)
Definition sortSet (set : list (option AdvObj)) : Res (list (option AdvObj)) :=
  let entries := omap id set in
  if forallb labelled entries || (length entries <=? 1)%nat
  then Ok (Coll.set_of same_adv (Coll.sortUndef byLabel set))
  else match engineSort entries with
       | Ok sorted =>
           Ok (Coll.set_of same_adv (map Some sorted ++ filter (fun x => x = None) set))
       | Throw e => Throw e
       end.

Definition prepareAdvantages {Abl} (c : Config) (sys : System Abl ManualValue)
  : M (System Abl (option AdvObj)) :=
  do p0 <- setMap (mapManualData (PROFICIENCY_TYPES c)) (proficiencies sys);
  do r0 <- setMap (mapManualData (DAMAGE_TYPES c)) (resistances sys);
  do l0 <- setMap (mapManualData (LANGUAGE_TYPES c)) (languages sys);
  do s0 <- setMap (mapManualData (SAVE_TYPES c)) (saveAdvantages sys);
  do sets1 <- foldM (innateStep c) (p0, r0, l0, s0) (traits sys);
  do sets2 <- foldM (choiceStep c) sets1 (traitChoices sys);
  let '(p, r, l, s) := sets2 in
  do p' <- lift (sortSet p);
  do r' <- lift (sortSet r);
  do l' <- lift (sortSet l);
  do s' <- lift (sortSet s);
  ret (mkSystem (abilities sys)
         (backgroundId sys) (background sys) (heritageId sys) (heritage sys)
         (lineageId sys) (lineage sys) (classId sys) (class sys)
         (traits sys) (traitChoices sys)
         p' r' l' s').
End WithLocale.

End Advantages.

(** ** The derivation pass: [_preparePcDerivedData] *)

Definition _preparePcDerivedData (localeCompare : string -> string -> Z)
    (engineSort : list AdvObj -> Eff.Res (list AdvObj)) (game : Game)
    (e : Env) (src : SourceRefs) (s : System Z ManualValue)
  : Env * Eff.M (System (Z + AbilityScore) (option AdvObj)) :=
  let s1 := Abilities.prepareAbilityScoreMods s in
  let '(e', s2) := Catalog.prepareForeignDocumentData localeCompare game e src s1 in
  let s3 := Builder.prepareCharacterBuilderData (cfg e') s2 in
  (e', Advantages.prepareAdvantages localeCompare engineSort (cfg e') s3).

(** [prepareDerivedData]: only actors of type ["pc"] are derived. *)
Definition prepareDerivedData (localeCompare : string -> string -> Z)
    (engineSort : list AdvObj -> Eff.Res (list AdvObj)) (game : Game)
    (type : string) (e : Env) (src : SourceRefs) (s : System Z ManualValue)
  : option (Env * Eff.M (System (Z + AbilityScore) (option AdvObj))) :=
  if String.eqb type "pc"
  then Some (_preparePcDerivedData localeCompare engineSort game e src s)
  else None.

(** ** Vocabulary of the statements *)

(** The derived entry of a raw score. *)
Definition score (v : Z) : Z + AbilityScore :=
  inr {| value := v; mod_ := Abilities.modifier v |}.

(** An integer score in the range where every integer is a double and
    so is its difference to 10: the subtraction [abl - 10] is exact. *)
Definition exactScore (v : Z) : Prop := - 2 ^ 53 + 10 <= v <= 2 ^ 53.

(** The record the reconciler creates for a trait. *)
Definition freshChoice (t : Trait) : TraitChoice :=
  {| tc_trait := t; tc_choices := []; tc_choicesFulfilled := false |}.

(** A slot with key [key] existed in [choices0] and holds exactly
    [amount] chosen values. *)
Definition existedComplete (choices0 : list ChoiceSlot) (key : string) (amount : Z) : bool :=
  match Js.find (fun s => String.eqb (cs_key s) key) choices0 with
  | Some s => Z.of_nat (length (cs_chosenValues s)) =? amount
  | None => false
  end.

(** The option is not skipped, and its slot existed before the run
    with the configured number of chosen values. *)
Definition counted (c : Config) (choices0 : list ChoiceSlot)
    (e : string * BuilderOption) : bool :=
  bool_decide (is_Some (Builder.resolveValues c e.2))
  && existedComplete choices0 e.1 (Js.nullish (bo_amount e.2) 1).

(** Two-digit hexadecimal notation of a colour component. *)
Definition hexChar (upper : bool) (d : Z) : ascii :=
  if d <? 10 then ascii_of_nat (48 + Z.to_nat d)
  else ascii_of_nat ((if upper then 55 else 87) + Z.to_nat d).

Definition hex2 (upper : bool) (n : Z) : string :=
  String (hexChar upper (n / 16)) (String (hexChar upper (n mod 16)) EmptyString).

Definition hexColor (upper : bool) (r g b : Z) : string :=
  String "#" (hex2 upper r +:+ hex2 upper g +:+ hex2 upper b).

(** The style the specification describes for a colour with
    components [r], [g], [b]. *)
Definition styleFor (color : string) (r g b : Z) : string :=
  "background-color: " +:+ color +:+ ";" +:+ "color: " +:+
  (if Style.roundDiv1000 (r * 299 + g * 587 + b * 114) >? 125 then "black" else "white")
  +:+ ";".

(** Ascending order under a comparator. *)
Definition ascending {A} (cmp : string -> string -> Z) (key : A -> string) (x y : A) : Prop :=
  cmp (key x) (key y) <= 0.

(** A comparator that orders consistently: any two strings are
    comparable and the order is transitive. *)
Definition consistent (cmp : string -> string -> Z) : Prop :=
  (forall a b, cmp a b <= 0 \/ cmp b a <= 0)
  /\ (forall a b c, cmp a b <= 0 -> cmp b c <= 0 -> cmp a c <= 0).

(** No two entries of the list are the same under [same]. *)
Definition pairwiseDistinct {A} (same : A -> A -> bool) (l : list A) : Prop :=
  ForallOrdPairs (fun x y => same y x = false) l.

(** The ids requested from a pack, and the documents it answers. *)
Definition packIds (type subtype : string) (pack : Pack) : list string :=
  if String.eqb (pack_type pack) type
  then map ie_id (filter (fun d => String.eqb (ie_type d) subtype) (pack_index pack))
  else [].

Definition packDocs (type subtype : string) (pack : Pack) : list Document :=
  omap (pack_getDocument pack) (packIds type subtype pack).

(** The local documents of a subtype. *)
Definition localDocs (game : Game) (type subtype : string) : list Document :=
  filter (fun d => String.eqb (d_type d) subtype) (collections game type).

(** ** Concrete data *)

Module Examples.

(** Comparison by code units; it agrees with every locale on the
    labels and names used below. *)
Definition ordinalCompare (a b : string) : Z :=
  match String_as_OT.compare a b with
  | Lt => -1
  | Eq => 0
  | Gt => 1
  end.

Definition entry (k l : string) : string * CatalogEntry := (k, {| ce_label := l |}).

(** An engine whose sort throws as soon as its comparator can. *)
Definition strictEngine (l : list AdvObj) : Eff.Res (list AdvObj) := Eff.Throw "TypeError".

(** An engine whose sort passes an entry without label as second
    argument only and finds the array in order. *)
Definition lenientEngine (l : list AdvObj) : Eff.Res (list AdvObj) := Eff.Ok l.

Definition catalog : Config :=
  {| LINEAGE_DOCUMENTS := []; HERITAGE_DOCUMENTS := []; BACKGROUND_DOCUMENTS := [];
     TALENT_DOCUMENTS := []; CLASS_DOCUMENTS := [];
     PROFICIENCY_TYPES := [entry "P1" "Light armor"; entry "P2" "Shields"];
     DAMAGE_TYPES := [entry "fire" "Fire"; entry "cold" "Cold"];
     LANGUAGE_TYPES := [entry "common" "Common"; entry "elvish" "Elvish"];
     SAVE_TYPES := [entry "poison" "Poison"];
     other_members := [] |}.

Definition noInnate : Innate :=
  {| in_proficiencies := []; in_resistances := []; in_languages := [];
     in_saveAdvantages := [] |}.

Definition traitWith (inn : Innate) (bi : option BuilderInfo) : Trait :=
  {| t_id := Some "t1"; t_name := "T1"; t_innate := inn; t_builderInfo := bi;
     t_source := "B"; t_sourceId := "bg1"; t_color := Some "#202020" |}.

(** The option of the documentation comment of [prepareCharacterBuilderData]. *)
Definition additionalLanguage : BuilderOption :=
  {| bo_amount := Some 1; bo_category := Some "LANGUAGE_TYPES"; bo_label := None;
     bo_values := None; bo_valuesType := Some "LANGUAGE_TYPES" |}.

Definition builder (mode : option string) (opts : list (string * BuilderOption))
  : BuilderInfo :=
  {| bi_mode := mode; bi_options := Some opts |}.

(** The slot of [additionalLanguage] with its one language chosen. *)
Definition chosenElvish : ChoiceSlot :=
  {| cs_key := "additionalLanguage"; cs_label := "additionalLanguage";
     cs_category := Some "LANGUAGE_TYPES"; cs_options := ["common"; "elvish"];
     cs_chosenValues := ["elvish"]; cs_amount := 1 |}.

(** Every configured choice is made, no mode is configured. *)
Definition tcNoMode : TraitChoice :=
  {| tc_trait := traitWith noInnate
                   (Some (builder None [("additionalLanguage", additionalLanguage)]));
     tc_choices := [chosenElvish]; tc_choicesFulfilled := false |}.

(** An empty options object under mode ANY. *)
Definition tcEmptyAny : TraitChoice :=
  {| tc_trait := traitWith noInnate (Some (builder (Some "ANY") []));
     tc_choices := []; tc_choicesFulfilled := true |}.

(** An empty options object under mode ALL. *)
Definition tcEmptyAll : TraitChoice :=
  {| tc_trait := traitWith noInnate (Some (builder (Some "ALL") []));
     tc_choices := []; tc_choicesFulfilled := false |}.

(** No builder configuration at all. *)
Definition tcNoBuilder : TraitChoice :=
  {| tc_trait := traitWith noInnate None;
     tc_choices := []; tc_choicesFulfilled := false |}.

(** A record as the reconciler creates it, under mode ALL. *)
Definition tcFirstRun : TraitChoice :=
  freshChoice (traitWith noInnate
                 (Some (builder (Some "ALL") [("additionalLanguage", additionalLanguage)]))).

Definition withTraits (trs : list Trait) (tcs : list TraitChoice)
    (manual : list ManualValue) : System Z ManualValue :=
  mkSystem ∅ None None None None None None None None trs tcs manual [] [] [].

Definition heap0 : Eff.Heap := {| Eff.next_oid := 0; Eff.log := [] |}.

(** A trait that lists the proficiency [P1] twice. *)
Definition traitTwice : Trait :=
  traitWith {| in_proficiencies := ["P1"; "P1"]; in_resistances := [];
               in_languages := []; in_saveAdvantages := [] |} None.

(** A trait with a known and an unknown proficiency key. *)
Definition traitUnknown : Trait :=
  traitWith {| in_proficiencies := ["P2"; "bogus"]; in_resistances := [];
               in_languages := []; in_saveAdvantages := [] |} None.

(** A trait with a proficiency key of the table and one the table
    only inherits. *)
Definition traitInherited : Trait :=
  traitWith {| in_proficiencies := ["P1"; "constructor"]; in_resistances := [];
               in_languages := []; in_saveAdvantages := [] |} None.

(** The trait of the end-to-end example: innate proficiency [P1]. *)
Definition traitP1 : Trait :=
  traitWith {| in_proficiencies := ["P1"]; in_resistances := [];
               in_languages := []; in_saveAdvantages := [] |} None.

Definition doc (oid : nat) (id name : string) : Document :=
  {| d_oid := oid; d_id := id; d_name := name; d_type := "lineage";
     d_color := None; d_traits := [] |}.

Definition packOf (docs : list Document) : Pack :=
  {| pack_type := "Item";
     pack_index := map (fun d => {| ie_id := d_id d; ie_type := d_type d |}) docs;
     pack_getDocument := fun id => Js.find (fun d => String.eqb (d_id d) id) docs |}.

(** A world with the lineages Alpha and Beta, and a pack whose
    lineage Gamma has the id of the world's Alpha. *)
Definition gameSharedId : Game :=
  {| collections := fun _ => [doc 1 "x1" "Alpha"; doc 2 "x2" "Beta"];
     packs := [packOf [doc 3 "x1" "Gamma"]] |}.

(** A world whose pack hands out the very document object Beta the
    world collection holds, next to a lineage of its own. *)
Definition gameOverlap : Game :=
  {| collections := fun _ => [doc 2 "x2" "Beta"; doc 1 "x1" "Alpha"];
     packs := [packOf [doc 2 "x2" "Beta"; doc 3 "x3" "Gamma"]] |}.

(** A world with the lineages Alpha and Beta, and a pack that holds a
    copy of Beta (another object with the id and name of the world's)
    next to a lineage Gamma of its own. *)
Definition gameCopy : Game :=
  {| collections := fun _ => [doc 1 "x1" "Alpha"; doc 2 "x2" "Beta"];
     packs := [packOf [doc 4 "x2" "Beta"; doc 3 "x3" "Gamma"]] |}.

(** The background of the end-to-end example, with a second trait
    that has no id. *)
Definition background : Document :=
  {| d_oid := 10; d_id := "bg1"; d_name := "B"; d_type := "background";
     d_color := Some "#202020";
     d_traits := [ {| tt_id := Some "t1"; tt_name := "T1";
                      tt_innate := t_innate traitP1; tt_builderInfo := None |};
                   {| tt_id := None; tt_name := "T2";
                      tt_innate := noInnate; tt_builderInfo := None |} ] |}.

Definition cached (d : Document) : Collection := [(d_id d, d)].

(** A configuration whose five caches are filled. *)
Definition warm : Env :=
  {| cfg := {| LINEAGE_DOCUMENTS := cached (doc 1 "x1" "Alpha");
               HERITAGE_DOCUMENTS := cached (doc 4 "h1" "Hill");
               BACKGROUND_DOCUMENTS := cached background;
               TALENT_DOCUMENTS := cached (doc 5 "ta1" "Tough");
               CLASS_DOCUMENTS := cached (doc 6 "c1" "Fighter");
               PROFICIENCY_TYPES := PROFICIENCY_TYPES catalog;
               DAMAGE_TYPES := DAMAGE_TYPES catalog;
               LANGUAGE_TYPES := LANGUAGE_TYPES catalog;
               SAVE_TYPES := SAVE_TYPES catalog;
               other_members := [] |};
     fetched := ["x3"] |}.

Definition refs : SourceRefs :=
  {| src_background := Some "bg1"; src_heritage := None;
     src_lineage := Some "gone"; src_class := None |}.

(** A character that still stores the choice of a trait it lost. *)
Definition staleChoice : TraitChoice :=
  {| tc_trait := {| t_id := Some "old"; t_name := "Old"; t_innate := noInnate;
                    t_builderInfo := None; t_source := "A"; t_sourceId := "bg0";
                    t_color := None |};
     tc_choices := []; tc_choicesFulfilled := true |}.

Definition stale : System Z ManualValue := withTraits [] [staleChoice] [].

(** A character with three raw scores. *)
Definition scored : System Z ManualValue :=
  mkSystem {[ "str" := 15; "dex" := 9; "con" := 1 ]}
    None None None None None None None None [] [] [] [] [] [].

End Examples.

(** ** Combat membership: [inCombat] *)

(** A combatant of the active encounter; a combatant without token
    has [tokenId] [null]. *)
Record Combatant := { c_tokenId : option string; c_actorId : option string }.



(** ** Further vocabulary *)

(** The slot carries the configuration of the option [opt] under [key]. *)
Definition configured (c : Config) (key : string) (opt : BuilderOption)
    (s : ChoiceSlot) : Prop :=
  cs_key s = key
  /\ cs_label s = Js.nullish (bo_label opt) key
  /\ cs_category s = bo_category opt
  /\ Builder.resolveValues c opt = Some (cs_options s)
  /\ cs_amount s = Js.nullish (bo_amount opt) 1.

(** A colour [buildStyleString] can digest: falsy, or with two
    adjacent word characters somewhere. *)
Definition usableColor (color : option string) : Prop :=
  Js.truthy color = false \/ Style.match_ww (Js.nullish color "") <> [].

(** The table answers every stored manual value, by an entry of its
    own or by a member it inherits. *)
Definition manualKnown (types : Category) (l : list ManualValue) : Prop :=
  forall v, In v l -> is_Some (Advantages.labelOf types (mv_value v)).

(** The chosen values a trait choice holds for a category, in the
    order the choice tier visits them. *)
Definition chosenFor (category : string) (choices : list ChoiceSlot) : list string :=
  concat (map cs_chosenValues
            (List.filter (fun s => Js.strict_eq (cs_category s) (Some category)) choices)).

(** What the player owns of a slot: its key and the chosen values. *)
Definition selection (s : ChoiceSlot) : string * list string :=
  (cs_key s, cs_chosenValues s).

(** The documents gathered for a subtype: local ones first, then the
    answers of the packs. *)
Definition gathered (game : Game) (type subtype : string) : list Document :=
  localDocs game type subtype ++ concat (map (packDocs type subtype) (packs game)).

(** The ids one full load requests, in the order of the five loads. *)
Definition loadTrace (game : Game) : list string :=
  concat (map (fun subtype => concat (map (packIds "Item" subtype) (packs game)))
            ["lineage"; "heritage"; "background"; "talent"; "class"]).

(** The identity of a Set element: [None] for [undefined]. *)
Definition oidOf (x : option AdvObj) : option nat := option_map a_oid x.

(** The key of an innate or choice entry. *)
Definition entryKey (x : option AdvObj) : option string :=
  match x with
  | Some o => match adv_value (a_data o) with Key k => Some k | Stored _ => None end
  | None => None
  end.

(** The table answers the key: [types[k]] is truthy, by an entry of
    the table or by a member it inherits. *)
Definition knownIn (types : Category) (k : string) : bool :=
  match Advantages.labelOf types k with Some _ => true | None => false end.

(** The entry the innate or choice tier builds for key [k] of a
    trait: provenance, key and the label the table answers, which is
    [undefined] for a member the table inherits. *)
Definition entryOf (tier : string) (t : Trait) (types : Category) (k : string)
    (x : option AdvObj) : Prop :=
  exists o lbl,
    x = Some o /\ Advantages.labelOf types k = Some lbl
    /\ sourceType (a_data o) = tier
    /\ source (a_data o) = t_source t +:+ " (" +:+ t_name t +:+ ")"
    /\ sourceId (a_data o) = Some (t_sourceId t)
    /\ adv_value (a_data o) = Key k
    /\ label (a_data o) = lbl.

(** The innate lists of a trait, each with the table it is resolved in. *)
Definition innateLists (c : Config) (t : Trait) : list (Category * list string) :=
  [ (PROFICIENCY_TYPES c, in_proficiencies (t_innate t));
    (DAMAGE_TYPES c, in_resistances (t_innate t));
    (LANGUAGE_TYPES c, in_languages (t_innate t));
    (SAVE_TYPES c, in_saveAdvantages (t_innate t)) ].

(** The four category names of the choice tier with their tables. *)
Definition choiceTables (c : Config) : list (string * Category) :=
  [ ("PROFICIENCY_TYPES", PROFICIENCY_TYPES c); ("DAMAGE_TYPES", DAMAGE_TYPES c);
    ("LANGUAGE_TYPES", LANGUAGE_TYPES c); ("SAVE_TYPES", SAVE_TYPES c) ].

(** The trait lists at least one key its table answers. *)
Definition yieldsInnate (c : Config) (t : Trait) : Prop :=
  exists types keys k,
    In (types, keys) (innateLists c t) /\ In k keys /\ knownIn types k = true.

(** The trait choice holds at least one chosen value that one of the
    four tables answers, in a slot of that table's category. *)
Definition yieldsChoice (c : Config) (tc : TraitChoice) : Prop :=
  exists name types s v,
    In (name, types) (choiceTables c) /\ In s (tc_choices tc)
    /\ cs_category s = Some name /\ In v (cs_chosenValues s)
    /\ knownIn types v = true.

(** The entry objects of a set all have identities below [n], no two
    the same. *)
Definition below (n : nat) (S : list (option AdvObj)) : Prop :=
  Forall (fun o => (a_oid o < n)%nat) (omap id S)
  /\ NoDup (map a_oid (omap id S)).

(** The objects of [rs] were allocated between the heaps [h] and [h']. *)
Definition allocated (h h' : Eff.Heap) (rs : list (option AdvObj)) : Prop :=
  (Eff.next_oid h <= Eff.next_oid h')%nat
  /\ Forall (fun o => (Eff.next_oid h <= a_oid o < Eff.next_oid h')%nat) (omap id rs)
  /\ NoDup (map a_oid (omap id rs)).

(** The key an entry was looked up under: the [value] of the stored
    entry on the manual tier, the type key on the other tiers. *)
Definition keyText (v : AdvValue) : string :=
  match v with Stored m => mv_value m | Key k => k end.

(** What identifies an entry to the reader of a set: its tier, its
    source text and its value. *)
Definition Due : Type := string * string * AdvValue.

Definition summary (o : AdvObj) : Due :=
  (sourceType (a_data o), source (a_data o), adv_value (a_data o)).

Definition dueManual (v : ManualValue) : Due := ("manual", "Manual", Stored v).
Definition dueInnate (t : Trait) (k : string) : Due :=
  ("innate", Advantages.sourceLabel t, Key k).
Definition dueChoice (t : Trait) (k : string) : Due :=
  ("choice", Advantages.sourceLabel t, Key k).

(** The entries a category is due, in the order the three tiers add
    them: one per stored manual value, one per innate key the table
    answers, one per chosen value the table answers in a slot of the
    category. *)
Definition entriesDue (types : Category) (name : string) (manual : list ManualValue)
    (innate : Trait -> list string) (trs : list Trait) (tcs : list TraitChoice) : list Due :=
  map dueManual manual
  ++ concat (map (fun t => map (dueInnate t) (List.filter (knownIn types) (innate t))) trs)
  ++ concat (map (fun tc => map (dueChoice (tc_trait tc))
                              (List.filter (knownIn types)
                                           (chosenFor name (tc_choices tc)))) tcs).

(** The object is the entry that is due: it has the summary, and the
    label the table answers for its key. *)
Definition matches (types : Category) (d : Due) (o : AdvObj) : Prop :=
  summary o = d /\ Advantages.labelOf types (keyText d.2) = Some (label (a_data o)).

(** The set [S'] is [S] with the entries [dues] added behind. *)
Definition grows (types : Category) (dues : list Due) (S S' : list (option AdvObj)) : Prop :=
  exists new, omap id S' = omap id S ++ new /\ Forall2 (matches types) dues new.

(** No entry is due to a member the table only inherits: every key
    the table answers, it answers by an entry of its own. *)
Definition noneInherited (types : Category) (dues : list Due) : Prop :=
  Forall (fun d => Advantages.labelOf types (keyText d.2) <> Some None) dues.

(** The four categories of advantages. *)
Inductive Kind := Proficiency | Resistance | Language | SaveAdvantage.

Definition tableOf (c : Config) (k : Kind) : Category :=
  match k with
  | Proficiency => PROFICIENCY_TYPES c
  | Resistance => DAMAGE_TYPES c
  | Language => LANGUAGE_TYPES c
  | SaveAdvantage => SAVE_TYPES c
  end.

Definition nameOf (k : Kind) : string :=
  match k with
  | Proficiency => "PROFICIENCY_TYPES"
  | Resistance => "DAMAGE_TYPES"
  | Language => "LANGUAGE_TYPES"
  | SaveAdvantage => "SAVE_TYPES"
  end.

Definition innateOf (k : Kind) (t : Trait) : list string :=
  match k with
  | Proficiency => in_proficiencies (t_innate t)
  | Resistance => in_resistances (t_innate t)
  | Language => in_languages (t_innate t)
  | SaveAdvantage => in_saveAdvantages (t_innate t)
  end.

Definition setOf {Abl Adv} (sys : System Abl Adv) (k : Kind) : list Adv :=
  match k with
  | Proficiency => proficiencies sys
  | Resistance => resistances sys
  | Language => languages sys
  | SaveAdvantage => saveAdvantages sys
  end.

(** One of the four sets while the loops run. *)
Definition pick (sets : Advantages.Sets) (k : Kind) : list (option AdvObj) :=
  let '(p, r, l, s) := sets in
  match k with
  | Proficiency => p
  | Resistance => r
  | Language => l
  | SaveAdvantage => s
  end.

(** The entries the category [k] of a character is due. *)
Definition dueOf {Abl} (c : Config) (sys : System Abl ManualValue) (k : Kind) : list Due :=
  entriesDue (tableOf c k) (nameOf k) (setOf sys k) (innateOf k)
    (traits sys) (traitChoices sys).

(** A character with a raw score, a stale stored choice and a manual
    proficiency. *)
Definition hero : System Z ManualValue :=
  mkSystem {[ "str" := 15 ]} None None None None None None None None
    [] [Examples.staleChoice] [{| mv_value := "P2" |}] [] [] [].

Module MoreExamples.

(** Two options: a language and a proficiency. *)
Definition extraProficiency : BuilderOption :=
  {| bo_amount := None; bo_category := Some "PROFICIENCY_TYPES"; bo_label := Some "Extra";
     bo_values := Some ["P1"; "P2"]; bo_valuesType := None |}.

(** An option whose [valuesType] names no member of [CONFIG.SYSTEM]. *)
Definition brokenOption : BuilderOption :=
  {| bo_amount := Some 1; bo_category := Some "LANGUAGE_TYPES"; bo_label := None;
     bo_values := None; bo_valuesType := Some "NO_SUCH_TYPES" |}.

Definition twoOptions : list (string * BuilderOption) :=
  [("additionalLanguage", Examples.additionalLanguage); ("extra", extraProficiency)].

(** A record with the language chosen and the proficiency not yet. *)
Definition tcHalf (mode : string) : TraitChoice :=
  {| tc_trait := Examples.traitWith Examples.noInnate
                   (Some (Examples.builder (Some mode) twoOptions));
     tc_choices := [Examples.chosenElvish]; tc_choicesFulfilled := false |}.

(** Mode "any" in lower case on a record that was fulfilled before. *)
Definition tcLowerAny : TraitChoice :=
  {| tc_trait := Examples.traitWith Examples.noInnate
                   (Some (Examples.builder (Some "any") twoOptions));
     tc_choices := []; tc_choicesFulfilled := true |}.

Definition tcBroken : TraitChoice :=
  {| tc_trait := Examples.traitWith Examples.noInnate
                   (Some (Examples.builder (Some "ALL")
                            [("additionalLanguage", Examples.additionalLanguage);
                             ("broken", brokenOption)]));
     tc_choices := [Examples.chosenElvish]; tc_choicesFulfilled := true |}.

(** A world without any background document. *)
Definition gameNoBackground : Game :=
  {| collections := fun _ => [Examples.doc 1 "x1" "Alpha"];
     packs := [Examples.packOf [Examples.doc 3 "x3" "Gamma"]] |}.

(** Only the background cache is filled. *)
Definition backgroundOnly : Env :=
  {| cfg := {| LINEAGE_DOCUMENTS := []; HERITAGE_DOCUMENTS := [];
               BACKGROUND_DOCUMENTS := Examples.cached Examples.background;
               TALENT_DOCUMENTS := []; CLASS_DOCUMENTS := [];
               PROFICIENCY_TYPES := PROFICIENCY_TYPES Examples.catalog;
               DAMAGE_TYPES := DAMAGE_TYPES Examples.catalog;
               LANGUAGE_TYPES := LANGUAGE_TYPES Examples.catalog;
               SAVE_TYPES := SAVE_TYPES Examples.catalog;
               other_members := [] |};
     fetched := [] |}.

Definition cold : Env := {| cfg := Examples.catalog; fetched := [] |}.

Definition encounter : list Combatant :=
  [ {| c_tokenId := Some "tok1"; c_actorId := Some "act1" |};
    {| c_tokenId := None; c_actorId := Some "act2" |} ].

End MoreExamples.

(* ===================================================================== *)
(** * Properties *)
(* ===================================================================== *)

(** ** Facts about the JavaScript helpers *)

Lemma strict_eq_spec a b : Js.strict_eq a b = true <-> a = b.
Proof.
  destruct a as [x|], b as [y|]; simpl; try (split; congruence).
  rewrite String.eqb_eq. split; congruence.
Qed.

Lemma find_some {A} (p : A -> bool) l x :
  Js.find p l = Some x -> In x l /\ p x = true.
Proof.
  induction l as [|y l IH]; simpl; [discriminate|].
  destruct (p y) eqn:E.
  - intros [= ->]. auto.
  - intros H. destruct (IH H). auto.
Qed.

Lemma find_none {A} (p : A -> bool) l :
  Js.find p l = None <-> (forall x, In x l -> p x = false).
Proof.
  induction l as [|y l IH]; simpl.
  - split; [intros _ x []|reflexivity].
  - destruct (p y) eqn:E.
    + split; [discriminate|]. intros H. rewrite (H y) in E; [discriminate|auto].
    + rewrite IH. split.
      * intros H x [<-|Hx]; auto.
      * intros H x Hx. apply H. auto.
Qed.

Lemma find_is_some {A} (p : A -> bool) l :
  (exists x, In x l /\ p x = true) <-> is_Some (Js.find p l).
Proof.
  split.
  - intros (x & Hx & Hp). destruct (Js.find p l) eqn:E; [eauto|].
    rewrite find_none in E. rewrite (E x Hx) in Hp. discriminate.
  - intros [y Hy]. apply find_some in Hy. eauto.
Qed.

(** ** Ability modifiers *)

Lemma foldl_assign_notin (l : list (string * Z)) tbl (a : string) :
  a ∉ l.*1 -> foldl Abilities.assign tbl l !! a = tbl !! a.
Proof.
  revert tbl. induction l as [|[k v] l IH]; intros tbl Hn; simpl; [done|].
  rewrite fmap_cons, not_elem_of_cons in Hn. destruct Hn as [Hk Hl].
  rewrite IH by done. unfold Abilities.assign. simpl.
  by rewrite lookup_insert_ne.
Qed.

Lemma foldl_assign_in (l : list (string * Z)) tbl (a : string) v :
  NoDup l.*1 -> (a, v) ∈ l -> foldl Abilities.assign tbl l !! a = Some (score v).
Proof.
  revert tbl. induction l as [|[k w] l IH]; intros tbl Hnd Hin; simpl.
  - by apply elem_of_nil in Hin.
  - rewrite fmap_cons, NoDup_cons in Hnd. destruct Hnd as [Hk Hnd].
    apply elem_of_cons in Hin. destruct Hin as [[= -> ->]|Hin].
    + rewrite foldl_assign_notin by done. unfold Abilities.assign. simpl.
      by rewrite lookup_insert_eq.
    + by apply IH.
Qed.

Lemma deriveTable_lookup (raw : gmap string Z) (a : string) :
  Abilities.deriveTable raw !! a = score <$> raw !! a.
Proof.
  unfold Abilities.deriveTable. destruct (raw !! a) as [v|] eqn:E; simpl.
  - apply foldl_assign_in.
    + apply NoDup_fst_map_to_list.
    + by apply elem_of_map_to_list.
  - rewrite foldl_assign_notin.
    + by rewrite lookup_fmap, E.
    + intros Hin. apply list_elem_of_fmap in Hin. destruct Hin as ([k v] & -> & Hin).
      apply elem_of_map_to_list in Hin. simpl in E. congruence.
Qed.

(** Integers up to [2^53] in magnitude are doubles. *)
Lemma toDouble_exact (x : Z) : Z.abs x <= 2 ^ 53 -> Js.toDouble x = x.
Proof.
  intros Hx. unfold Js.toDouble. destruct (Z.abs x <? 2 ^ 53) eqn:E; [reflexivity|].
  apply Z.ltb_ge in E.
  assert (Hc : x = 2 ^ 53 \/ x = - 2 ^ 53) by lia.
  destruct Hc as [-> | ->]; vm_compute; reflexivity.
Qed.

Lemma modifier_exact (v : Z) : exactScore v -> Abilities.modifier v = (v - 10) / 2.
Proof.
  intros Hv. unfold Abilities.modifier. unfold exactScore in Hv.
  rewrite toDouble_exact by lia. reflexivity.
Qed.

Lemma modifier_floor (v : Z) :
  exactScore v -> 2 * Abilities.modifier v <= v - 10 < 2 * Abilities.modifier v + 2.
Proof.
  intros Hv. rewrite modifier_exact by exact Hv.
  pose proof (Z.div_mod (v - 10) 2 ltac:(lia)).
  pose proof (Z.mod_pos_bound (v - 10) 2 ltac:(lia)). lia.
Qed.

(** C4: for every ability key [a] and raw score [v] stored under it,
    the derived table holds under [a] a pair with [value = v], and for
    an integer score from [-2^53 + 10] to [2^53] (every score from 1
    to 30 is one) the modifier of the pair is [floor((v - 10) / 2)],
    the largest integer [m] with [2 m <= v - 10]; a key that had no
    score has none afterwards; 1 gives -5, 10 and 11 give 0, 12 gives
    1, 20 gives 5; the step is a total function and every other field
    of the system is left as it was. *)
Theorem C4_ability_modifier {Adv} (s : System Z Adv) (a : string) :
  let s' := Abilities.prepareAbilityScoreMods s in
  (forall v, abilities s !! a = Some v -> exactScore v ->
     abilities s' !! a = Some (inr {| value := v; mod_ := (v - 10) / 2 |}))
  /\ (forall v, abilities s !! a = Some v ->
        exists m, abilities s' !! a = Some (inr {| value := v; mod_ := m |}))
  /\ (abilities s !! a = None -> abilities s' !! a = None)
  /\ (forall v : Z, exactScore v ->
        Abilities.modifier v = (v - 10) / 2
        /\ 2 * Abilities.modifier v <= v - 10 < 2 * Abilities.modifier v + 2)
  /\ (forall v : Z, 1 <= v <= 30 -> exactScore v)
  /\ (Abilities.modifier 1 = -5 /\ Abilities.modifier 10 = 0 /\ Abilities.modifier 11 = 0
      /\ Abilities.modifier 12 = 1 /\ Abilities.modifier 20 = 5)
  /\ (backgroundId s' = backgroundId s /\ background s' = background s
      /\ heritageId s' = heritageId s /\ heritage s' = heritage s
      /\ lineageId s' = lineageId s /\ lineage s' = lineage s
      /\ classId s' = classId s /\ class s' = class s
      /\ traits s' = traits s /\ traitChoices s' = traitChoices s
      /\ proficiencies s' = proficiencies s /\ resistances s' = resistances s
      /\ languages s' = languages s /\ saveAdvantages s' = saveAdvantages s).
Proof.
  simpl. split.
  { intros v Hv Hex. rewrite deriveTable_lookup, Hv. simpl. unfold score.
    by rewrite modifier_exact. }
  split.
  { intros v Hv. rewrite deriveTable_lookup, Hv. simpl. unfold score. eauto. }
  split.
  { intros Hn. by rewrite deriveTable_lookup, Hn. }
  split.
  { intros v Hv. split; [by apply modifier_exact|by apply modifier_floor]. }
  split.
  { intros v Hv. unfold exactScore. lia. }
  split; [repeat split; reflexivity|].
  repeat split; reflexivity.
Qed.

(** The scores 9 and 15 of a character. *)
Lemma C4_ability_modifier_witness :
  abilities (Abilities.prepareAbilityScoreMods Examples.scored) !! "dex"
    = Some (inr {| value := 9; mod_ := -1 |})
  /\ abilities (Abilities.prepareAbilityScoreMods Examples.scored) !! "str"
    = Some (inr {| value := 15; mod_ := 2 |}).
Proof.
  split.
  - apply (proj1 (C4_ability_modifier Examples.scored "dex") 9);
      [reflexivity | unfold exactScore; simpl; lia].
  - apply (proj1 (C4_ability_modifier Examples.scored "str") 15);
      [reflexivity | unfold exactScore; simpl; lia].
Defined.

(** ** Catalog cache *)

Lemma ensureLoaded_warm cmp game (e : Env) :
  BACKGROUND_DOCUMENTS (cfg e) <> [] -> Catalog.ensureLoaded cmp game e = e.
Proof.
  unfold Catalog.ensureLoaded. destruct (BACKGROUND_DOCUMENTS (cfg e)); simpl; congruence.
Qed.

Lemma ensureLoaded_cold cmp game (e : Env) :
  BACKGROUND_DOCUMENTS (cfg e) = [] ->
  Catalog.ensureLoaded cmp game e = Catalog.loadForeignDocuments cmp game e.
Proof. unfold Catalog.ensureLoaded. intros ->. reflexivity. Qed.

(** C7: a derivation pass that finds all five catalog caches non-empty
    requests no document from any pack (the list of fetched ids is the
    one it started with) and leaves the configuration object, hence
    every cached collection, exactly as it was. *)
Theorem C7_warm_cache_no_fetch {Abl Adv} cmp game (e : Env) src (s : System Abl Adv) :
  LINEAGE_DOCUMENTS (cfg e) <> [] ->
  HERITAGE_DOCUMENTS (cfg e) <> [] ->
  BACKGROUND_DOCUMENTS (cfg e) <> [] ->
  TALENT_DOCUMENTS (cfg e) <> [] ->
  CLASS_DOCUMENTS (cfg e) <> [] ->
  let e' := (Catalog.prepareForeignDocumentData cmp game e src s).1 in
  fetched e' = fetched e /\ cfg e' = cfg e.
Proof.
  intros _ _ Hb _ _. simpl. rewrite ensureLoaded_warm by exact Hb. split; reflexivity.
Qed.

(** ** Trait reconciliation *)

Lemma addMissing_cases tcs t :
  Catalog.addMissing tcs t = tcs
  \/ (Catalog.addMissing tcs t = tcs ++ [freshChoice t]
      /\ Js.truthy (t_id t) = true
      /\ forall tc, In tc tcs -> tc_id tc <> t_id t).
Proof.
  unfold Catalog.addMissing. destruct (Js.truthy (t_id t)) eqn:Et; simpl; [|auto].
  destruct (Js.find _ tcs) eqn:Ef; [auto|]. right. repeat split; auto.
  intros tc Hin Heq. rewrite find_none in Ef. specialize (Ef tc Hin).
  apply strict_eq_spec in Heq. congruence.
Qed.

Lemma addMissing_has tcs t :
  Js.truthy (t_id t) = true ->
  exists tc, In tc (Catalog.addMissing tcs t) /\ tc_id tc = t_id t.
Proof.
  intros Ht. unfold Catalog.addMissing. rewrite Ht. simpl.
  destruct (Js.find _ tcs) as [tc|] eqn:Ef.
  - apply find_some in Ef. destruct Ef as [Hin Heq]. apply strict_eq_spec in Heq. eauto.
  - exists (freshChoice t). split; [apply in_or_app; right; left|]; reflexivity.
Qed.

(** What the adding loop leaves: the old records, followed by fresh
    records of traits that have an id no old record carries. *)
Lemma foldl_addMissing trs : forall tcs,
  exists added,
    foldl Catalog.addMissing tcs trs = tcs ++ added
    /\ (forall tc, In tc added ->
          exists t, In t trs /\ tc = freshChoice t /\ Js.truthy (t_id t) = true
                    /\ forall old, In old tcs -> tc_id old <> t_id t).
Proof.
  induction trs as [|t trs IH]; intros tcs; simpl.
  - exists []. rewrite app_nil_r. split; [reflexivity|intros ? []].
  - destruct (addMissing_cases tcs t) as [->|(-> & Ht & Hnew)].
    + destruct (IH tcs) as (added & -> & Hadded). exists added. split; [reflexivity|].
      intros tc Hin. destruct (Hadded tc Hin) as (t' & ? & ? & ? & ?). exists t'. auto.
    + destruct (IH (tcs ++ [freshChoice t])) as (added & -> & Hadded).
      exists (freshChoice t :: added). split; [by rewrite <- app_assoc|].
      intros tc [<-|Hin].
      * exists t. auto.
      * destruct (Hadded tc Hin) as (t' & ? & ? & ? & Hold). exists t'.
        repeat split; auto. intros old Ho. apply Hold. apply in_or_app. auto.
Qed.

Lemma foldl_addMissing_incl trs : forall tcs tc,
  In tc tcs -> In tc (foldl Catalog.addMissing tcs trs).
Proof.
  intros tcs tc Hin. destruct (foldl_addMissing trs tcs) as (added & -> & _).
  apply in_or_app. auto.
Qed.

Lemma foldl_addMissing_has trs : forall tcs t,
  In t trs -> Js.truthy (t_id t) = true ->
  exists tc, In tc (foldl Catalog.addMissing tcs trs) /\ tc_id tc = t_id t.
Proof.
  induction trs as [|t0 trs IH]; intros tcs t Hin Ht; [destruct Hin|].
  simpl. destruct Hin as [->|Hin].
  - destruct (addMissing_has tcs t Ht) as (tc & Htc & Hid).
    exists tc. split; [by apply foldl_addMissing_incl|done].
  - by apply IH.
Qed.

Lemma prune_In trs tcs tc :
  In tc (Catalog.prune trs tcs)
  <-> In tc tcs /\ exists t, In t trs /\ t_id t = tc_id tc.
Proof.
  unfold Catalog.prune. rewrite <- list_elem_of_In, list_elem_of_filter.
  rewrite bool_decide_spec, <- find_is_some, list_elem_of_In.
  split.
  - intros [(t & Ht & Heq) H1]. split; [done|]. exists t. split; [done|].
    by apply strict_eq_spec.
  - intros [H1 (t & Ht & Heq)]. split; [|done]. exists t. split; [done|].
    by apply strict_eq_spec.
Qed.

(** Every record the adding loop creates, and every old record under
    the invariant, has an id. *)
Lemma reconcile_truthy trs tcs :
  (forall tc, In tc tcs -> Js.truthy (tc_id tc) = true) ->
  forall tc, In tc (Catalog.reconcile trs tcs) -> Js.truthy (tc_id tc) = true.
Proof.
  intros Hold tc Hin. unfold Catalog.reconcile in Hin.
  apply prune_In in Hin. destruct Hin as [Hin _].
  destruct (foldl_addMissing trs tcs) as (added & E & Hadded). rewrite E in Hin.
  apply in_app_or in Hin. destruct Hin as [Hin|Hin]; [auto|].
  destruct (Hadded tc Hin) as (t & _ & -> & Ht & _). exact Ht.
Qed.

(** C3: after [prepareForeignDocumentData] the ids of the trait
    choices are exactly the ids of the current traits that have one (an
    id being a truthy [id]); when every stored trait choice has an id,
    so has every trait choice afterwards.  A trait with an id that no
    stored trait choice carried is represented by a record created in
    this pass from a current trait, with [choices = []] and
    [choicesFulfilled = false]; a stored trait choice is kept unchanged
    when some current trait has its id, and otherwise no record with
    its id remains. *)
Theorem C3_reconciliation {Abl Adv} cmp game (e : Env) src (s : System Abl Adv) :
  let s' := (Catalog.prepareForeignDocumentData cmp game e src s).2 in
  (forall i, Js.truthy i = true ->
             (In i (map tc_id (traitChoices s')) <-> In i (map t_id (traits s'))))
  /\ ((forall tc, In tc (traitChoices s) -> Js.truthy (tc_id tc) = true) ->
      forall tc, In tc (traitChoices s') -> Js.truthy (tc_id tc) = true)
  /\ (forall t, In t (traits s') -> Js.truthy (t_id t) = true ->
        (forall old, In old (traitChoices s) -> tc_id old <> t_id t) ->
        exists tc, In tc (traitChoices s') /\ tc_id tc = t_id t
                   /\ ~ In tc (traitChoices s)
                   /\ In (tc_trait tc) (traits s')
                   /\ tc_choices tc = [] /\ tc_choicesFulfilled tc = false)
  /\ (forall old, In old (traitChoices s) ->
        (In (tc_id old) (map t_id (traits s')) -> In old (traitChoices s'))
        /\ (~ In (tc_id old) (map t_id (traits s')) ->
            ~ In (tc_id old) (map tc_id (traitChoices s')))).
Proof.
  simpl.
  set (trs := Catalog.traitsOf _ ++ Catalog.traitsOf _ ++ Catalog.traitsOf _).
  set (tcs := traitChoices s) in *.
  split; [|split; [|split]].
  - intros i Hi. rewrite !in_map_iff. split.
    + intros (tc & <- & Hin).
      apply prune_In in Hin. destruct Hin as (_ & t & Htin & Heq). eauto.
    + intros (t & <- & Hin).
      destruct (foldl_addMissing_has trs tcs t Hin Hi) as (tc & Htc & Hid).
      exists tc. split; [done|]. apply prune_In. split; [done|]. exists t. auto.
  - apply reconcile_truthy.
  - intros t Hin Ht Hnone.
    destruct (foldl_addMissing_has trs tcs t Hin Ht) as (tc & Htc & Hid).
    exists tc. destruct (foldl_addMissing trs tcs) as (added & E & Hadded).
    rewrite E in Htc. apply in_app_or in Htc. destruct Htc as [Htc|Htc].
    { exfalso. exact (Hnone tc Htc Hid). }
    destruct (Hadded tc Htc) as (t' & Ht' & -> & _ & _).
    split; [|repeat split; auto].
    + apply prune_In. split; [rewrite E; apply in_or_app; auto|]. exists t. auto.
    + intros Hc. exact (Hnone _ Hc Hid).
  - intros old Ho. split.
    + intros Hin. apply in_map_iff in Hin. destruct Hin as (t & Heq & Hin).
      apply prune_In. split; [by apply foldl_addMissing_incl|]. exists t. auto.
    + intros Hn Hin. apply in_map_iff in Hin. destruct Hin as (tc & Heq & Hin).
      apply prune_In in Hin. destruct Hin as (_ & t & Ht & Heq').
      apply Hn. apply in_map_iff. exists t. split; [congruence|done].
Qed.

(** ** Choice fulfillment *)

Lemma evaluate_absent c tc :
  Builder.optionsOf (tc_trait tc) = None ->
  Builder.evaluate c tc =
    {| tc_trait := tc_trait tc; tc_choices := tc_choices tc; tc_choicesFulfilled := true |}.
Proof.
  unfold Builder.optionsOf, Builder.evaluate. intros H.
  assert (E : match tc_choices tc with [] => [] | l => l end = tc_choices tc)
    by (destruct (tc_choices tc); reflexivity).
  rewrite E. destruct (t_builderInfo (tc_trait tc)) as [bi|]; [|reflexivity].
  rewrite H. reflexivity.
Qed.

Lemma evaluate_present c tc bi opts :
  t_builderInfo (tc_trait tc) = Some bi -> bi_options bi = Some opts ->
  Builder.evaluate c tc =
    {| tc_trait := Builder.setMode (tc_trait tc) bi (Builder.defaultMode (bi_mode bi));
       tc_choices := (Builder.processOptions c (tc_choices tc) opts).1;
       tc_choicesFulfilled :=
         Builder.fulfilled (Builder.defaultMode (bi_mode bi))
           (Builder.processOptions c (tc_choices tc) opts).2
           (length opts) (tc_choicesFulfilled tc) |}.
Proof.
  unfold Builder.evaluate. intros -> ->.
  assert (E : match tc_choices tc with [] => [] | l => l end = tc_choices tc)
    by (destruct (tc_choices tc); reflexivity).
  rewrite E. destruct (Builder.processOptions c (tc_choices tc) opts) as [ch m].
  unfold Js.keys. rewrite length_map. reflexivity.
Qed.

(** With no mode given the mode becomes ["all"], which the [switch]
    does not know: the flag keeps the value it had. *)
Lemma evaluate_mode_unspecified c tc bi opts :
  t_builderInfo (tc_trait tc) = Some bi -> bi_options bi = Some opts ->
  Js.truthy (bi_mode bi) = false ->
  tc_choicesFulfilled (Builder.evaluate c tc) = tc_choicesFulfilled tc
  /\ (t_builderInfo (tc_trait (Builder.evaluate c tc)) ≫= bi_mode) = Some "all".
Proof.
  intros Hb Ho Hm. rewrite (evaluate_present c tc bi opts Hb Ho). simpl.
  unfold Builder.defaultMode. rewrite Hm. split; reflexivity.
Qed.

(** The policies of the three modes the [switch] knows. *)
Lemma evaluate_known_modes c tc bi opts :
  t_builderInfo (tc_trait tc) = Some bi -> bi_options bi = Some opts ->
  let made := (Builder.processOptions c (tc_choices tc) opts).2 in
  let res := tc_choicesFulfilled (Builder.evaluate c tc) in
  (bi_mode bi = Some "ALL" -> res = (made =? Z.of_nat (length opts)))
  /\ (bi_mode bi = Some "ANY" -> res = (made >? 0))
  /\ (bi_mode bi = Some "CHOOSE_ONE" -> res = (made =? 1)).
Proof.
  intros Hb Ho. simpl. rewrite (evaluate_present c tc bi opts Hb Ho). simpl.
  repeat split; intros ->; reflexivity.
Qed.

(** [refresh] keeps the key and the chosen values of every slot. *)
Lemma find_refresh_other key k' f l :
  (forall s, cs_key (f s) = cs_key s) ->
  (forall s, cs_chosenValues (f s) = cs_chosenValues s) ->
  cs_chosenValues <$> Js.find (fun s => String.eqb (cs_key s) k') (Builder.refresh key f l)
  = cs_chosenValues <$> Js.find (fun s => String.eqb (cs_key s) k') l.
Proof.
  intros Hk Hc. induction l as [|s l IH]; simpl; [reflexivity|].
  destruct (String.eqb (cs_key s) key) eqn:E; simpl.
  - rewrite Hk. destruct (String.eqb (cs_key s) k'); simpl; [by rewrite Hc|reflexivity].
  - destruct (String.eqb (cs_key s) k'); simpl; [reflexivity|exact IH].
Qed.

Lemma find_app_other k k' l (s : ChoiceSlot) :
  cs_key s = k -> k <> k' ->
  Js.find (fun s => String.eqb (cs_key s) k') (l ++ [s])
  = Js.find (fun s => String.eqb (cs_key s) k') l.
Proof.
  intros Hs Hne. induction l as [|x l IH]; simpl.
  - rewrite Hs. apply String.eqb_neq in Hne. by rewrite Hne.
  - destruct (String.eqb (cs_key x) k'); [reflexivity|exact IH].
Qed.

Lemma existedComplete_find l1 l2 k a :
  cs_chosenValues <$> Js.find (fun s => String.eqb (cs_key s) k) l1
  = cs_chosenValues <$> Js.find (fun s => String.eqb (cs_key s) k) l2 ->
  existedComplete l1 k a = existedComplete l2 k a.
Proof.
  unfold existedComplete.
  destruct (Js.find _ l1), (Js.find _ l2); simpl; intros [=]; congruence.
Qed.

(** One option changes the count by one exactly when it is [counted],
    and leaves [existedComplete] of every other key alone. *)
Lemma processOption_step c choices m k o :
  let st := Builder.processOption c (choices, m) (k, o) in
  st.2 = m + (if counted c choices (k, o) then 1 else 0)
  /\ forall k' a, k <> k' -> existedComplete st.1 k' a = existedComplete choices k' a.
Proof.
  unfold Builder.processOption, counted, existedComplete. simpl.
  destruct (Builder.resolveValues c o) as [values|] eqn:Er; simpl.
  - destruct (Js.find _ choices) as [cur|] eqn:Ef; simpl.
    + split.
      * destruct (_ =? _); lia.
      * intros k' a Hne. apply (existedComplete_find _ choices).
        apply find_refresh_other; reflexivity.
    + split.
      * lia.
      * intros k' a Hne. apply (existedComplete_find _ choices).
        f_equal. by apply (find_app_other k).
  - split; [lia|reflexivity].
Qed.

Lemma processOptions_count c opts : forall choices m,
  NoDup (Js.keys opts) ->
  (foldl (Builder.processOption c) (choices, m) opts).2
  = m + Z.of_nat (length (List.filter (counted c choices) opts)).
Proof.
  induction opts as [|[k o] opts IH]; intros choices m Hnd; [simpl; lia|].
  cbn [foldl List.filter]. unfold Js.keys in Hnd. simpl in Hnd. apply NoDup_cons in Hnd. destruct Hnd as [Hk Hnd].
  pose proof (processOption_step c choices m k o) as [Hm Hother].
  destruct (Builder.processOption c (choices, m) (k, o)) as [ch1 m1] eqn:E.
  simpl in Hm, Hother. rewrite IH by exact Hnd. subst m1.
  assert (Hext : List.filter (counted c ch1) opts = List.filter (counted c choices) opts).
  { apply List.filter_ext_in. intros [k' o'] Hin. unfold counted. simpl. f_equal.
    apply Hother. intros ->. apply Hk. apply list_elem_of_In.
    change k' with ((k', o').1). apply in_map. exact Hin. }
  rewrite Hext. destruct (counted c choices (k, o)); simpl length; lia.
Qed.

Lemma filter_length_lt {A} (p : A -> bool) l x :
  In x l -> p x = false -> (length (List.filter p l) < length l)%nat.
Proof.
  induction l as [|y l IH]; intros Hin Hp; [destruct Hin|]. simpl.
  destruct Hin as [->|Hin].
  - rewrite Hp. pose proof (List.filter_length_le p l). lia.
  - specialize (IH Hin Hp). destruct (p y); simpl; lia.
Qed.

(** C2 (the code departs from the claim): a trait choice whose one
    option has its slot completely chosen, with no mode configured, is
    evaluated with made-count 1 out of 1 option, its mode is set to
    ["all"], and [choicesFulfilled] keeps its prior value [false]
    instead of becoming [true] as the ALL policy would make it. *)
Theorem C2_unspecified_mode_not_ALL :
  let tc' := Builder.evaluate Examples.catalog Examples.tcNoMode in
  (Builder.processOptions Examples.catalog (tc_choices Examples.tcNoMode)
     [("additionalLanguage", Examples.additionalLanguage)]).2 = 1
  /\ (t_builderInfo (tc_trait tc') ≫= bi_mode) = Some "all"
  /\ tc_choicesFulfilled Examples.tcNoMode = false
  /\ tc_choicesFulfilled tc' = false.
Proof. vm_compute. repeat split; reflexivity. Qed.

(** C6 (as stated, refuted): an empty options object under mode ANY
    is evaluated by the policy and comes out unfulfilled. *)
Lemma C6_empty_options_ANY_unfulfilled :
  Builder.optionsOf (tc_trait Examples.tcEmptyAny) = Some []
  /\ tc_choicesFulfilled (Builder.evaluate Examples.catalog Examples.tcEmptyAny) = false.
Proof. split; reflexivity. Qed.

(** C6 (amended): a trait choice whose [builderInfo] or
    [builderInfo.options] is absent is set to fulfilled; an empty
    options object is not absent: it is evaluated by mode on a
    made-count of 0 out of 0 options, which gives fulfilled under ALL
    and unfulfilled under ANY and CHOOSE_ONE. *)
Theorem C6_absent_options_fulfilled c tc :
  (Builder.optionsOf (tc_trait tc) = None ->
   tc_choicesFulfilled (Builder.evaluate c tc) = true)
  /\ (forall bi, t_builderInfo (tc_trait tc) = Some bi -> bi_options bi = Some [] ->
        (bi_mode bi = Some "ALL" -> tc_choicesFulfilled (Builder.evaluate c tc) = true)
        /\ (bi_mode bi = Some "ANY" -> tc_choicesFulfilled (Builder.evaluate c tc) = false)
        /\ (bi_mode bi = Some "CHOOSE_ONE" ->
            tc_choicesFulfilled (Builder.evaluate c tc) = false)).
Proof.
  split.
  - intros H. rewrite evaluate_absent by exact H. reflexivity.
  - intros bi Hb Ho. rewrite (evaluate_present c tc bi [] Hb Ho). simpl.
    repeat split; intros ->; reflexivity.
Qed.

(** A record without builder configuration, and one with an empty
    options object under ALL. *)
Lemma C6_absent_options_fulfilled_witness :
  tc_choicesFulfilled (Builder.evaluate Examples.catalog Examples.tcNoBuilder) = true
  /\ tc_choicesFulfilled (Builder.evaluate Examples.catalog Examples.tcEmptyAll) = true.
Proof.
  split.
  - apply (proj1 (C6_absent_options_fulfilled Examples.catalog Examples.tcNoBuilder)).
    reflexivity.
  - apply (proj2 (C6_absent_options_fulfilled Examples.catalog Examples.tcEmptyAll)
             (Examples.builder (Some "ALL") [])); reflexivity.
Defined.

(** C10: in one run of the evaluator over a trait choice, the
    made-count is the number of options that are not skipped and whose
    slot was found among the choices the record had before the run,
    holding exactly the configured amount of chosen values; a slot
    created in the run adds nothing.  Hence, under mode ALL, a run
    that has to create the slot of at least one resolvable option (in
    particular the first run, which starts without slots) leaves the
    record unfulfilled. *)
Theorem C10_created_slot_not_counted c tc bi opts :
  t_builderInfo (tc_trait tc) = Some bi -> bi_options bi = Some opts ->
  NoDup (Js.keys opts) ->
  (Builder.processOptions c (tc_choices tc) opts).2
    = Z.of_nat (length (List.filter (counted c (tc_choices tc)) opts))
  /\ (bi_mode bi = Some "ALL" ->
      (exists k o, In (k, o) opts /\ is_Some (Builder.resolveValues c o)
                   /\ Js.find (fun s => String.eqb (cs_key s) k) (tc_choices tc) = None) ->
      tc_choicesFulfilled (Builder.evaluate c tc) = false)
  /\ (bi_mode bi = Some "ALL" -> tc_choices tc = [] ->
      (exists k o, In (k, o) opts /\ is_Some (Builder.resolveValues c o)) ->
      tc_choicesFulfilled (Builder.evaluate c tc) = false).
Proof.
  intros Hb Ho Hnd.
  assert (Hcount : (Builder.processOptions c (tc_choices tc) opts).2
                   = Z.of_nat (length (List.filter (counted c (tc_choices tc)) opts))).
  { unfold Builder.processOptions. rewrite processOptions_count by exact Hnd. lia. }
  assert (Hall : bi_mode bi = Some "ALL" ->
      (exists k o, In (k, o) opts /\ is_Some (Builder.resolveValues c o)
                   /\ Js.find (fun s => String.eqb (cs_key s) k) (tc_choices tc) = None) ->
      tc_choicesFulfilled (Builder.evaluate c tc) = false).
  { intros Hm (k & o & Hin & _ & Hf).
    destruct (evaluate_known_modes c tc bi opts Hb Ho) as (HALL & _ & _).
    rewrite (HALL Hm), Hcount. apply Z.eqb_neq.
    assert (Hlt : (length (List.filter (counted c (tc_choices tc)) opts) < length opts)%nat).
    { apply (filter_length_lt _ _ (k, o) Hin).
      unfold counted, existedComplete. simpl. rewrite Hf. apply andb_false_r. }
    lia. }
  split; [exact Hcount|]. split; [exact Hall|].
  intros Hm Hnil (k & o & Hin & Hr). apply (Hall Hm).
  exists k, o. rewrite Hnil. auto.
Qed.

(** The first run over a record the reconciler has just created. *)
Lemma C10_created_slot_not_counted_witness :
  tc_choicesFulfilled (Builder.evaluate Examples.catalog Examples.tcFirstRun) = false.
Proof.
  refine (proj2 (proj2 (C10_created_slot_not_counted Examples.catalog Examples.tcFirstRun
            (Examples.builder (Some "ALL") [("additionalLanguage", Examples.additionalLanguage)])
            [("additionalLanguage", Examples.additionalLanguage)] eq_refl eq_refl _))
          eq_refl eq_refl _).
  - apply NoDup_singleton.
  - exists "additionalLanguage", Examples.additionalLanguage.
    split; [left; reflexivity|]. eexists. reflexivity.
Defined.

(** ** Sorting and Sets *)

Section SortFacts.
Context {A : Type} (cmp : A -> A -> Z).
Hypothesis cmp_total : forall a b, cmp a b <= 0 \/ cmp b a <= 0.
Hypothesis cmp_trans : forall a b c, cmp a b <= 0 -> cmp b c <= 0 -> cmp a c <= 0.

Lemma insert_Permutation x l : Coll.insert cmp x l ≡ₚ x :: l.
Proof.
  induction l as [|y l IH]; simpl; [reflexivity|].
  destruct (cmp x y <=? 0); [reflexivity|].
  rewrite IH. apply perm_swap.
Qed.

Lemma sort_Permutation l : Coll.sort cmp l ≡ₚ l.
Proof.
  induction l as [|x l IH]; simpl; [reflexivity|].
  fold (Coll.sort cmp l). rewrite insert_Permutation. by rewrite IH.
Qed.

Lemma insert_sorted x l :
  StronglySorted (fun a b => cmp a b <= 0) l ->
  StronglySorted (fun a b => cmp a b <= 0) (Coll.insert cmp x l).
Proof using cmp_total cmp_trans.
  induction l as [|y l IH]; intros Hs; simpl.
  - constructor; constructor.
  - inversion Hs as [|? ? Hs' Hall]; subst.
    destruct (cmp x y <=? 0) eqn:E.
    + apply Z.leb_le in E. constructor; [exact Hs|].
      constructor; [exact E|].
      eapply Forall_impl; [exact Hall|]. intros z Hz. eapply cmp_trans; eauto.
    + apply Z.leb_gt in E. constructor; [by apply IH|].
      rewrite insert_Permutation. constructor; [|exact Hall].
      destruct (cmp_total y x) as [H|H]; [exact H|]. lia.
Qed.

Lemma sort_sorted l : StronglySorted (fun a b => cmp a b <= 0) (Coll.sort cmp l).
Proof using cmp_total cmp_trans.
  induction l as [|x l IH]; simpl; [constructor|]. by apply insert_sorted.
Qed.
End SortFacts.

Lemma StronglySorted_sublist {A} (R : A -> A -> Prop) l1 l2 :
  sublist l1 l2 -> StronglySorted R l2 -> StronglySorted R l1.
Proof.
  induction 1 as [|x l1 l2 Hsub IH|x l1 l2 Hsub IH]; intros Hs.
  - constructor.
  - inversion Hs as [|? ? Hs' Hall]; subst. constructor; [auto|].
    rewrite Forall_forall in Hall |- *. intros y Hy. apply Hall.
    eapply elem_of_sublist; eauto.
  - inversion Hs; subst. auto.
Qed.

Lemma sublist_omap_id {A} (l1 l2 : list (option A)) :
  sublist l1 l2 -> sublist (omap id l1) (omap id l2).
Proof.
  induction 1 as [|x l1 l2 Hsub IH|x l1 l2 Hsub IH]; simpl.
  - constructor.
  - destruct x; simpl; [by constructor|exact IH].
  - destruct x; simpl; [by constructor|exact IH].
Qed.

Section SetFacts.
Context {A : Type} (same : A -> A -> bool).

(** Adding to a Set appends some of the new elements, in order. *)
Lemma set_add_all_sublist l : forall s,
  exists l', foldl (Coll.set_add same) s l = s ++ l' /\ sublist l' l.
Proof.
  induction l as [|x l IH]; intros s; simpl.
  - exists []. by rewrite app_nil_r.
  - unfold Coll.set_add at 2. destruct (existsb (same x) s).
    + destruct (IH s) as (l' & -> & Hsub). exists l'. split; [done|by constructor].
    + destruct (IH (s ++ [x])) as (l' & -> & Hsub). exists (x :: l').
      split; [by rewrite <- app_assoc|by constructor].
Qed.

Lemma set_of_sublist l : sublist (Coll.set_of same l) l.
Proof.
  unfold Coll.set_of. destruct (set_add_all_sublist l []) as (l' & -> & H). exact H.
Qed.

Lemma pairwiseDistinct_snoc s x :
  pairwiseDistinct same s -> existsb (same x) s = false ->
  pairwiseDistinct same (s ++ [x]).
Proof.
  unfold pairwiseDistinct. induction 1 as [|y s Hy Hs IH]; intros Hx; simpl.
  - constructor; constructor.
  - simpl in Hx. apply orb_false_iff in Hx. destruct Hx as [Hxy Hx].
    constructor; [|auto]. apply Forall_app. split; [exact Hy|]. by constructor.
Qed.

Lemma set_add_all_distinct l : forall s,
  pairwiseDistinct same s -> pairwiseDistinct same (foldl (Coll.set_add same) s l).
Proof.
  induction l as [|x l IH]; intros s Hs; simpl; [exact Hs|].
  apply IH. unfold Coll.set_add. destruct (existsb (same x) s) eqn:E; [exact Hs|].
  by apply pairwiseDistinct_snoc.
Qed.

Lemma set_of_distinct l : pairwiseDistinct same (Coll.set_of same l).
Proof. apply set_add_all_distinct. constructor. Qed.

(** Every element offered to a Set is represented in it. *)
Lemma set_add_all_covers l : forall s x,
  (forall a, same a a = true) ->
  (exists y, In y s /\ same x y = true) \/ In x l ->
  exists y, In y (foldl (Coll.set_add same) s l) /\ same x y = true.
Proof.
  induction l as [|z l IH]; intros s x Hrefl Hin; simpl.
  - destruct Hin as [Hin|[]]. exact Hin.
  - apply IH; [exact Hrefl|]. unfold Coll.set_add at 1.
    destruct Hin as [(y & Hy & Hxy)|[->|Hin]]; [| |by right].
    + left. exists y. split; [|exact Hxy].
      destruct (existsb (same z) s); [done|]. apply in_or_app. by left.
    + left. destruct (existsb (same x) s) eqn:E.
      * apply existsb_exists in E. exact E.
      * exists x. split; [|apply Hrefl]. apply in_or_app. right. by left.
Qed.

Lemma set_of_covers l x :
  (forall a, same a a = true) -> In x l ->
  exists y, In y (Coll.set_of same l) /\ same x y = true.
Proof. intros Hrefl Hin. apply set_add_all_covers; auto. Qed.
End SetFacts.

(** ** Advantage sets *)

Lemma ordinalCompare_consistent : consistent Examples.ordinalCompare.
Proof.
  assert (Hle : forall a b, Examples.ordinalCompare a b <= 0
                            <-> a = b \/ String_as_OT.lt a b).
  { intros a b. unfold Examples.ordinalCompare.
    destruct (String_as_OT.compare_spec a b) as [H|H|H]; split; intros H'; auto; try lia.
    destruct H' as [->|H'].
    - exfalso. exact (StrictOrder_Irreflexive _ H).
    - exfalso. exact (StrictOrder_Irreflexive _ (StrictOrder_Transitive _ _ _ H H')). }
  split.
  - intros a b. rewrite !Hle.
    destruct (String_as_OT.compare_spec a b) as [H|H|H]; auto.
  - intros a b c. rewrite !Hle. intros [->|H1] [->|H2]; auto.
    right. exact (StrictOrder_Transitive _ _ _ H1 H2).
Qed.

Lemma omap_id_Some {A} (l : list A) : omap id (map Some l) = l.
Proof. induction l as [|x l IH]; simpl; [reflexivity|]. f_equal. exact IH. Qed.

Lemma omap_id_nones {A} (l : list (option A)) :
  omap id (filter (fun x => x = None) l) = [].
Proof.
  induction l as [|[x|] l IH]; [reflexivity| |].
  - rewrite filter_cons_False by (intros [=]). exact IH.
  - rewrite filter_cons_True by reflexivity. exact IH.
Qed.

Section SortSetFacts.
Variable cmp : string -> string -> Z.
Variable eng : list AdvObj -> Eff.Res (list AdvObj).
Hypothesis cmp_ok : consistent cmp.

Lemma sortSet_distinct l S :
  Advantages.sortSet cmp eng l = Eff.Ok S -> pairwiseDistinct same_adv S.
Proof.
  unfold Advantages.sortSet.
  destruct (forallb Advantages.labelled (omap id l) || (length (omap id l) <=? 1)%nat).
  - intros [= <-]. apply set_of_distinct.
  - destruct (eng (omap id l)); [|discriminate]. intros [= <-]. apply set_of_distinct.
Qed.

(** On entries that all have a label the sort is the engine-independent one. *)
Lemma sortSet_labelled l :
  forallb Advantages.labelled (omap id l) = true ->
  Advantages.sortSet cmp eng l
  = Eff.Ok (Coll.set_of same_adv (Coll.sortUndef (Advantages.byLabel cmp) l)).
Proof. unfold Advantages.sortSet. intros ->. reflexivity. Qed.

Lemma sortSet_sorted l S :
  forallb Advantages.labelled (omap id l) = true ->
  Advantages.sortSet cmp eng l = Eff.Ok S ->
  StronglySorted (ascending cmp Advantages.labelText) (omap id S).
Proof using cmp_ok.
  intros Hl. rewrite sortSet_labelled by exact Hl. intros [= <-].
  destruct cmp_ok as [Htot Htr].
  eapply StronglySorted_sublist.
  - apply sublist_omap_id. apply set_of_sublist.
  - unfold Coll.sortUndef. rewrite omap_app, omap_id_Some, omap_id_nones, app_nil_r.
    apply (sort_sorted (Advantages.byLabel cmp)); unfold Advantages.byLabel.
    + intros a b. apply Htot.
    + intros a b c. apply Htr.
Qed.
End SortSetFacts.

(** C5 (as stated, refuted): a trait that lists the same proficiency
    twice leaves two entries with the same source, sourceType, value
    and label (indeed the same content) in the final set: they are two
    objects, and the Set tells objects apart by identity. *)
Lemma C5_identical_entries_kept :
  exists sys' h' x y,
    Advantages.prepareAdvantages Examples.ordinalCompare Examples.strictEngine
      Examples.catalog
      (Examples.withTraits [Examples.traitTwice] [] []) Examples.heap0 = Eff.Ok (sys', h')
    /\ proficiencies sys' = [Some x; Some y]
    /\ a_data x = a_data y
    /\ a_oid x <> a_oid y.
Proof.
  eexists _, _, _, _. split; [vm_compute; reflexivity|].
  split; [reflexivity|]. split; [reflexivity|]. simpl. lia.
Qed.

(** A key the table does not answer makes [mapInnate] log and answer
    [undefined]. *)
Lemma mapInnate_unknown trait types k h :
  Advantages.labelOf types k = None ->
  Advantages.mapInnate trait types k h
  = Eff.Ok (None, {| Eff.next_oid := Eff.next_oid h;
                     Eff.log := Eff.log h ++ [Advantages.unknownType trait k] |}).
Proof. unfold Advantages.mapInnate. intros ->. reflexivity. Qed.

(** The choice tier skips such a value: nothing is pushed. *)
Lemma reduceValue_unknown trait types advs v h :
  Advantages.labelOf types v = None ->
  Advantages.reduceValue trait types advs v h
  = Eff.Ok (advs, {| Eff.next_oid := Eff.next_oid h;
                     Eff.log := Eff.log h ++ [Advantages.unknownType trait v] |}).
Proof. unfold Advantages.reduceValue. intros ->. reflexivity. Qed.

Lemma mapM_In {A B} (f : A -> Eff.M B) l : forall h ys h' x,
  Eff.mapM f l h = Eff.Ok (ys, h') -> In x l ->
  exists h1 y h2, f x h1 = Eff.Ok (y, h2) /\ In y ys.
Proof.
  induction l as [|a l IH]; intros h ys h' x H Hin; [destruct Hin|].
  simpl in H. unfold Eff.bind, Eff.ret in H.
  destruct (f a h) as [[y h1]|] eqn:Ea; [|discriminate].
  destruct (Eff.mapM f l h1) as [[ys' h2]|] eqn:El; [|discriminate].
  injection H as <- <-. destruct Hin as [->|Hin].
  - exists h, y, h1. split; [exact Ea|by left].
  - destruct (IH _ _ _ x El Hin) as (ha & y' & hb & Hf & Hy).
    exists ha, y', hb. split; [exact Hf|by right].
Qed.

(** Whenever a trait lists a key its table does not answer, the set
    that [addInnate] returns holds [undefined]. *)
Lemma addInnate_unknown_adds_undefined trait types keys set h set' h' k :
  In k keys -> Advantages.labelOf types k = None ->
  Advantages.addInnate trait types keys set h = Eff.Ok (set', h') ->
  In None set'.
Proof.
  intros Hin Hk H. unfold Advantages.addInnate, Eff.bind, Eff.ret in H.
  destruct (Eff.mapM _ keys h) as [[rs h1]|] eqn:E; [|discriminate].
  injection H as <- <-.
  destruct (mapM_In _ _ _ _ _ k E Hin) as (ha & y & hb & Hf & Hy).
  rewrite mapInnate_unknown in Hf by exact Hk. injection Hf as <- _.
  destruct (set_add_all_covers same_adv rs set None) as (z & Hz & Hs).
  - intros [a|]; simpl; [apply Nat.eqb_refl|reflexivity].
  - by right.
  - destruct z; [discriminate|exact Hz].
Qed.

(** C1 (the code departs from the claim): a trait with the known
    proficiency key [P2] and the unknown key [bogus] is aggregated
    without an exception and the unknown key is logged, but it is not
    skipped: the final proficiency set holds, besides the entry of
    [P2], the value [undefined] that [mapInnate] returned for [bogus]. *)
Theorem C1_unknown_innate_key_adds_undefined :
  exists sys' h' o,
    Advantages.prepareAdvantages Examples.ordinalCompare Examples.strictEngine
      Examples.catalog
      (Examples.withTraits [Examples.traitUnknown] [] []) Examples.heap0 = Eff.Ok (sys', h')
    /\ proficiencies sys' = [Some o; None]
    /\ adv_value (a_data o) = Key "P2"
    /\ Eff.log h' = ["Unknown type bogus in B (T1)"].
Proof.
  eexists _, _, _. split; [vm_compute; reflexivity|]. repeat split; reflexivity.
Qed.

(** ** Style strings *)

Lemma hex2_parses upper n :
  0 <= n <= 255 ->
  Style.is_word (hexChar upper (n / 16)) && Style.is_word (hexChar upper (n mod 16)) = true
  /\ Style.parseInt16 (hex2 upper n) = Some n.
Proof.
  intros Hn.
  assert (Hall : forallb (fun k =>
            let n := Z.of_nat k in
            Style.is_word (hexChar upper (n / 16))
            && Style.is_word (hexChar upper (n mod 16))
            && match Style.parseInt16 (hex2 upper n) with
               | Some v => v =? n
               | None => false
               end) (seq 0 256) = true)
    by (destruct upper; vm_compute; reflexivity).
  rewrite forallb_forall in Hall.
  assert (Hin : In (Z.to_nat n) (seq 0 256)) by (apply in_seq; lia).
  specialize (Hall (Z.to_nat n) Hin).
  rewrite Z2Nat.id in Hall by lia. cbv zeta in Hall.
  apply andb_prop in Hall. destruct Hall as [H1 H2].
  split; [exact H1|].
  destruct (Style.parseInt16 (hex2 upper n)) as [v|]; [|discriminate].
  apply Z.eqb_eq in H2. by subst.
Qed.

Lemma match_ww_hex a1 a2 b1 b2 c1 c2 :
  Style.is_word a1 && Style.is_word a2 = true ->
  Style.is_word b1 && Style.is_word b2 = true ->
  Style.is_word c1 && Style.is_word c2 = true ->
  Style.match_ww
    (String "#" (String a1 (String a2 (String b1 (String b2
       (String c1 (String c2 EmptyString)))))))
  = [String a1 (String a2 EmptyString); String b1 (String b2 EmptyString);
     String c1 (String c2 EmptyString)].
Proof.
  intros Ha Hb Hc. cbn [Style.match_ww].
  change (Style.is_word "#") with false. cbn [andb].
  rewrite Ha, Hb, Hc. reflexivity.
Qed.

Lemma buildStyleString_hex upper r g b :
  0 <= r <= 255 -> 0 <= g <= 255 -> 0 <= b <= 255 ->
  Style.buildStyleString (Some (hexColor upper r g b))
  = Eff.Ok (styleFor (hexColor upper r g b) r g b).
Proof.
  intros Hr Hg Hb.
  destruct (hex2_parses upper r Hr) as [Wr Pr].
  destruct (hex2_parses upper g Hg) as [Wg Pg].
  destruct (hex2_parses upper b Hb) as [Wb Pb].
  unfold Style.buildStyleString.
  change (Js.truthy (Some (hexColor upper r g b))) with true. cbv iota.
  change (Js.nullish (Some (hexColor upper r g b)) "") with (hexColor upper r g b).
  assert (Hm : Style.match_ww (hexColor upper r g b)
               = [hex2 upper r; hex2 upper g; hex2 upper b])
    by (apply match_ww_hex; assumption).
  rewrite Hm. cbn [map]. rewrite Pr, Pg, Pb. reflexivity.
Qed.

Lemma roundDiv1000_nearest x :
  1000 * Style.roundDiv1000 x - 500 <= x < 1000 * Style.roundDiv1000 x + 500.
Proof.
  unfold Style.roundDiv1000.
  pose proof (Z.div_mod (x + 500) 1000 ltac:(lia)).
  pose proof (Z.mod_pos_bound (x + 500) 1000 ltac:(lia)). lia.
Qed.

(** C9: for a trait whose colour is the hex string of the components
    [r], [g], [b] (upper or lower case digits), the style is
    [background-color: <colour>;] followed by [color: black;] when
    [round((r*299 + g*587 + b*114)/1000) > 125] and by [color: white;]
    otherwise, where [round] is the nearest integer; every entry that
    [mapInnate] or the choice tier builds for such a trait (for a key
    its table answers) carries that style, and an entry built by
    [mapManualData] carries none. *)
Theorem C9_style_contrast upper r g b :
  0 <= r <= 255 -> 0 <= g <= 255 -> 0 <= b <= 255 ->
  let color := hexColor upper r g b in
  let st := "background-color: " +:+ color +:+ ";" +:+ "color: " +:+
            (if Style.roundDiv1000 (r * 299 + g * 587 + b * 114) >? 125
             then "black" else "white") +:+ ";" in
  Style.buildStyleString (Some color) = Eff.Ok st
  /\ (forall x, 1000 * Style.roundDiv1000 x - 500 <= x < 1000 * Style.roundDiv1000 x + 500)
  /\ (forall trait types k lbl h,
        t_color trait = Some color -> Advantages.labelOf types k = Some lbl ->
        exists o h', Advantages.mapInnate trait types k h = Eff.Ok (Some o, h')
                     /\ sourceType (a_data o) = "innate"
                     /\ style (a_data o) = Some st)
  /\ (forall trait types advs v lbl h,
        t_color trait = Some color -> Advantages.labelOf types v = Some lbl ->
        exists o h', Advantages.reduceValue trait types advs v h
                     = Eff.Ok (advs ++ [Some o], h')
                     /\ sourceType (a_data o) = "choice"
                     /\ style (a_data o) = Some st)
  /\ (forall types v h o h',
        Advantages.mapManualData types v h = Eff.Ok (o, h') ->
        exists a, o = Some a /\ sourceType (a_data a) = "manual"
                  /\ style (a_data a) = None).
Proof.
  intros Hr Hg Hb color st.
  assert (Hst : Style.buildStyleString (Some color) = Eff.Ok st)
    by (apply buildStyleString_hex; assumption).
  split; [exact Hst|]. split; [apply roundDiv1000_nearest|].
  split; [|split].
  - intros trait types k lbl h Hc Hk.
    unfold Advantages.mapInnate, Eff.bind, Eff.lift. rewrite Hk, Hc, Hst.
    eexists _, _. split; [reflexivity|]. split; reflexivity.
  - intros trait types advs v lbl h Hc Hk.
    unfold Advantages.reduceValue, Eff.bind, Eff.lift. rewrite Hk, Hc, Hst.
    eexists _, _. split; [reflexivity|]. split; reflexivity.
  - intros types v h o h' H. unfold Advantages.mapManualData in H.
    destruct (Advantages.labelOf types (mv_value v)); [|discriminate].
    injection H as <- <-. eexists. split; [reflexivity|]. split; reflexivity.
Qed.

(** White, black and the two greys around brightness 125. *)
Lemma C9_style_contrast_witness :
  Style.buildStyleString (Some "#FFFFFF") = Eff.Ok "background-color: #FFFFFF;color: black;"
  /\ Style.buildStyleString (Some "#000000") = Eff.Ok "background-color: #000000;color: white;"
  /\ Style.buildStyleString (Some "#7d7d7d") = Eff.Ok "background-color: #7d7d7d;color: white;"
  /\ Style.buildStyleString (Some "#7e7e7e") = Eff.Ok "background-color: #7e7e7e;color: black;".
Proof.
  split; [|split; [|split]].
  - exact (proj1 (C9_style_contrast true 255 255 255 ltac:(lia) ltac:(lia) ltac:(lia))).
  - exact (proj1 (C9_style_contrast true 0 0 0 ltac:(lia) ltac:(lia) ltac:(lia))).
  - exact (proj1 (C9_style_contrast false 125 125 125 ltac:(lia) ltac:(lia) ltac:(lia))).
  - exact (proj1 (C9_style_contrast false 126 126 126 ltac:(lia) ltac:(lia) ltac:(lia))).
Defined.

(** ** Catalog collections *)

Lemma foldl_fetchOne pack ids : forall docs tr,
  foldl (Catalog.fetchOne pack) (docs, tr) ids
  = (docs ++ omap (pack_getDocument pack) ids, tr ++ ids).
Proof.
  induction ids as [|id ids IH]; intros docs tr; simpl.
  - by rewrite !app_nil_r.
  - destruct (pack_getDocument pack id) as [d|]; rewrite IH.
    + rewrite <- !app_assoc. reflexivity.
    + rewrite <- app_assoc. reflexivity.
Qed.

Lemma gather_spec game type subtype :
  Catalog.gather game type subtype
  = (localDocs game type subtype ++ concat (map (packDocs type subtype) (packs game)),
     concat (map (packIds type subtype) (packs game))).
Proof.
  unfold Catalog.gather. fold (localDocs game type subtype).
  generalize (localDocs game type subtype) at 1 2.
  assert (H : forall ps docs tr,
             foldl (Catalog.scanPack type subtype) (docs, tr) ps
             = (docs ++ concat (map (packDocs type subtype) ps),
                tr ++ concat (map (packIds type subtype) ps))).
  { induction ps as [|p ps IH]; intros docs tr; simpl.
    - by rewrite !app_nil_r.
    - unfold Catalog.scanPack at 2, packDocs at 1, packIds at 1 2.
      destruct (String.eqb (pack_type p) type); simpl.
      + rewrite foldl_fetchOne, IH, <- !app_assoc. reflexivity.
      + rewrite IH. reflexivity. }
  intros l. rewrite H. reflexivity.
Qed.

Lemma get_None_keys {V} (c : list (string * V)) k :
  Js.get c k = None <-> ~ In k (Js.keys c).
Proof.
  induction c as [|[k' v] c IH]; simpl; [tauto|].
  destruct (String.eqb k' k) eqn:E.
  - apply String.eqb_eq in E. split; [discriminate|]. intros H. exfalso. auto.
  - apply String.eqb_neq in E. rewrite IH. tauto.
Qed.

(** [Map.prototype.set] appends a new key or replaces in place. *)
Lemma map_set_cases {V} (c : list (string * V)) k v :
  (~ In k (Js.keys c) /\ Coll.map_set c k v = c ++ [(k, v)])
  \/ (exists c1 w c2, c = c1 ++ (k, w) :: c2
                      /\ Coll.map_set c k v = c1 ++ (k, v) :: c2).
Proof.
  induction c as [|[k' w] c IH]; simpl.
  - left. split; [tauto|reflexivity].
  - destruct (String.eqb k' k) eqn:E.
    + apply String.eqb_eq in E. subst k'. right. exists [], w, c. split; reflexivity.
    + apply String.eqb_neq in E. destruct IH as [[Hn ->]|(c1 & w' & c2 & -> & ->)].
      * left. split; [|reflexivity]. intros [?|?]; auto.
      * right. exists ((k', w) :: c1), w', c2. split; reflexivity.
Qed.

(** A Map filled from documents with distinct identities holds no
    document twice. *)
Lemma toCollection_NoDup_oid ds : forall c : Collection,
  NoDup (map d_oid (Coll.values c ++ ds)) ->
  NoDup (map d_oid (Coll.values (foldl (fun c d => Coll.map_set c (d_id d) d) c ds))).
Proof.
  induction ds as [|d ds IH]; intros c H; simpl.
  - by rewrite app_nil_r in H.
  - apply IH. destruct (map_set_cases c (d_id d) d) as [[_ ->]|(c1 & w & c2 & -> & ->)].
    + assert (E : Coll.values (c ++ [(d_id d, d)]) ++ ds = Coll.values c ++ d :: ds)
        by (unfold Coll.values; rewrite map_app, <- app_assoc; reflexivity).
      rewrite E. exact H.
    + assert (E1 : Coll.values (c1 ++ (d_id d, w) :: c2) ++ d :: ds
                   = Coll.values c1 ++ w :: Coll.values c2 ++ d :: ds)
        by (unfold Coll.values; rewrite map_app, <- app_assoc; reflexivity).
      assert (E2 : Coll.values (c1 ++ (d_id d, d) :: c2) ++ ds
                   = Coll.values c1 ++ d :: Coll.values c2 ++ ds)
        by (unfold Coll.values; rewrite map_app, <- app_assoc; reflexivity).
      rewrite E1 in H. rewrite E2.
      assert (HP : Coll.values c1 ++ w :: Coll.values c2 ++ d :: ds
                   ≡ₚ w :: (Coll.values c1 ++ d :: Coll.values c2 ++ ds))
        by solve_Permutation.
      apply (Permutation_map d_oid) in HP. rewrite HP in H. simpl in H.
      apply NoDup_cons in H. tauto.
Qed.

(** A Map filled from documents with distinct ids lists them in the
    order they were set. *)
Lemma toCollection_distinct_ids ds : forall c : Collection,
  NoDup (Js.keys c ++ map d_id ds) ->
  foldl (fun c d => Coll.map_set c (d_id d) d) c ds = c ++ map (fun d => (d_id d, d)) ds.
Proof.
  induction ds as [|d ds IH]; intros c H; simpl.
  - by rewrite app_nil_r.
  - destruct (map_set_cases c (d_id d) d) as [[_ ->]|(c1 & w & c2 & -> & _)].
    + rewrite IH; [by rewrite <- app_assoc|].
      unfold Js.keys. rewrite map_app. simpl. by rewrite <- app_assoc.
    + exfalso. unfold Js.keys in H. rewrite map_app in H. simpl in H.
      rewrite <- app_assoc in H. simpl in H.
      apply NoDup_app in H. destruct H as (_ & _ & H).
      apply NoDup_cons in H. destruct H as [H _]. apply H.
      apply elem_of_app. right. apply elem_of_cons. by left.
Qed.

Lemma pairwiseDistinct_NoDup_oid l :
  pairwiseDistinct same_doc l -> NoDup (map d_oid l).
Proof.
  unfold pairwiseDistinct. induction 1 as [|x l Hx Hl IH]; simpl; constructor; [|exact IH].
  intros Hin. apply list_elem_of_In, in_map_iff in Hin. destruct Hin as (y & Heq & Hy).
  rewrite Forall_forall in Hx. specialize (Hx y (proj2 (list_elem_of_In _ _) Hy)).
  unfold same_doc in Hx. rewrite Heq, Nat.eqb_refl in Hx. discriminate.
Qed.

Lemma sortedDocs_NoDup_oid cmp docs : NoDup (map d_oid (Catalog.sortedDocs cmp docs)).
Proof.
  unfold Catalog.sortedDocs.
  rewrite (Permutation_map d_oid (sort_Permutation _ _)).
  apply pairwiseDistinct_NoDup_oid, set_of_distinct.
Qed.

Lemma sortedDocs_In cmp docs d :
  In d (Catalog.sortedDocs cmp docs) -> In d docs.
Proof.
  unfold Catalog.sortedDocs. intros H. apply list_elem_of_In in H.
  rewrite sort_Permutation in H. apply list_elem_of_In.
  eapply elem_of_sublist; [exact H|apply set_of_sublist].
Qed.

Lemma sortedDocs_covers cmp docs d :
  In d docs -> exists d', In d' (Catalog.sortedDocs cmp docs) /\ d_oid d' = d_oid d.
Proof.
  intros H. destruct (set_of_covers same_doc docs d) as (y & Hy & Hs); [|exact H|].
  - intros a. apply Nat.eqb_refl.
  - exists y. split.
    + unfold Catalog.sortedDocs. apply list_elem_of_In. rewrite sort_Permutation.
      by apply list_elem_of_In.
    + unfold same_doc in Hs. apply Nat.eqb_eq in Hs. congruence.
Qed.

Lemma NoDup_map_transfer {A B C} (f : A -> B) (g : A -> C) l :
  NoDup (map f l) ->
  (forall x y, In x l -> In y l -> g x = g y -> f x = f y) ->
  NoDup (map g l).
Proof.
  induction l as [|x l IH]; simpl; intros Hnd Hfg; [constructor|].
  apply NoDup_cons in Hnd. destruct Hnd as [Hx Hnd]. constructor.
  - intros Hin. apply list_elem_of_In, in_map_iff in Hin. destruct Hin as (y & Heq & Hy).
    apply Hx. apply list_elem_of_In, in_map_iff. exists y. split; [|exact Hy].
    symmetry. apply Hfg; auto.
  - apply IH; [exact Hnd|]. intros a b Ha Hb. apply Hfg; auto.
Qed.

Lemma toCollection_In ds : forall (c : Collection) d,
  In d (Coll.values (foldl (fun c d => Coll.map_set c (d_id d) d) c ds)) ->
  In d (Coll.values c) \/ In d ds.
Proof.
  induction ds as [|x ds IH]; intros c d H; simpl in H; [by left|].
  destruct (IH _ _ H) as [Hc|Hd]; [|right; by right].
  destruct (map_set_cases c (d_id x) x) as [[_ E]|(c1 & w & c2 & -> & E)];
    rewrite E in Hc; unfold Coll.values in *; rewrite map_app in *;
    apply in_app_or in Hc; simpl in *.
  - destruct Hc as [Hc|[<-|[]]]; [by left|right; by left].
  - destruct Hc as [Hc|[<-|Hc]]; [left|right; by left|left]; apply in_or_app; auto.
    right. by right.
Qed.

(** C8 (as stated, refuted): with the world lineages Alpha and Beta
    and a pack lineage Gamma that has the id of Alpha, the sorted array
    is Alpha, Beta, Gamma, but setting Gamma under the id of Alpha puts
    it in Alpha's place: the collection iterates Gamma, Beta, which is
    not ascending by name. *)
Lemma C8_shared_id_breaks_order :
  let coll := (Catalog.getForeignDocuments Examples.ordinalCompare
                 Examples.gameSharedId "Item" "lineage").1 in
  map d_name (Coll.values coll) = ["Gamma"; "Beta"]
  /\ ~ StronglySorted (ascending Examples.ordinalCompare d_name) (Coll.values coll).
Proof.
  split; [reflexivity|]. intros H. vm_compute in H.
  inversion H as [|? ? _ Hall]; subst. inversion Hall as [|? ? Hle _]; subst.
  unfold ascending in Hle. vm_compute in Hle. apply Hle. reflexivity.
Qed.

(** [Map.prototype.set] under the id of the document: keys stay
    distinct, every key stays the id of its value, and the keys only grow. *)
Lemma map_set_inv (c : Collection) (d : Document) :
  NoDup (Js.keys c) -> Forall (fun kv => kv.1 = d_id kv.2) c ->
  NoDup (Js.keys (Coll.map_set c (d_id d) d))
  /\ Forall (fun kv => kv.1 = d_id kv.2) (Coll.map_set c (d_id d) d)
  /\ In (d_id d) (Js.keys (Coll.map_set c (d_id d) d))
  /\ (forall k, In k (Js.keys c) -> In k (Js.keys (Coll.map_set c (d_id d) d))).
Proof.
  intros Hnd Hk.
  destruct (map_set_cases c (d_id d) d) as [[Hn ->]|(c1 & w & c2 & -> & ->)].
  - unfold Js.keys. rewrite map_app. simpl. repeat split.
    + apply NoDup_app. split; [exact Hnd|]. split.
      * intros x Hx Hx'. apply list_elem_of_singleton in Hx'. subst x.
        apply Hn. by apply list_elem_of_In.
      * apply NoDup_singleton.
    + apply Forall_app. split; [exact Hk|]. constructor; [reflexivity|constructor].
    + apply in_or_app. right. by left.
    + intros k Hin. apply in_or_app. by left.
  - assert (E : Js.keys (c1 ++ (d_id d, d) :: c2) = Js.keys (c1 ++ (d_id d, w) :: c2))
      by (unfold Js.keys; rewrite !map_app; reflexivity).
    rewrite E. repeat split.
    + exact Hnd.
    + apply Forall_app in Hk. destruct Hk as [H1 H2].
      apply Forall_app. split; [exact H1|].
      inversion H2; subst. constructor; [reflexivity|assumption].
    + unfold Js.keys. rewrite map_app. apply in_or_app. right. by left.
    + auto.
Qed.

Lemma toCollection_inv ds : forall c : Collection,
  NoDup (Js.keys c) -> Forall (fun kv => kv.1 = d_id kv.2) c ->
  let r := foldl (fun c d => Coll.map_set c (d_id d) d) c ds in
  NoDup (Js.keys r)
  /\ Forall (fun kv => kv.1 = d_id kv.2) r
  /\ (forall d, In d ds -> In (d_id d) (Js.keys r))
  /\ (forall k, In k (Js.keys c) -> In k (Js.keys r)).
Proof.
  induction ds as [|x ds IH]; intros c Hnd Hk; simpl.
  - repeat split; auto. intros d [].
  - destruct (map_set_inv c x Hnd Hk) as (Hnd' & Hk' & Hx & Hsub).
    destruct (IH _ Hnd' Hk') as (H1 & H2 & H3 & H4).
    repeat split; auto.
    intros d [<-|Hd]; auto.
Qed.

Lemma keyed_ids (c : Collection) :
  Forall (fun kv => kv.1 = d_id kv.2) c -> map d_id (Coll.values c) = Js.keys c.
Proof.
  induction 1 as [|[k v] c Hkv _ IH]; simpl; [reflexivity|].
  simpl in Hkv. rewrite <- Hkv. f_equal. exact IH.
Qed.

Lemma StronglySorted_map {A B} (f : A -> B) (R : B -> B -> Prop) l :
  StronglySorted (fun x y => R (f x) (f y)) l <-> StronglySorted R (map f l).
Proof.
  induction l as [|x l IH]; simpl.
  - split; constructor.
  - split; intros H; inversion H as [|? ? Hs Hall]; subst; constructor.
    + by apply IH.
    + rewrite Forall_forall in Hall. apply Forall_forall. intros y Hy.
      apply list_elem_of_In, in_map_iff in Hy. destruct Hy as (z & <- & Hz).
      apply Hall. by apply list_elem_of_In.
    + by apply IH.
    + rewrite Forall_forall in Hall. apply Forall_forall. intros y Hy.
      apply Hall. apply list_elem_of_In, in_map. by apply list_elem_of_In.
Qed.

(** When documents that share an id share their name, the names a Map
    filled from a list iterates are the names of the Map before,
    followed by names of the list in their order. *)
Lemma toCollection_names ds : forall c : Collection,
  Forall (fun kv => kv.1 = d_id kv.2) c ->
  (forall d1 d2, In d1 (Coll.values c ++ ds) -> In d2 (Coll.values c ++ ds) ->
                 d_id d1 = d_id d2 -> d_name d1 = d_name d2) ->
  exists l', sublist l' ds
             /\ map d_name (Coll.values (foldl (fun c d => Coll.map_set c (d_id d) d) c ds))
                = map d_name (Coll.values c) ++ map d_name l'.
Proof.
  induction ds as [|x ds IH]; intros c Hk Hnm; simpl.
  - exists []. split; [constructor|by rewrite app_nil_r].
  - destruct (map_set_cases c (d_id x) x) as [[Hn E]|(c1 & w & c2 & Ec & E)]; rewrite E.
    + destruct (IH (c ++ [(d_id x, x)])) as (l' & Hsub & Hl).
      * apply Forall_app. split; [exact Hk|]. constructor; [reflexivity|constructor].
      * intros d1 d2 H1 H2. apply Hnm.
        -- unfold Coll.values in *. rewrite map_app, <- app_assoc in H1. exact H1.
        -- unfold Coll.values in *. rewrite map_app, <- app_assoc in H2. exact H2.
      * exists (x :: l'). split; [by constructor|].
        rewrite Hl. unfold Coll.values. rewrite !map_app, <- app_assoc. reflexivity.
    + subst c.
      assert (Hw : d_name w = d_name x).
      { apply Hnm.
        - apply in_or_app. left. unfold Coll.values. rewrite map_app.
          apply in_or_app. right. by left.
        - apply in_or_app. right. by left.
        - apply Forall_app in Hk. destruct Hk as [_ Hk]. inversion Hk; subst. simpl in *.
          congruence. }
      destruct (IH (c1 ++ (d_id x, x) :: c2)) as (l' & Hsub & Hl).
      * apply Forall_app in Hk. destruct Hk as [H1 H2].
        apply Forall_app. split; [exact H1|].
        inversion H2; subst. constructor; [reflexivity|assumption].
      * assert (Hin : forall d, In d (Coll.values (c1 ++ (d_id x, x) :: c2) ++ ds) ->
                                In d (Coll.values (c1 ++ (d_id x, w) :: c2) ++ x :: ds)).
        { intros d Hd. unfold Coll.values in *.
          apply in_app_or in Hd. destruct Hd as [Hd|Hd].
          - rewrite map_app in Hd. apply in_app_or in Hd.
            destruct Hd as [Hd|[<-|Hd]].
            + apply in_or_app. left. rewrite map_app. apply in_or_app. by left.
            + apply in_or_app. right. by left.
            + apply in_or_app. left. rewrite map_app. apply in_or_app. right. by right.
          - apply in_or_app. right. by right. }
        intros d1 d2 H1 H2. apply Hnm; by apply Hin.
      * exists l'. split; [by apply sublist_cons|].
        rewrite Hl. unfold Coll.values. rewrite !map_app. simpl. by rewrite Hw.
Qed.

(** C8 (amended): the collection cached for a subtype, built from the
    local documents of the subtype and the documents the matching
    packs answer, holds only such documents and is deduplicated by
    identity and by id: it holds no document object twice and no two
    documents with one id, so a document gathered both from the local
    collection and from a pack is held once, whether the pack answers
    the very object or a copy with its id.  The id of every gathered
    document is represented (documents being objects: two gathered
    documents with one identity are one document).  Under a consistent
    [localeCompare] the
    collection iterates in ascending order of name whenever gathered
    documents that share an id share their name; and when no two
    distinct gathered documents share an id it holds every gathered
    document. *)
Theorem C8_catalog_collection cmp game type subtype :
  consistent cmp ->
  let docs := localDocs game type subtype
              ++ concat (map (packDocs type subtype) (packs game)) in
  let coll := (Catalog.getForeignDocuments cmp game type subtype).1 in
  NoDup (map d_id (Coll.values coll))
  /\ NoDup (map d_oid (Coll.values coll))
  /\ (forall d, In d (Coll.values coll) -> In d docs)
  /\ ((forall d1 d2, In d1 docs -> In d2 docs -> d_oid d1 = d_oid d2 -> d1 = d2) ->
      forall d, In d docs -> exists d', In d' (Coll.values coll) /\ d_id d' = d_id d)
  /\ ((forall d1 d2, In d1 docs -> In d2 docs -> d_id d1 = d_id d2 -> d_name d1 = d_name d2) ->
      StronglySorted (ascending cmp d_name) (Coll.values coll))
  /\ ((forall d1 d2, In d1 docs -> In d2 docs -> d_id d1 = d_id d2 -> d_oid d1 = d_oid d2) ->
      StronglySorted (ascending cmp d_name) (Coll.values coll)
      /\ forall d, In d docs -> exists d', In d' (Coll.values coll) /\ d_oid d' = d_oid d).
Proof.
  intros [Htot Htr] docs coll. subst coll. unfold Catalog.getForeignDocuments.
  rewrite gather_spec. fold docs. simpl. unfold Catalog.toCollection.
  destruct (toCollection_inv (Catalog.sortedDocs cmp docs) [])
    as (Hkeys & Hkeyed & Hcov & _); [constructor|constructor|].
  assert (Hsorted : StronglySorted (ascending cmp d_name) (Catalog.sortedDocs cmp docs)).
  { unfold Catalog.sortedDocs.
    apply (sort_sorted (fun a b => cmp (d_name a) (d_name b))).
    - intros a b. apply Htot.
    - intros a b c. apply Htr. }
  split; [|split; [|split; [|split; [|split]]]].
  - rewrite keyed_ids by exact Hkeyed. exact Hkeys.
  - apply toCollection_NoDup_oid. simpl. apply sortedDocs_NoDup_oid.
  - intros d H. apply toCollection_In in H. destruct H as [[]|H].
    eapply sortedDocs_In; eauto.
  - intros Hwf d Hd.
    destruct (sortedDocs_covers cmp docs d Hd) as (d1 & Hd1 & Hoid).
    assert (d1 = d) as -> by (apply Hwf; [eapply sortedDocs_In; eauto|exact Hd|exact Hoid]).
    specialize (Hcov d Hd1). rewrite <- keyed_ids in Hcov by exact Hkeyed.
    apply in_map_iff in Hcov. destruct Hcov as (d' & Hid & Hd'). eauto.
  - intros Hnm.
    destruct (toCollection_names (Catalog.sortedDocs cmp docs) []) as (l' & Hsub & Hl).
    + constructor.
    + simpl. intros d1 d2 H1 H2. apply Hnm; eapply sortedDocs_In; eauto.
    + simpl in Hl. unfold ascending.
      apply (StronglySorted_map d_name (fun a b => cmp a b <= 0)). rewrite Hl.
      apply StronglySorted_map. eapply StronglySorted_sublist; [exact Hsub|exact Hsorted].
  - intros Hid.
    assert (Hnd : NoDup (map d_id (Catalog.sortedDocs cmp docs))).
    { apply (NoDup_map_transfer d_oid d_id); [apply sortedDocs_NoDup_oid|].
      intros x y Hx Hy. apply Hid; eapply sortedDocs_In; eauto. }
    rewrite toCollection_distinct_ids by exact Hnd. simpl.
    unfold Coll.values. rewrite map_map. simpl. rewrite map_id.
    split; [exact Hsorted|intros d Hd; by apply sortedDocs_covers].
Qed.

(** A pack that answers a copy of the world's Beta, another object
    with its id and name: the collection holds Alpha, one Beta and
    Gamma, in this order. *)
Lemma C8_catalog_collection_witness :
  let coll := (Catalog.getForeignDocuments Examples.ordinalCompare
                 Examples.gameCopy "Item" "lineage").1 in
  NoDup (map d_id (Coll.values coll))
  /\ StronglySorted (ascending Examples.ordinalCompare d_name) (Coll.values coll)
  /\ exists d', In d' (Coll.values coll) /\ d_id d' = "x2".
Proof.
  destruct (C8_catalog_collection Examples.ordinalCompare Examples.gameCopy
              "Item" "lineage" ordinalCompare_consistent)
    as (Hid & _ & _ & Hcov & Hsorted & _).
  split; [exact Hid|]. split.
  - apply Hsorted.
    intros d1 d2 H1 H2. simpl in H1, H2.
    repeat (destruct H1 as [<-|H1]); try contradiction;
      repeat (destruct H2 as [<-|H2]); try contradiction;
      simpl; intros E; try reflexivity; discriminate E.
  - apply (Hcov ltac:(
        intros d1 d2 H1 H2; simpl in H1, H2;
        repeat (destruct H1 as [<-|H1]); try contradiction;
        repeat (destruct H2 as [<-|H2]); try contradiction;
        simpl; intros E; try reflexivity; discriminate E)
      (Examples.doc 4 "x2" "Beta")).
    simpl. auto.
Defined.

(** A pass over filled caches. *)
Lemma C7_warm_cache_no_fetch_witness :
  let e' := (Catalog.prepareForeignDocumentData Examples.ordinalCompare
               Examples.gameOverlap Examples.warm Examples.refs Examples.stale).1 in
  fetched e' = ["x3"] /\ cfg e' = cfg Examples.warm.
Proof.
  apply (C7_warm_cache_no_fetch Examples.ordinalCompare Examples.gameOverlap
           Examples.warm Examples.refs Examples.stale); discriminate.
Defined.

(** A background with one identified trait, and a stale stored choice. *)
Lemma C3_reconciliation_witness :
  let s' := (Catalog.prepareForeignDocumentData Examples.ordinalCompare
               Examples.gameOverlap Examples.warm Examples.refs Examples.stale).2 in
  (In (Some "t1") (map tc_id (traitChoices s')) <-> In (Some "t1") (map t_id (traits s')))
  /\ (forall tc, In tc (traitChoices s') -> Js.truthy (tc_id tc) = true)
  /\ ~ In (Some "old") (map tc_id (traitChoices s')).
Proof.
  destruct (C3_reconciliation Examples.ordinalCompare Examples.gameOverlap
              Examples.warm Examples.refs Examples.stale) as (Hids & Hinv & _ & Hold).
  split; [apply Hids; reflexivity|]. split.
  - apply Hinv. intros tc [<-|[]]. reflexivity.
  - apply (proj2 (Hold Examples.staleChoice (or_introl eq_refl))).
    simpl. intros [H|[H|[]]]; discriminate H.
Defined.

(* ===================================================================== *)
(** * Further properties of the pipeline *)
(* ===================================================================== *)

(** ** Ability modifiers *)

(** X1: scores come in pairs: [10 + 2k] and [11 + 2k] both have
    modifier [k], for every integer [k] from [-2^52] to [2^52 - 6]
    (so below 10 the modifier rounds down: 9 gives -1, 1 gives -5),
    and among integer scores from [-2^53 + 10] to [2^53] a higher
    score never has a lower modifier.  This is the
    table in the comment of [prepareAbilityScoreMods].  Further out the
    subtraction rounds and the pairs break: the score [2^60], which is
    [10 + 2k] for [k = 2^59 - 5], has modifier [2^59]. *)
Theorem X1_modifier_pairs (k v w : Z) :
  (- 2 ^ 52 <= k <= 2 ^ 52 - 6 ->
   Abilities.modifier (10 + 2 * k) = k /\ Abilities.modifier (11 + 2 * k) = k)
  /\ (exactScore v -> exactScore w -> v <= w ->
      Abilities.modifier v <= Abilities.modifier w)
  /\ Abilities.modifier (10 + 2 * (2 ^ 59 - 5)) = 2 ^ 59.
Proof.
  split; [|split].
  - intros Hk. split.
    + rewrite modifier_exact by (unfold exactScore; lia).
      replace (10 + 2 * k - 10) with (k * 2) by lia. apply Z.div_mul. lia.
    + rewrite modifier_exact by (unfold exactScore; lia).
      replace (11 + 2 * k - 10) with (1 + k * 2) by lia.
      rewrite Z.div_add by lia. reflexivity.
  - intros Hv Hw H. rewrite !modifier_exact by assumption.
    apply Z.div_le_mono; lia.
  - vm_compute. reflexivity.
Qed.

(** Scores 7 and 16 of the table. *)
Lemma X1_modifier_pairs_witness :
  Abilities.modifier 7 <= Abilities.modifier 16 /\ Abilities.modifier 9 = -1.
Proof.
  split.
  - apply (proj1 (proj2 (X1_modifier_pairs 0 7 16))); unfold exactScore; simpl; lia.
  - apply (proj2 (proj1 (X1_modifier_pairs (-1) 0 0) ltac:(lia))).
Defined.

(** ** Combat membership *)


(** ** Catalog loading *)

Lemma getForeignDocuments_spec cmp game type subtype :
  Catalog.getForeignDocuments cmp game type subtype
  = (Catalog.toCollection (Catalog.sortedDocs cmp (gathered game type subtype)),
     concat (map (packIds type subtype) (packs game))).
Proof. unfold Catalog.getForeignDocuments. rewrite gather_spec. reflexivity. Qed.

Lemma loadForeignDocuments_spec cmp game e :
  let e' := Catalog.loadForeignDocuments cmp game e in
  fetched e' = fetched e ++ loadTrace game
  /\ LINEAGE_DOCUMENTS (cfg e') = (Catalog.getForeignDocuments cmp game "Item" "lineage").1
  /\ HERITAGE_DOCUMENTS (cfg e') = (Catalog.getForeignDocuments cmp game "Item" "heritage").1
  /\ BACKGROUND_DOCUMENTS (cfg e')
     = (Catalog.getForeignDocuments cmp game "Item" "background").1
  /\ TALENT_DOCUMENTS (cfg e') = (Catalog.getForeignDocuments cmp game "Item" "talent").1
  /\ CLASS_DOCUMENTS (cfg e') = (Catalog.getForeignDocuments cmp game "Item" "class").1
  /\ PROFICIENCY_TYPES (cfg e') = PROFICIENCY_TYPES (cfg e)
  /\ DAMAGE_TYPES (cfg e') = DAMAGE_TYPES (cfg e)
  /\ LANGUAGE_TYPES (cfg e') = LANGUAGE_TYPES (cfg e)
  /\ SAVE_TYPES (cfg e') = SAVE_TYPES (cfg e)
  /\ other_members (cfg e') = other_members (cfg e).
Proof.
  unfold Catalog.loadForeignDocuments, loadTrace. rewrite !getForeignDocuments_spec.
  simpl. rewrite app_nil_r. repeat split; reflexivity.
Qed.

(** X3: the load guard reads the background cache only.  A pass that
    finds it non-empty changes nothing of the process-wide state, even
    when the lineage, heritage or class cache is empty; a reference
    into such an empty cache then resolves to no document. *)
Theorem X3_guard_reads_background_only {Abl Adv} cmp game (e : Env) src
    (s : System Abl Adv) :
  BACKGROUND_DOCUMENTS (cfg e) <> [] ->
  let r := Catalog.prepareForeignDocumentData cmp game e src s in
  r.1 = e
  /\ (LINEAGE_DOCUMENTS (cfg e) = [] -> lineage r.2 = None)
  /\ (HERITAGE_DOCUMENTS (cfg e) = [] -> heritage r.2 = None)
  /\ (CLASS_DOCUMENTS (cfg e) = [] -> class r.2 = None).
Proof.
  intros Hb. simpl. rewrite ensureLoaded_warm by exact Hb.
  split; [reflexivity|].
  repeat split; intros ->; destruct src as [? [?|] [?|] [?|]]; reflexivity.
Qed.

(** Only the background cache is filled, and the character refers to
    a lineage. *)
Lemma X3_guard_reads_background_only_witness :
  let r := Catalog.prepareForeignDocumentData Examples.ordinalCompare Examples.gameOverlap
             MoreExamples.backgroundOnly Examples.refs Examples.stale in
  r.1 = MoreExamples.backgroundOnly /\ lineage r.2 = None.
Proof.
  destruct (X3_guard_reads_background_only Examples.ordinalCompare Examples.gameOverlap
              MoreExamples.backgroundOnly Examples.refs Examples.stale)
    as (He & Hl & _).
  - discriminate.
  - split; [exact He|]. apply Hl. reflexivity.
Defined.

Lemma Config_ext (a b : Config) :
  LINEAGE_DOCUMENTS a = LINEAGE_DOCUMENTS b ->
  HERITAGE_DOCUMENTS a = HERITAGE_DOCUMENTS b ->
  BACKGROUND_DOCUMENTS a = BACKGROUND_DOCUMENTS b ->
  TALENT_DOCUMENTS a = TALENT_DOCUMENTS b ->
  CLASS_DOCUMENTS a = CLASS_DOCUMENTS b ->
  PROFICIENCY_TYPES a = PROFICIENCY_TYPES b ->
  DAMAGE_TYPES a = DAMAGE_TYPES b ->
  LANGUAGE_TYPES a = LANGUAGE_TYPES b ->
  SAVE_TYPES a = SAVE_TYPES b ->
  other_members a = other_members b ->
  a = b.
Proof. destruct a, b. simpl. intros. subst. reflexivity. Qed.

Lemma toCollection_nil cmp : Catalog.toCollection (Catalog.sortedDocs cmp []) = [].
Proof. reflexivity. Qed.

(** X4: in a world without any background document the background
    cache stays empty after a load, so the guard never sees a warm
    cache: every pass loads all five catalogs again and requests every
    pack document of the five subtypes again. *)
Theorem X4_no_background_reloads_every_pass {Abl Adv} cmp game (e : Env) src
    (s : System Abl Adv) :
  BACKGROUND_DOCUMENTS (cfg e) = [] ->
  gathered game "Item" "background" = [] ->
  let e1 := (Catalog.prepareForeignDocumentData cmp game e src s).1 in
  let e2 := (Catalog.prepareForeignDocumentData cmp game e1 src s).1 in
  fetched e1 = fetched e ++ loadTrace game
  /\ BACKGROUND_DOCUMENTS (cfg e1) = []
  /\ fetched e2 = fetched e ++ loadTrace game ++ loadTrace game
  /\ cfg e2 = cfg e1.
Proof.
  intros Hb Hg. simpl. rewrite (ensureLoaded_cold cmp game e Hb).
  destruct (loadForeignDocuments_spec cmp game e)
    as (Hf & Hl & Hh & Hbg & Ht & Hc & Hp & Hd & Hla & Hs & Ho).
  assert (Hcold : BACKGROUND_DOCUMENTS (cfg (Catalog.loadForeignDocuments cmp game e)) = []).
  { rewrite Hbg, getForeignDocuments_spec, Hg. reflexivity. }
  rewrite (ensureLoaded_cold cmp game _ Hcold).
  destruct (loadForeignDocuments_spec cmp game (Catalog.loadForeignDocuments cmp game e))
    as (Hf' & Hl' & Hh' & Hbg' & Ht' & Hc' & Hp' & Hd' & Hla' & Hs' & Ho').
  split; [exact Hf|]. split; [exact Hcold|]. split.
  - rewrite Hf', Hf, <- app_assoc. reflexivity.
  - apply Config_ext; congruence.
Qed.

(** A cold configuration in a world that has lineages only. *)
Lemma X4_no_background_reloads_every_pass_witness :
  let e1 := (Catalog.prepareForeignDocumentData Examples.ordinalCompare
               MoreExamples.gameNoBackground MoreExamples.cold Examples.refs Examples.stale).1 in
  let e2 := (Catalog.prepareForeignDocumentData Examples.ordinalCompare
               MoreExamples.gameNoBackground e1 Examples.refs Examples.stale).1 in
  fetched e1 = ["x3"] /\ fetched e2 = ["x3"; "x3"].
Proof.
  destruct (X4_no_background_reloads_every_pass Examples.ordinalCompare
              MoreExamples.gameNoBackground MoreExamples.cold Examples.refs Examples.stale
              eq_refl eq_refl) as (H1 & _ & H2 & _).
  split; [exact H1|exact H2].
Defined.

Lemma load_twice cmp game (e : Env) :
  cfg (Catalog.loadForeignDocuments cmp game (Catalog.loadForeignDocuments cmp game e))
  = cfg (Catalog.loadForeignDocuments cmp game e)
  /\ fetched (Catalog.loadForeignDocuments cmp game (Catalog.loadForeignDocuments cmp game e))
     = fetched e ++ loadTrace game ++ loadTrace game.
Proof.
  destruct (loadForeignDocuments_spec cmp game e)
    as (Hf & Hl & Hh & Hbg & Ht & Hc & Hp & Hd & Hla & Hs & Ho).
  destruct (loadForeignDocuments_spec cmp game (Catalog.loadForeignDocuments cmp game e))
    as (Hf' & Hl' & Hh' & Hbg' & Ht' & Hc' & Hp' & Hd' & Hla' & Hs' & Ho').
  split.
  - apply Config_ext; congruence.
  - rewrite Hf', Hf, <- app_assoc. reflexivity.
Qed.


(** ** Catalog lookups *)

Lemma get_map_set {V} (c : list (string * V)) k v k' :
  Js.get (Coll.map_set c k v) k' = if String.eqb k k' then Some v else Js.get c k'.
Proof.
  induction c as [|[k0 v0] c IH]; simpl.
  - reflexivity.
  - destruct (String.eqb k0 k) eqn:E0; simpl.
    + apply String.eqb_eq in E0. subst k0. destruct (String.eqb k k'); reflexivity.
    + rewrite IH. destruct (String.eqb k0 k') eqn:E1; [|reflexivity].
      apply String.eqb_eq in E1. subst k0. apply String.eqb_neq in E0.
      destruct (String.eqb k k') eqn:E2; [|reflexivity].
      apply String.eqb_eq in E2. congruence.
Qed.

Lemma find_app {A} (p : A -> bool) l1 l2 :
  Js.find p (l1 ++ l2)
  = match Js.find p l1 with Some x => Some x | None => Js.find p l2 end.
Proof.
  induction l1 as [|x l1 IH]; simpl; [reflexivity|].
  destruct (p x); [reflexivity|exact IH].
Qed.

(** Looking an id up in a Map filled from a list finds the last
    document of the list with that id. *)
Lemma toCollection_get ds id : forall c : Collection,
  Js.get (foldl (fun c d => Coll.map_set c (d_id d) d) c ds) id
  = match Js.find (fun d => String.eqb (d_id d) id) (rev ds) with
    | Some d => Some d
    | None => Js.get c id
    end.
Proof.
  induction ds as [|d ds IH]; intros c; simpl; [reflexivity|].
  rewrite IH, find_app. destruct (Js.find _ (rev ds)); [reflexivity|].
  simpl. rewrite get_map_set. destruct (String.eqb (d_id d) id); reflexivity.
Qed.

Lemma find_rev_last {A} (p : A -> bool) l x :
  Js.find p (rev l) = Some x ->
  exists l1 l2, l = l1 ++ x :: l2 /\ p x = true /\ forall y, In y l2 -> p y = false.
Proof.
  induction l as [|a l IH]; simpl; [discriminate|].
  rewrite find_app. destruct (Js.find p (rev l)) as [y|] eqn:E.
  - intros [= ->]. destruct (IH eq_refl) as (l1 & l2 & -> & Hp & Hl2).
    exists (a :: l1), l2. auto.
  - simpl. destruct (p a) eqn:Ea; [|discriminate]. intros [= ->].
    exists [], l. repeat split; auto.
    intros y Hy. rewrite find_none in E. apply E. by apply in_rev in Hy.
Qed.

Lemma StronglySorted_before {A} (R : A -> A -> Prop) l1 x l2 y :
  StronglySorted R (l1 ++ x :: l2) -> In y l1 -> R y x.
Proof.
  induction l1 as [|a l1 IH]; intros Hs Hin; [destruct Hin|].
  simpl in Hs. inversion Hs as [|? ? Hs' Hall]; subst. destruct Hin as [->|Hin].
  - rewrite Forall_forall in Hall. apply Hall. apply list_elem_of_In.
    apply in_or_app. right. by left.
  - by apply IH.
Qed.

Lemma sortedDocs_In_iff cmp docs d :
  (forall d1 d2, In d1 docs -> In d2 docs -> d_oid d1 = d_oid d2 -> d1 = d2) ->
  In d (Catalog.sortedDocs cmp docs) <-> In d docs.
Proof.
  intros Hwf. split; [apply sortedDocs_In|].
  intros Hd. destruct (sortedDocs_covers cmp docs d Hd) as (d' & Hd' & Hoid).
  rewrite <- (Hwf d' d); auto. eapply sortedDocs_In; eauto.
Qed.

(** X5: looking an id up in a cached catalog answers a gathered
    document with that id, and answers nothing exactly when no
    gathered document has the id; when several gathered documents
    share the id, the answer is the one whose name sorts last.  An
    [undefined] reference finds nothing.  (Documents are objects: two
    gathered documents with one identity are one document.) *)
Theorem X5_catalog_lookup cmp game type subtype id :
  consistent cmp ->
  (forall d1 d2, In d1 (gathered game type subtype) -> In d2 (gathered game type subtype) ->
                 d_oid d1 = d_oid d2 -> d1 = d2) ->
  let coll := (Catalog.getForeignDocuments cmp game type subtype).1 in
  (forall d, Coll.map_get coll (Some id) = Some d ->
             d_id d = id /\ In d (gathered game type subtype)
             /\ forall d', In d' (gathered game type subtype) -> d_id d' = id ->
                           cmp (d_name d') (d_name d) <= 0)
  /\ (Coll.map_get coll (Some id) = None
      <-> forall d, In d (gathered game type subtype) -> d_id d <> id)
  /\ Coll.map_get coll None = None.
Proof.
  intros [Htot Htr] Hwf coll. subst coll. rewrite getForeignDocuments_spec. simpl.
  unfold Catalog.toCollection. rewrite toCollection_get. simpl.
  set (docs := gathered game type subtype) in *.
  set (sorted := Catalog.sortedDocs cmp docs).
  assert (Hsorted : StronglySorted (fun a b => cmp (d_name a) (d_name b) <= 0) sorted).
  { apply (sort_sorted (fun a b => cmp (d_name a) (d_name b))).
    - intros a b. apply Htot.
    - intros a b c. apply Htr. }
  split; [|split; [|reflexivity]].
  - intros d H. destruct (Js.find _ (rev sorted)) as [x|] eqn:E; [|discriminate].
    injection H as ->. apply find_rev_last in E.
    destruct E as (l1 & l2 & Hl & Hp & Hl2). apply String.eqb_eq in Hp.
    assert (Hin : In d sorted) by (rewrite Hl; apply in_or_app; right; by left).
    split; [exact Hp|]. split; [by apply (sortedDocs_In cmp)|].
    intros d' Hd' Hid. apply (sortedDocs_In_iff cmp docs d' Hwf) in Hd'.
    fold sorted in Hd'. rewrite Hl in Hd', Hsorted.
    apply in_app_or in Hd'. destruct Hd' as [H1|[<-|H2]].
    + exact (StronglySorted_before _ _ _ _ _ Hsorted H1).
    + destruct (Htot (d_name d) (d_name d)); assumption.
    + specialize (Hl2 d' H2). apply String.eqb_neq in Hl2. contradiction.
  - destruct (Js.find _ (rev sorted)) as [x|] eqn:E.
    + split; [discriminate|]. intros H. exfalso.
      apply find_some in E. destruct E as [Hin Hp]. apply String.eqb_eq in Hp.
      apply in_rev in Hin. apply (H x); [by apply (sortedDocs_In cmp)|exact Hp].
    + split; [|reflexivity]. intros _ d Hd Hid.
      rewrite find_none in E. apply (sortedDocs_In_iff cmp docs d Hwf) in Hd.
      fold sorted in Hd. apply in_rev in Hd. specialize (E d Hd).
      apply String.eqb_neq in E. contradiction.
Qed.

(** The world whose pack lineage Gamma has the id of the local Alpha:
    the id resolves to Gamma. *)
Lemma X5_catalog_lookup_witness :
  let coll := (Catalog.getForeignDocuments Examples.ordinalCompare
                 Examples.gameSharedId "Item" "lineage").1 in
  (forall d, Coll.map_get coll (Some "x1") = Some d ->
             d_id d = "x1"
             /\ Examples.ordinalCompare (d_name (Examples.doc 1 "x1" "Alpha")) (d_name d) <= 0)
  /\ Coll.map_get coll (Some "x9") = None.
Proof.
  assert (Hwf : forall d1 d2,
             In d1 (gathered Examples.gameSharedId "Item" "lineage") ->
             In d2 (gathered Examples.gameSharedId "Item" "lineage") ->
             d_oid d1 = d_oid d2 -> d1 = d2).
  { intros d1 d2 H1 H2. vm_compute in H1, H2.
    repeat (destruct H1 as [<-|H1]); try contradiction;
      repeat (destruct H2 as [<-|H2]); try contradiction;
      simpl; intros E; try reflexivity; discriminate E. }
  destruct (X5_catalog_lookup Examples.ordinalCompare Examples.gameSharedId
              "Item" "lineage" "x1" ordinalCompare_consistent Hwf) as (Hfound & _ & _).
  destruct (X5_catalog_lookup Examples.ordinalCompare Examples.gameSharedId
              "Item" "lineage" "x9" ordinalCompare_consistent Hwf) as (_ & Hnone & _).
  split.
  - intros d Hd. destruct (Hfound d Hd) as (Hid & _ & Hlast). split; [exact Hid|].
    apply Hlast; [left; reflexivity|reflexivity].
  - apply Hnone. intros d Hd. vm_compute in Hd.
    repeat (destruct Hd as [<-|Hd]); try contradiction; discriminate.
Defined.

(** ** Resolved documents and traits *)

Lemma traitsOf_In doc t :
  In t (Catalog.traitsOf doc) ->
  exists d tt, doc = Some d /\ In tt (d_traits d)
               /\ t_source t = d_name d /\ t_sourceId t = d_id d /\ t_color t = d_color d
               /\ t_id t = tt_id tt /\ t_name t = tt_name tt
               /\ t_innate t = tt_innate tt /\ t_builderInfo t = tt_builderInfo tt.
Proof.
  destruct doc as [d|]; simpl; [|intros []].
  intros H. apply in_map_iff in H. destruct H as (tt & <- & Hin).
  exists d, tt. repeat split; auto.
Qed.

(** X6: after [prepareForeignDocumentData] every current trait is the
    copy of a template of the resolved background, heritage or lineage
    document and carries that document's name, id and colour as
    [source], [sourceId] and [color]; the traits are as many as the
    templates of those three documents.  The resolved class document
    contributes no trait, and a reference that resolves to no document
    contributes none either. *)
Theorem X6_traits_come_from_three_documents {Abl Adv} cmp game (e : Env) src
    (s : System Abl Adv) :
  let s' := (Catalog.prepareForeignDocumentData cmp game e src s).2 in
  let templates (doc : option Document) :=
    match doc with Some d => d_traits d | None => [] end in
  (forall t, In t (traits s') ->
     exists d tt,
       (background s' = Some d \/ heritage s' = Some d \/ lineage s' = Some d)
       /\ In tt (d_traits d)
       /\ t_source t = d_name d /\ t_sourceId t = d_id d /\ t_color t = d_color d
       /\ t_id t = tt_id tt /\ t_name t = tt_name tt
       /\ t_innate t = tt_innate tt /\ t_builderInfo t = tt_builderInfo tt)
  /\ length (traits s')
     = (length (templates (background s')) + length (templates (heritage s'))
        + length (templates (lineage s')))%nat
  /\ backgroundId s' = src_background src /\ heritageId s' = src_heritage src
  /\ lineageId s' = src_lineage src /\ classId s' = src_class src.
Proof.
  simpl. split; [|split].
  - intros t Hin. apply in_app_or in Hin. destruct Hin as [Hin|Hin].
    { destruct (traitsOf_In _ _ Hin) as (d & tt & Hd & Hrest). exists d, tt. auto. }
    apply in_app_or in Hin. destruct Hin as [Hin|Hin].
    { destruct (traitsOf_In _ _ Hin) as (d & tt & Hd & Hrest). exists d, tt. auto. }
    destruct (traitsOf_In _ _ Hin) as (d & tt & Hd & Hrest). exists d, tt. auto.
  - rewrite !length_app. unfold Catalog.traitsOf.
    repeat match goal with |- context [Coll.map_get ?c ?k] =>
      destruct (Coll.map_get c k); simpl end; rewrite ?length_map; lia.
  - repeat split; reflexivity.
Qed.

(** ** Reconciliation over several passes *)

Lemma filter_all {A} (P : A -> Prop) `{!forall x, Decision (P x)} (l : list A) :
  (forall x, In x l -> P x) -> filter P l = l.
Proof.
  induction l as [|x l IH]; intros Hall; [reflexivity|].
  rewrite filter_cons_True by (apply Hall; by left).
  f_equal. apply IH. intros y Hy. apply Hall. by right.
Qed.

Lemma prune_fixed trs tcs :
  (forall tc, In tc tcs -> exists t, In t trs /\ t_id t = tc_id tc) ->
  Catalog.prune trs tcs = tcs.
Proof.
  intros H. unfold Catalog.prune. apply filter_all. intros tc Hin.
  apply bool_decide_spec, find_is_some. destruct (H tc Hin) as (t & Ht & Heq).
  exists t. split; [exact Ht|]. by apply strict_eq_spec.
Qed.

Lemma foldl_addMissing_fixed trs : forall tcs,
  (forall t, In t trs -> Js.truthy (t_id t) = true ->
             exists tc, In tc tcs /\ tc_id tc = t_id t) ->
  foldl Catalog.addMissing tcs trs = tcs.
Proof.
  induction trs as [|t trs IH]; intros tcs H; simpl; [reflexivity|].
  assert (E : Catalog.addMissing tcs t = tcs).
  { unfold Catalog.addMissing. destruct (Js.truthy (t_id t)) eqn:Et; simpl; [|reflexivity].
    destruct (H t (or_introl eq_refl) Et) as (tc & Hin & Heq).
    assert (Hs : is_Some (Js.find (fun x => Js.strict_eq (tc_id x) (t_id t)) tcs)).
    { apply find_is_some. exists tc. split; [exact Hin|]. by apply strict_eq_spec. }
    destruct Hs as [y ->]. reflexivity. }
  rewrite E. apply IH. intros t' Hin. apply H. by right.
Qed.

Lemma reconcile_idempotent trs tcs :
  Catalog.reconcile trs (Catalog.reconcile trs tcs) = Catalog.reconcile trs tcs.
Proof.
  unfold Catalog.reconcile at 1.
  rewrite foldl_addMissing_fixed.
  - apply prune_fixed. intros tc Hin. unfold Catalog.reconcile in Hin.
    apply prune_In in Hin. tauto.
  - intros t Hin Ht. destruct (foldl_addMissing_has trs tcs t Hin Ht) as (tc & Htc & Hid).
    exists tc. split; [|exact Hid]. unfold Catalog.reconcile. apply prune_In.
    split; [exact Htc|]. exists t. auto.
Qed.

Lemma ensureLoaded_twice cmp game e :
  cfg (Catalog.ensureLoaded cmp game (Catalog.ensureLoaded cmp game e))
  = cfg (Catalog.ensureLoaded cmp game e).
Proof.
  destruct (BACKGROUND_DOCUMENTS (cfg e)) eqn:E.
  - rewrite (ensureLoaded_cold cmp game e E).
    destruct (BACKGROUND_DOCUMENTS (cfg (Catalog.loadForeignDocuments cmp game e))) eqn:E2.
    + rewrite (ensureLoaded_cold cmp game _ E2). apply load_twice.
    + rewrite ensureLoaded_warm; [reflexivity|]. rewrite E2. discriminate.
  - assert (Hw : Catalog.ensureLoaded cmp game e = e)
      by (apply ensureLoaded_warm; rewrite E; discriminate).
    rewrite !Hw. reflexivity.
Qed.

(** X7: a second pass over the result of a first one, with the stored
    references unchanged, leaves the system exactly as the first pass
    left it: the same documents and traits are resolved, and no trait
    choice is added, dropped or reset. *)
Theorem X7_second_pass_changes_nothing {Abl Adv} cmp game (e : Env) src
    (s : System Abl Adv) :
  let r1 := Catalog.prepareForeignDocumentData cmp game e src s in
  let r2 := Catalog.prepareForeignDocumentData cmp game r1.1 src r1.2 in
  r2.2 = r1.2 /\ cfg r2.1 = cfg r1.1.
Proof.
  simpl. rewrite !ensureLoaded_twice. split; [|reflexivity].
  rewrite reconcile_idempotent. reflexivity.
Qed.

Lemma NoDup_map_filter {A B} (f : A -> B) (P : A -> Prop)
    `{!forall x, Decision (P x)} (l : list A) :
  NoDup (map f l) -> NoDup (map f (filter P l)).
Proof.
  induction l as [|x l IH]; simpl; intros Hnd; [constructor|].
  apply NoDup_cons in Hnd. destruct Hnd as [Hx Hnd].
  destruct (decide (P x)) as [Hp|Hp].
  - rewrite filter_cons_True by exact Hp. simpl. constructor; [|by apply IH].
    intros Hin. apply Hx. apply list_elem_of_In, in_map_iff in Hin.
    destruct Hin as (y & Hy & Hin). apply list_elem_of_In, in_map_iff.
    exists y. split; [exact Hy|]. apply list_elem_of_In in Hin.
    apply list_elem_of_filter in Hin. apply list_elem_of_In. tauto.
  - rewrite filter_cons_False by exact Hp. by apply IH.
Qed.

Lemma foldl_addMissing_NoDup trs : forall tcs,
  NoDup (map tc_id tcs) -> NoDup (map tc_id (foldl Catalog.addMissing tcs trs)).
Proof.
  induction trs as [|t trs IH]; intros tcs Hnd; simpl; [exact Hnd|].
  apply IH. destruct (addMissing_cases tcs t) as [->|(-> & _ & Hnew)]; [exact Hnd|].
  rewrite map_app. simpl. apply NoDup_app. split; [exact Hnd|]. split.
  - intros i Hi Hi'. apply list_elem_of_singleton in Hi'. subst i.
    apply list_elem_of_In, in_map_iff in Hi. destruct Hi as (tc & Heq & Hin).
    exact (Hnew tc Hin Heq).
  - apply NoDup_singleton.
Qed.

(** X8: reconciliation keeps the stored trait choices that survive in
    their stored order and puts the records it creates behind them,
    each created from a current trait; if no two stored trait choices
    share an id, no two trait choices share one afterwards, also when
    several current traits carry the same id. *)
Theorem X8_reconcile_order_and_unique_ids (trs : list Trait) (tcs : list TraitChoice) :
  (exists added,
      Catalog.reconcile trs tcs = Catalog.prune trs tcs ++ added
      /\ forall tc, In tc added ->
           exists t, In t trs /\ tc = freshChoice t /\ Js.truthy (t_id t) = true)
  /\ (NoDup (map tc_id tcs) -> NoDup (map tc_id (Catalog.reconcile trs tcs))).
Proof.
  split.
  - destruct (foldl_addMissing trs tcs) as (added & E & Hadded).
    exists added. unfold Catalog.reconcile. rewrite E.
    unfold Catalog.prune at 1. rewrite filter_app. fold (Catalog.prune trs tcs).
    fold (Catalog.prune trs added). split.
    + f_equal. apply prune_fixed. intros tc Hin.
      destruct (Hadded tc Hin) as (t & Ht & -> & _). exists t. auto.
    + intros tc Hin. destruct (Hadded tc Hin) as (t & Ht & -> & Htr & _). eauto.
  - intros Hnd. unfold Catalog.reconcile, Catalog.prune.
    apply NoDup_map_filter. by apply foldl_addMissing_NoDup.
Qed.

(** Two current traits with one id, and a stored choice for another. *)
Lemma X8_reconcile_order_and_unique_ids_witness :
  NoDup (map tc_id (Catalog.reconcile
                      [Examples.traitP1; Examples.traitTwice] [Examples.staleChoice])).
Proof.
  apply (proj2 (X8_reconcile_order_and_unique_ids
                  [Examples.traitP1; Examples.traitTwice] [Examples.staleChoice])).
  apply NoDup_singleton.
Defined.

(** ** Choice slots *)

Lemma refresh_selection key f l :
  (forall s, selection (f s) = selection s) ->
  map selection (Builder.refresh key f l) = map selection l.
Proof.
  intros Hf. induction l as [|s l IH]; simpl; [reflexivity|].
  destruct (String.eqb (cs_key s) key); simpl; [by rewrite Hf|by rewrite IH].
Qed.

Lemma find_key_None l k :
  Js.find (fun s => String.eqb (cs_key s) k) l = None <-> ~ In k (map cs_key l).
Proof.
  rewrite find_none. split.
  - intros H Hin. apply in_map_iff in Hin. destruct Hin as (s & <- & Hs).
    specialize (H s Hs). rewrite String.eqb_refl in H. discriminate.
  - intros H s Hs. apply String.eqb_neq. intros <-. apply H. by apply in_map.
Qed.

Lemma processOption_selection c ch m k o :
  map selection (Builder.processOption c (ch, m) (k, o)).1 = map selection ch
  \/ (map selection (Builder.processOption c (ch, m) (k, o)).1
      = map selection ch ++ [(k, [])]
      /\ Js.find (fun s => String.eqb (cs_key s) k) ch = None).
Proof.
  unfold Builder.processOption.
  destruct (Builder.resolveValues c o) as [values|]; [|by left].
  destruct (Js.find _ ch) as [cur|] eqn:Ef; simpl.
  - left. apply refresh_selection. reflexivity.
  - right. rewrite map_app. split; reflexivity.
Qed.

Lemma processOptions_selection c opts : forall ch m,
  exists created,
    map selection (foldl (Builder.processOption c) (ch, m) opts).1
    = map selection ch ++ map (fun k => (k, [])) created
    /\ (forall k, In k created ->
          In k (Js.keys opts)
          /\ Js.find (fun s => String.eqb (cs_key s) k) ch = None).
Proof.
  induction opts as [|[k o] opts IH]; intros ch m.
  - exists []. simpl. rewrite app_nil_r. split; [reflexivity|intros ? []].
  - cbn [foldl].
    destruct (Builder.processOption c (ch, m) (k, o)) as [ch1 m1] eqn:E.
    destruct (IH ch1 m1) as (created & Hsel & Hcr).
    pose proof (processOption_selection c ch m k o) as Hstep. rewrite E in Hstep.
    simpl in Hstep. destruct Hstep as [H1|[H1 Hnone]].
    + exists created. rewrite Hsel, H1. split; [reflexivity|].
      intros k' Hk'. destruct (Hcr k' Hk') as [Hin Hf]. split; [by right|].
      assert (Hkeys : map cs_key ch1 = map cs_key ch).
      { apply (f_equal (map fst)) in H1. rewrite !map_map in H1. exact H1. }
      apply find_key_None. apply find_key_None in Hf. by rewrite <- Hkeys.
    + exists (k :: created). rewrite Hsel, H1, <- app_assoc. split; [reflexivity|].
      intros k' [<-|Hk']; [split; [by left|exact Hnone]|].
      destruct (Hcr k' Hk') as [Hin Hf]. split; [by right|].
      assert (Hkeys : map cs_key ch1 = map cs_key ch ++ [k]).
      { apply (f_equal (map fst)) in H1. rewrite map_app, !map_map in H1. exact H1. }
      apply find_key_None. apply find_key_None in Hf. rewrite Hkeys in Hf.
      intros Hc. apply Hf. apply in_or_app. by left.
Qed.

Lemma selections_preserved c (tc : TraitChoice) :
  exists created,
    map selection (tc_choices (Builder.evaluate c tc))
    = map selection (tc_choices tc) ++ map (fun k => (k, [])) created
    /\ (forall k, In k created ->
          (exists opts, Builder.optionsOf (tc_trait tc) = Some opts /\ In k (Js.keys opts))
          /\ Js.find (fun s => String.eqb (cs_key s) k) (tc_choices tc) = None).
Proof.
  destruct (Builder.optionsOf (tc_trait tc)) as [opts|] eqn:Eo.
  - unfold Builder.optionsOf in Eo.
    destruct (t_builderInfo (tc_trait tc)) as [bi|] eqn:Eb; [|discriminate].
    rewrite (evaluate_present c tc bi opts Eb Eo). simpl.
    destruct (processOptions_selection c opts (tc_choices tc) 0) as (created & Hsel & Hcr).
    exists created. split; [exact Hsel|].
    intros k Hk. destruct (Hcr k Hk). split; [exists opts|]; auto.
  - rewrite (evaluate_absent c tc Eo). simpl. exists []. simpl. rewrite app_nil_r.
    split; [reflexivity|intros ? []].
Qed.

(** X9: the evaluator never touches what the player selected: the
    slots a record had keep their order, key and chosen values, and
    every slot behind them is new, has no chosen value, and belongs to
    an option key for which the record had no slot. *)
Theorem X9_selections_preserved c (tc : TraitChoice) :
  exists created,
    map selection (tc_choices (Builder.evaluate c tc))
    = map selection (tc_choices tc) ++ map (fun k => (k, [])) created
    /\ (forall k, In k created ->
          (exists opts, Builder.optionsOf (tc_trait tc) = Some opts /\ In k (Js.keys opts))
          /\ Js.find (fun s => String.eqb (cs_key s) k) (tc_choices tc) = None).
Proof. apply selections_preserved. Qed.

Lemma find_refresh_same key f l :
  (forall s, cs_key (f s) = cs_key s) ->
  Js.find (fun s => String.eqb (cs_key s) key) (Builder.refresh key f l)
  = f <$> Js.find (fun s => String.eqb (cs_key s) key) l.
Proof.
  intros Hk. induction l as [|s l IH]; simpl; [reflexivity|].
  destruct (String.eqb (cs_key s) key) eqn:E; simpl.
  - rewrite Hk, E. reflexivity.
  - rewrite E. exact IH.
Qed.

Lemma find_refresh_diff key k' f l :
  (forall s, cs_key (f s) = cs_key s) -> key <> k' ->
  Js.find (fun s => String.eqb (cs_key s) k') (Builder.refresh key f l)
  = Js.find (fun s => String.eqb (cs_key s) k') l.
Proof.
  intros Hk Hne. induction l as [|s l IH]; simpl; [reflexivity|].
  destruct (String.eqb (cs_key s) key) eqn:E; simpl.
  - rewrite Hk. apply String.eqb_eq in E. rewrite E.
    apply String.eqb_neq in Hne. rewrite Hne. reflexivity.
  - destruct (String.eqb (cs_key s) k'); [reflexivity|exact IH].
Qed.

(** An option leaves the slots of every other key as they are. *)
Lemma processOption_other c ch m k o k' :
  k <> k' ->
  Js.find (fun s => String.eqb (cs_key s) k') (Builder.processOption c (ch, m) (k, o)).1
  = Js.find (fun s => String.eqb (cs_key s) k') ch.
Proof.
  intros Hne. unfold Builder.processOption.
  destruct (Builder.resolveValues c o) as [values|]; [|reflexivity].
  destruct (Js.find (fun s => String.eqb (cs_key s) k) ch) as [cur|] eqn:Ef; simpl.
  - apply find_refresh_diff; [reflexivity|exact Hne].
  - by apply (find_app_other k).
Qed.

Lemma processOptions_other c opts : forall ch m k',
  ~ In k' (Js.keys opts) ->
  Js.find (fun s => String.eqb (cs_key s) k') (foldl (Builder.processOption c) (ch, m) opts).1
  = Js.find (fun s => String.eqb (cs_key s) k') ch.
Proof.
  induction opts as [|[k o] opts IH]; intros ch m k' Hn; [reflexivity|].
  cbn [foldl]. destruct (Builder.processOption c (ch, m) (k, o)) as [ch1 m1] eqn:E.
  rewrite IH by (intros H; apply Hn; by right).
  pose proof (processOption_other c ch m k o k') as H. rewrite E in H. apply H.
  intros ->. apply Hn. by left.
Qed.

(** A resolvable option leaves a slot that carries its configuration. *)
Lemma processOption_configured c ch m k o :
  is_Some (Builder.resolveValues c o) ->
  exists s, Js.find (fun s => String.eqb (cs_key s) k)
              (Builder.processOption c (ch, m) (k, o)).1 = Some s
            /\ configured c k o s.
Proof.
  intros [values Hv]. unfold Builder.processOption. rewrite Hv.
  destruct (Js.find (fun s => String.eqb (cs_key s) k) ch) as [cur|] eqn:Ef; simpl.
  - rewrite find_refresh_same by reflexivity. rewrite Ef. simpl. eexists. split; [reflexivity|].
    apply find_some in Ef. destruct Ef as [_ Hk]. apply String.eqb_eq in Hk.
    unfold configured. simpl. rewrite Hv. auto.
  - rewrite find_app, Ef. simpl. rewrite String.eqb_refl. eexists. split; [reflexivity|].
    unfold configured. simpl. rewrite Hv. auto.
Qed.

Lemma slots_configured c choices opts k o :
  NoDup (Js.keys opts) -> In (k, o) opts ->
  is_Some (Builder.resolveValues c o) ->
  exists s, Js.find (fun s => String.eqb (cs_key s) k)
              (Builder.processOptions c choices opts).1 = Some s
            /\ configured c k o s.
Proof.
  unfold Builder.processOptions. generalize 0 as m. revert choices.
  induction opts as [|[k0 o0] opts IH]; intros ch m Hnd Hin Hr; [destruct Hin|].
  unfold Js.keys in Hnd. simpl in Hnd. apply NoDup_cons in Hnd. destruct Hnd as [Hk Hnd].
  cbn [foldl]. destruct (Builder.processOption c (ch, m) (k0, o0)) as [ch1 m1] eqn:E.
  destruct Hin as [[= -> ->]|Hin].
  - rewrite processOptions_other by (intros H; apply Hk; by apply list_elem_of_In).
    pose proof (processOption_configured c ch m k o Hr) as (s & Hs & Hconf).
    rewrite E in Hs. exists s. split; [exact Hs|exact Hconf].
  - apply IH; assumption.
Qed.

(** X10: after a run over options with distinct keys, every option
    that was not skipped has a slot, the first one with its key, and
    that slot carries the option's current configuration: the label
    (the key when no label is configured), the category, the candidate
    values and the amount (1 when none is configured). *)
Theorem X10_slots_follow_configuration c choices opts k o :
  NoDup (Js.keys opts) -> In (k, o) opts ->
  is_Some (Builder.resolveValues c o) ->
  exists s, Js.find (fun s => String.eqb (cs_key s) k)
              (Builder.processOptions c choices opts).1 = Some s
            /\ cs_key s = k
            /\ cs_label s = Js.nullish (bo_label o) k
            /\ cs_category s = bo_category o
            /\ Builder.resolveValues c o = Some (cs_options s)
            /\ cs_amount s = Js.nullish (bo_amount o) 1.
Proof. apply slots_configured. Qed.

(** The language option of the documentation comment, next to a
    second option. *)
Lemma X10_slots_follow_configuration_witness :
  exists s, Js.find (fun s => String.eqb (cs_key s) "extra")
              (Builder.processOptions Examples.catalog [Examples.chosenElvish]
                 MoreExamples.twoOptions).1 = Some s
            /\ cs_label s = "Extra" /\ cs_amount s = 1.
Proof.
  destruct (X10_slots_follow_configuration Examples.catalog [Examples.chosenElvish]
              MoreExamples.twoOptions "extra" MoreExamples.extraProficiency)
    as (s & Hs & _ & Hl & _ & _ & Ha).
  - apply NoDup_cons. split; [|apply NoDup_singleton].
    intros H. apply list_elem_of_singleton in H. discriminate H.
  - right. left. reflexivity.
  - eexists. reflexivity.
  - exists s. auto.
Defined.

(** ** Fulfillment policies *)

Lemma twoKeys_NoDup (a b : string) : a <> b -> NoDup [a; b].
Proof.
  intros Hne. apply NoDup_cons. split; [|apply NoDup_singleton].
  intros H. apply list_elem_of_singleton in H. contradiction.
Qed.

Lemma twoOptions_NoDup : NoDup (Js.keys MoreExamples.twoOptions).
Proof. apply twoKeys_NoDup. discriminate. Qed.

Lemma made_count c tc bi opts :
  t_builderInfo (tc_trait tc) = Some bi -> bi_options bi = Some opts ->
  NoDup (Js.keys opts) ->
  (Builder.processOptions c (tc_choices tc) opts).2
  = Z.of_nat (length (List.filter (counted c (tc_choices tc)) opts)).
Proof.
  intros _ _ Hnd. unfold Builder.processOptions.
  rewrite processOptions_count by exact Hnd. lia.
Qed.

(** X11: under mode ALL the total is the number of configured
    options, skipped ones included: a record with an option whose
    [valuesType] names no member of [CONFIG.SYSTEM] (and that lists no
    values of its own) comes out unfulfilled whatever the player has
    chosen. *)
Theorem X11_ALL_with_skipped_option_unfulfilled c tc bi opts k o :
  t_builderInfo (tc_trait tc) = Some bi -> bi_options bi = Some opts ->
  NoDup (Js.keys opts) ->
  bi_mode bi = Some "ALL" ->
  In (k, o) opts -> Builder.resolveValues c o = None ->
  tc_choicesFulfilled (Builder.evaluate c tc) = false.
Proof.
  intros Hb Ho Hnd Hm Hin Hr.
  destruct (evaluate_known_modes c tc bi opts Hb Ho) as (HALL & _ & _).
  rewrite (HALL Hm), (made_count c tc bi opts Hb Ho Hnd). apply Z.eqb_neq.
  assert (Hlt : (length (List.filter (counted c (tc_choices tc)) opts) < length opts)%nat).
  { apply (filter_length_lt _ _ (k, o) Hin). unfold counted. simpl. rewrite Hr.
    reflexivity. }
  lia.
Qed.

(** A record whose language is chosen but whose second option cannot
    be resolved. *)
Lemma X11_ALL_with_skipped_option_unfulfilled_witness :
  tc_choicesFulfilled (Builder.evaluate Examples.catalog MoreExamples.tcBroken) = false.
Proof.
  apply (X11_ALL_with_skipped_option_unfulfilled Examples.catalog MoreExamples.tcBroken
           _ _ "broken" MoreExamples.brokenOption eq_refl eq_refl).
  - apply twoKeys_NoDup. discriminate.
  - reflexivity.
  - right. left. reflexivity.
  - reflexivity.
Defined.

Lemma filter_length_pos {A} (p : A -> bool) l :
  (0 < length (List.filter p l))%nat <-> exists x, In x l /\ p x = true.
Proof.
  split.
  - destruct (List.filter p l) as [|x r] eqn:E; simpl; [lia|]. intros _.
    exists x. apply List.filter_In. rewrite E. by left.
  - intros (x & Hx). apply List.filter_In in Hx.
    destruct (List.filter p l); [destruct Hx|simpl; lia].
Qed.

(** X12: under mode ANY a record is fulfilled exactly when at least
    one option that is not skipped has a slot from before the run
    holding exactly its amount of chosen values; under CHOOSE_ONE
    exactly when there is exactly one such option, so a second
    completed option makes the record unfulfilled again. *)
Theorem X12_ANY_and_CHOOSE_ONE c tc bi opts :
  t_builderInfo (tc_trait tc) = Some bi -> bi_options bi = Some opts ->
  NoDup (Js.keys opts) ->
  (bi_mode bi = Some "ANY" ->
     (tc_choicesFulfilled (Builder.evaluate c tc) = true
      <-> exists k o, In (k, o) opts /\ is_Some (Builder.resolveValues c o)
                      /\ existedComplete (tc_choices tc) k (Js.nullish (bo_amount o) 1) = true))
  /\ (bi_mode bi = Some "CHOOSE_ONE" ->
     (tc_choicesFulfilled (Builder.evaluate c tc) = true
      <-> length (List.filter (counted c (tc_choices tc)) opts) = 1%nat)).
Proof.
  intros Hb Ho Hnd.
  destruct (evaluate_known_modes c tc bi opts Hb Ho) as (_ & HANY & HONE).
  pose proof (made_count c tc bi opts Hb Ho Hnd) as Hmade.
  split; intros Hm.
  - rewrite (HANY Hm), Hmade, Z.gtb_lt.
    transitivity (0 < length (List.filter (counted c (tc_choices tc)) opts))%nat; [lia|].
    rewrite filter_length_pos. split.
    + intros ([k o] & Hin & Hc). unfold counted in Hc. simpl in Hc.
      apply andb_prop in Hc. destruct Hc as [Hr He].
      apply bool_decide_eq_true in Hr. eauto.
    + intros (k & o & Hin & Hr & He). exists (k, o). split; [exact Hin|].
      unfold counted. simpl. rewrite He. rewrite bool_decide_true by exact Hr. reflexivity.
  - rewrite (HONE Hm), Hmade, Z.eqb_eq. lia.
Qed.

(** One option completed out of two. *)
Lemma X12_ANY_and_CHOOSE_ONE_witness :
  tc_choicesFulfilled (Builder.evaluate Examples.catalog (MoreExamples.tcHalf "ANY")) = true
  /\ tc_choicesFulfilled (Builder.evaluate Examples.catalog (MoreExamples.tcHalf "CHOOSE_ONE"))
     = true.
Proof.
  split.
  - apply (proj1 (X12_ANY_and_CHOOSE_ONE Examples.catalog (MoreExamples.tcHalf "ANY") _ _
                    eq_refl eq_refl twoOptions_NoDup) eq_refl).
    exists "additionalLanguage", Examples.additionalLanguage.
    split; [left; reflexivity|]. split; [eexists|]; reflexivity.
  - apply (proj2 (X12_ANY_and_CHOOSE_ONE Examples.catalog (MoreExamples.tcHalf "CHOOSE_ONE")
                    _ _ eq_refl eq_refl twoOptions_NoDup) eq_refl).
    reflexivity.
Defined.

(** X13: the [switch] has no default branch: for every mode other
    than "ALL", "ANY" and "CHOOSE_ONE" (for instance "any", or the
    "all" that stands in for a missing mode) the flag keeps the value
    it had before the run, while the mode is stored and the slots of
    the options are created all the same. *)
Theorem X13_unknown_mode_keeps_flag c tc bi opts :
  t_builderInfo (tc_trait tc) = Some bi -> bi_options bi = Some opts ->
  Builder.defaultMode (bi_mode bi) <> "ALL" ->
  Builder.defaultMode (bi_mode bi) <> "ANY" ->
  Builder.defaultMode (bi_mode bi) <> "CHOOSE_ONE" ->
  let tc' := Builder.evaluate c tc in
  tc_choicesFulfilled tc' = tc_choicesFulfilled tc
  /\ (t_builderInfo (tc_trait tc') ≫= bi_mode) = Some (Builder.defaultMode (bi_mode bi))
  /\ tc_choices tc' = (Builder.processOptions c (tc_choices tc) opts).1.
Proof.
  intros Hb Ho H1 H2 H3. simpl. rewrite (evaluate_present c tc bi opts Hb Ho). simpl.
  split; [|split; reflexivity]. unfold Builder.fulfilled.
  apply String.eqb_neq in H1, H2, H3. rewrite H1, H2, H3. reflexivity.
Qed.

(** The record with mode "any". *)
Lemma X13_unknown_mode_keeps_flag_witness :
  tc_choicesFulfilled (Builder.evaluate Examples.catalog MoreExamples.tcLowerAny) = true.
Proof.
  apply (X13_unknown_mode_keeps_flag Examples.catalog MoreExamples.tcLowerAny
           (Examples.builder (Some "any") MoreExamples.twoOptions) MoreExamples.twoOptions
           eq_refl eq_refl); discriminate.
Defined.

(** ** Evaluating twice *)

Lemma refresh_id key f l s :
  Js.find (fun s => String.eqb (cs_key s) key) l = Some s -> f s = s ->
  Builder.refresh key f l = l.
Proof.
  induction l as [|x l IH]; simpl; [discriminate|].
  destruct (String.eqb (cs_key x) key); [intros [= ->] ->; reflexivity|].
  intros H1 H2. rewrite IH; auto.
Qed.

Lemma update_configured c k o values s :
  configured c k o s -> Builder.resolveValues c o = Some values ->
  Builder.update k o values (Js.nullish (bo_amount o) 1) s = s.
Proof.
  intros (Hk & Hl & Hc & Hr & Ha) Hv. rewrite Hv in Hr. injection Hr as ->.
  destruct s. unfold Builder.update. simpl in *. subst. reflexivity.
Qed.

(** Options whose slots are all in place and configured change no slot. *)
Lemma processOptions_fixed c opts : forall ch m,
  (forall k o, In (k, o) opts -> is_Some (Builder.resolveValues c o) ->
     exists s, Js.find (fun s => String.eqb (cs_key s) k) ch = Some s /\ configured c k o s) ->
  (foldl (Builder.processOption c) (ch, m) opts).1 = ch.
Proof.
  induction opts as [|[k o] opts IH]; intros ch m H; [reflexivity|].
  cbn [foldl].
  assert (E : exists m', Builder.processOption c (ch, m) (k, o) = (ch, m')).
  { unfold Builder.processOption.
    destruct (Builder.resolveValues c o) as [values|] eqn:Er; [|eauto].
    destruct (H k o (or_introl eq_refl)) as (s & Hs & Hconf); [eauto|].
    rewrite Hs. rewrite (refresh_id k _ ch s Hs (update_configured c k o values s Hconf Er)).
    eauto. }
  destruct E as [m' ->]. apply IH. intros k' o' Hin. apply H. by right.
Qed.

Lemma existedComplete_selection l1 l2 k a :
  map selection l1 = map selection l2 ->
  existedComplete l1 k a = existedComplete l2 k a.
Proof.
  intros H. apply existedComplete_find. revert l2 H.
  induction l1 as [|x l1 IH]; intros [|y l2] H; try discriminate; [reflexivity|].
  simpl in H. injection H as Hk Hc Hrest. simpl. rewrite Hk.
  destruct (String.eqb (cs_key y) k); simpl; [by rewrite Hc|by apply IH].
Qed.

(** Slots created without chosen values are only complete for amount 0. *)
Lemma existedComplete_created l created k a :
  a <> 0 ->
  forall l', map selection l' = map selection l ++ map (fun k => (k, [])) created ->
  existedComplete l' k a = existedComplete l k a.
Proof.
  intros Ha. induction l as [|x l IH]; intros l' H.
  - simpl in H. unfold existedComplete at 2. simpl.
    revert l' H. induction created as [|k0 created IHc]; intros [|y l'] H;
      try discriminate; [reflexivity|].
    simpl in H. injection H as Hk Hc Hrest. unfold existedComplete. simpl. rewrite Hk.
    destruct (String.eqb k0 k).
    + rewrite Hc. simpl. destruct a; [contradiction|reflexivity|reflexivity].
    + apply (IHc l' Hrest).
  - destruct l' as [|y l']; [discriminate|]. simpl in H. injection H as Hk Hc Hrest.
    unfold existedComplete. simpl. rewrite Hk.
    destruct (String.eqb (cs_key x) k); [by rewrite Hc|]. apply (IH l' Hrest).
Qed.

Lemma defaultMode_idem m :
  Builder.defaultMode (Some (Builder.defaultMode m)) = Builder.defaultMode m.
Proof.
  unfold Builder.defaultMode. destruct (Js.truthy m) eqn:E; [|reflexivity].
  destruct m as [s|]; [|discriminate]. simpl in *. rewrite E. reflexivity.
Qed.

Lemma fulfilled_idem m x n p :
  Builder.fulfilled m x n (Builder.fulfilled m x n p) = Builder.fulfilled m x n p.
Proof.
  unfold Builder.fulfilled.
  destruct (String.eqb m "ALL"), (String.eqb m "ANY"), (String.eqb m "CHOOSE_ONE");
    reflexivity.
Qed.

(** X14: evaluating a record a second time changes nothing, provided
    its option keys are distinct and no option has amount 0: the slots,
    the stored mode and the flag stay as the first evaluation left
    them.  (With amount 0 a slot created empty by the first run counts
    as made in the second.) *)
Theorem X14_evaluate_twice c (tc : TraitChoice) :
  (forall opts, Builder.optionsOf (tc_trait tc) = Some opts ->
     NoDup (Js.keys opts)
     /\ forall k o, In (k, o) opts -> Js.nullish (bo_amount o) 1 <> 0) ->
  Builder.evaluate c (Builder.evaluate c tc) = Builder.evaluate c tc.
Proof.
  intros H. destruct (Builder.optionsOf (tc_trait tc)) as [opts|] eqn:Eo.
  - destruct (H opts eq_refl) as [Hnd Hamt]. unfold Builder.optionsOf in Eo.
    destruct (t_builderInfo (tc_trait tc)) as [bi|] eqn:Eb; [|discriminate].
    rewrite (evaluate_present c tc bi opts Eb Eo).
    set (m := Builder.defaultMode (bi_mode bi)).
    set (ch1 := (Builder.processOptions c (tc_choices tc) opts).1).
    set (made1 := (Builder.processOptions c (tc_choices tc) opts).2).
    rewrite (evaluate_present c _ {| bi_mode := Some m; bi_options := bi_options bi |} opts);
      [|reflexivity|exact Eo].
    cbn [tc_trait tc_choices tc_choicesFulfilled bi_mode].
    assert (Hch : (Builder.processOptions c ch1 opts).1 = ch1).
    { apply processOptions_fixed. intros k o Hin Hr.
      destruct (slots_configured c (tc_choices tc) opts k o Hnd Hin Hr)
        as (s & Hs & Hconf). exists s. split; [exact Hs|exact Hconf]. }
    assert (Hmade : (Builder.processOptions c ch1 opts).2 = made1).
    { unfold made1, Builder.processOptions. rewrite !processOptions_count by exact Hnd.
      f_equal. f_equal. f_equal. apply List.filter_ext_in. intros [k o] Hin.
      unfold counted. simpl. f_equal.
      destruct (processOptions_selection c opts (tc_choices tc) 0) as (created & Hsel & _).
      apply (existedComplete_created _ created); [by apply (Hamt k o)|exact Hsel]. }
    rewrite Hch, Hmade. unfold m. rewrite defaultMode_idem, fulfilled_idem.
    reflexivity.
  - rewrite !(evaluate_absent c) by (try rewrite (evaluate_absent c tc Eo); exact Eo).
    reflexivity.
Qed.

(** The half-chosen record under mode ALL. *)
Lemma X14_evaluate_twice_witness :
  Builder.evaluate Examples.catalog
    (Builder.evaluate Examples.catalog (MoreExamples.tcHalf "ALL"))
  = Builder.evaluate Examples.catalog (MoreExamples.tcHalf "ALL").
Proof.
  apply X14_evaluate_twice. intros opts [= <-]. split; [apply twoOptions_NoDup|].
  intros k o [[= <- <-]|[[= <- <-]|[]]]; discriminate.
Defined.

(** ** Style strings at the edges *)

Lemma component_short (ms : list string) :
  (length ms < 3)%nat -> Style.component (map Style.parseInt16 ms) 2 = None.
Proof.
  intros H. unfold Style.component. apply nth_overflow. rewrite length_map. lia.
Qed.

(** X15: what [buildStyleString] makes of colours that are not six
    hex digits.  Without a colour (or with the empty string) the style
    is the empty string, so an innate entry still has a [style]
    property.  A colour without two adjacent word characters makes the
    call throw.  A colour with one or two such pairs only, such as the
    short form [#fff], gets white text whatever the colour is. *)
Theorem X15_style_of_odd_colours (color : option string) :
  (Js.truthy color = false -> Style.buildStyleString color = Eff.Ok "")
  /\ (Js.truthy color = true -> Style.match_ww (Js.nullish color "") = [] ->
      Style.buildStyleString color = Eff.Throw "TypeError")
  /\ (Js.truthy color = true ->
      (0 < length (Style.match_ww (Js.nullish color "")) < 3)%nat ->
      Style.buildStyleString color
      = Eff.Ok ("background-color: " +:+ Js.nullish color "" +:+ ";" +:+ "color: white;")).
Proof.
  unfold Style.buildStyleString. repeat split.
  - intros ->. reflexivity.
  - intros -> ->. reflexivity.
  - intros -> [Hpos Hlt].
    destruct (Style.match_ww (Js.nullish color "")) as [|m ms] eqn:E; [simpl in Hpos; lia|].
    assert (Hb : Style.brightness (map Style.parseInt16 (m :: ms)) = None).
    { unfold Style.brightness. rewrite (component_short (m :: ms)) by exact Hlt.
      assert (Hn : forall a, Style.nadd a (Style.nmul None 114) = None)
        by (intros [?|]; reflexivity).
      rewrite Hn. reflexivity. }
    rewrite Hb. reflexivity.
Qed.

(** No colour, a colour of punctuation only, and white in short form. *)
Lemma X15_style_of_odd_colours_witness :
  Style.buildStyleString None = Eff.Ok ""
  /\ Style.buildStyleString (Some "#-#") = Eff.Throw "TypeError"
  /\ Style.buildStyleString (Some "#fff") = Eff.Ok "background-color: #fff;color: white;".
Proof.
  split; [|split].
  - apply (proj1 (X15_style_of_odd_colours None)). reflexivity.
  - apply (proj1 (proj2 (X15_style_of_odd_colours (Some "#-#")))); reflexivity.
  - apply (proj2 (proj2 (X15_style_of_odd_colours (Some "#fff")))); [reflexivity|].
    simpl. lia.
Defined.

(** ** Exceptions of the advantage step *)

Lemma mapM_total {A B} (f : A -> Eff.M B) l :
  (forall x h, In x l -> exists y h', f x h = Eff.Ok (y, h')) ->
  forall h, exists ys h', Eff.mapM f l h = Eff.Ok (ys, h').
Proof.
  induction l as [|x l IH]; intros H h; simpl.
  - eexists _, _. reflexivity.
  - unfold Eff.bind. destruct (H x h (or_introl eq_refl)) as (y & h1 & ->).
    destruct (IH (fun x h Hx => H x h (or_intror Hx)) h1) as (ys & h2 & ->).
    eexists _, _. reflexivity.
Qed.

Lemma foldM_total {A B} (f : A -> B -> Eff.M A) l :
  (forall a x h, In x l -> exists a' h', f a x h = Eff.Ok (a', h')) ->
  forall a h, exists r h', Eff.foldM f a l h = Eff.Ok (r, h').
Proof.
  induction l as [|x l IH]; intros H a h; simpl.
  - eexists _, _. reflexivity.
  - unfold Eff.bind. destruct (H a x h (or_introl eq_refl)) as (a1 & h1 & ->).
    apply IH. intros a' x' h' Hx. apply H. by right.
Qed.

Lemma foldM_In {A B} (f : A -> B -> Eff.M A) l : forall a h r h' x,
  Eff.foldM f a l h = Eff.Ok (r, h') -> In x l ->
  exists a1 h1 a2 h2, f a1 x h1 = Eff.Ok (a2, h2).
Proof.
  induction l as [|y l IH]; intros a h r h' x H Hin; [destruct Hin|].
  simpl in H. unfold Eff.bind in H.
  destruct (f a y h) as [[a1 h1]|] eqn:E; [|discriminate].
  destruct Hin as [->|Hin]; [eauto 6|]. eapply IH; eauto.
Qed.

Lemma buildStyleString_ok color :
  usableColor color <-> exists st, Style.buildStyleString color = Eff.Ok st.
Proof.
  unfold usableColor, Style.buildStyleString. destruct (Js.truthy color).
  - destruct (Style.match_ww (Js.nullish color "")) as [|m ms].
    + split; [intros [?|?]; [discriminate|contradiction]|intros [? [=]]].
    + split; [eauto|]. intros _. right. discriminate.
  - split; [eauto|]. intros _. by left.
Qed.

Lemma same_adv_oid x y : same_adv x y = true <-> oidOf x = oidOf y.
Proof.
  destruct x as [a|], y as [b|]; simpl; try (split; congruence).
  rewrite Nat.eqb_eq. split; congruence.
Qed.

(** Objects with identities of their own are all kept by a Set. *)
Lemma set_add_all_fresh ys : forall acc,
  NoDup (map oidOf (acc ++ ys)) ->
  foldl (Coll.set_add same_adv) acc ys = acc ++ ys.
Proof.
  induction ys as [|y ys IH]; intros acc Hnd; simpl; [by rewrite app_nil_r|].
  assert (E : Coll.set_add same_adv acc y = acc ++ [y]).
  { unfold Coll.set_add. destruct (existsb (same_adv y) acc) eqn:Ex; [|reflexivity].
    exfalso. apply existsb_exists in Ex. destruct Ex as (x & Hx & Hs).
    apply same_adv_oid in Hs. rewrite map_app in Hnd. simpl in Hnd.
    apply NoDup_app in Hnd. destruct Hnd as (_ & Hdisj & _).
    apply (Hdisj (oidOf x)).
    - apply list_elem_of_In. by apply in_map.
    - rewrite <- Hs. apply elem_of_cons. by left. }
  rewrite E, IH; [by rewrite <- app_assoc|]. by rewrite <- app_assoc.
Qed.

Lemma mapM_manual types l : forall h,
  manualKnown types l ->
  exists ys, Eff.mapM (Advantages.mapManualData types) l h
             = Eff.Ok (ys, {| Eff.next_oid := Eff.next_oid h + length l;
                              Eff.log := Eff.log h |})
             /\ map oidOf ys = map Some (seq (Eff.next_oid h) (length l)).
Proof.
  induction l as [|v l IH]; intros h Hk; simpl.
  - exists []. rewrite Nat.add_0_r. destruct h. split; reflexivity.
  - unfold Eff.bind, Advantages.mapManualData at 1.
    destruct (Hk v (or_introl eq_refl)) as [cfg0 ->]. simpl.
    destruct (IH {| Eff.next_oid := S (Eff.next_oid h); Eff.log := Eff.log h |}
                (fun x Hx => Hk x (or_intror Hx))) as (ys & -> & Hoids).
    simpl in *. eexists. split.
    + unfold Eff.ret. do 3 f_equal. lia.
    + simpl. by rewrite Hoids.
Qed.

Lemma setMap_manual_ok types l h :
  manualKnown types l ->
  exists ys h', Advantages.setMap (Advantages.mapManualData types) l h = Eff.Ok (ys, h').
Proof.
  intros Hk. unfold Advantages.setMap, Eff.bind.
  destruct (mapM_manual types l h Hk) as (ys & -> & Hoids).
  assert (Hset : Coll.set_of same_adv ys = ys).
  { unfold Coll.set_of. rewrite set_add_all_fresh; [reflexivity|]. simpl. rewrite Hoids.
    apply NoDup_fmap_2; [intros ? ? [=]; done|apply NoDup_seq]. }
  rewrite Hset.
  assert (Hlen : length ys = length l).
  { apply (f_equal (@length _)) in Hoids. rewrite !length_map, length_seq in Hoids.
    exact Hoids. }
  rewrite Hlen, Nat.eqb_refl. eexists _, _. reflexivity.
Qed.

Lemma setMap_manual_inv types l h ys h' :
  Advantages.setMap (Advantages.mapManualData types) l h = Eff.Ok (ys, h') ->
  manualKnown types l.
Proof.
  unfold Advantages.setMap, Eff.bind. intros H.
  destruct (Eff.mapM _ l h) as [[rs h1]|] eqn:E; [|discriminate].
  intros v Hv. destruct (mapM_In _ _ _ _ _ v E Hv) as (ha & y & hb & Hf & _).
  unfold Advantages.mapManualData in Hf.
  destruct (Advantages.labelOf types (mv_value v)); [eauto|discriminate].
Qed.

(** [mapInnate] completes unless it has to style an entry with an
    unusable colour. *)
Lemma mapInnate_ok trait types k h :
  (exists r h', Advantages.mapInnate trait types k h = Eff.Ok (r, h'))
  <-> (knownIn types k = true -> usableColor (t_color trait)).
Proof.
  unfold Advantages.mapInnate, knownIn, Eff.bind, Eff.lift.
  destruct (Advantages.labelOf types k) as [lbl|].
  - rewrite buildStyleString_ok.
    destruct (Style.buildStyleString (t_color trait)) as [st|e]; simpl.
    + split; [eauto|]. intros _. eexists _, _. reflexivity.
    + split; [intros (? & ? & [=])|]. intros H. destruct (H eq_refl) as [? [=]].
  - split; [intros _ [=]|]. intros _. eexists _, _. reflexivity.
Qed.

Lemma reduceValue_ok trait types advs v h :
  (exists r h', Advantages.reduceValue trait types advs v h = Eff.Ok (r, h'))
  <-> (knownIn types v = true -> usableColor (t_color trait)).
Proof.
  unfold Advantages.reduceValue, knownIn, Eff.bind, Eff.lift.
  destruct (Advantages.labelOf types v) as [lbl|].
  - rewrite buildStyleString_ok.
    destruct (Style.buildStyleString (t_color trait)) as [st|e]; simpl.
    + split; [eauto|]. intros _. eexists _, _. reflexivity.
    + split; [intros (? & ? & [=])|]. intros H. destruct (H eq_refl) as [? [=]].
  - split; [intros _ [=]|]. intros _. eexists _, _. reflexivity.
Qed.

Lemma addInnate_ok trait types keys set h :
  (exists r h', Advantages.addInnate trait types keys set h = Eff.Ok (r, h'))
  <-> ((exists k, In k keys /\ knownIn types k = true) -> usableColor (t_color trait)).
Proof.
  unfold Advantages.addInnate, Eff.bind, Eff.ret. split.
  - intros (r & h' & H) (k & Hk & Hs).
    destruct (Eff.mapM _ keys h) as [[rs h1]|] eqn:E; [|discriminate].
    destruct (mapM_In _ _ _ _ _ k E Hk) as (ha & y & hb & Hf & _).
    apply (proj1 (mapInnate_ok trait types k ha)); eauto.
  - intros H.
    destruct (mapM_total (Advantages.mapInnate trait types) keys) with (h := h)
      as (ys & h1 & ->); [|eauto].
    intros k h0 Hk. apply mapInnate_ok. intros Hs. apply H. eauto.
Qed.

Lemma innateStep_ok c sets trait h :
  (exists r h', Advantages.innateStep c sets trait h = Eff.Ok (r, h'))
  <-> (yieldsInnate c trait -> usableColor (t_color trait)).
Proof.
  destruct sets as [[[p r] l] s]. unfold Advantages.innateStep, Eff.bind, Eff.ret. split.
  - intros (res & h' & H) (types & keys & k & Hin & Hk & Hs).
    destruct (Advantages.addInnate trait (PROFICIENCY_TYPES c) _ p h)
      as [[p' h1]|] eqn:E1; [|discriminate].
    destruct (Advantages.addInnate trait (DAMAGE_TYPES c) _ r h1)
      as [[r' h2]|] eqn:E2; [|discriminate].
    destruct (Advantages.addInnate trait (LANGUAGE_TYPES c) _ l h2)
      as [[l' h3]|] eqn:E3; [|discriminate].
    destruct (Advantages.addInnate trait (SAVE_TYPES c) _ s h3)
      as [[s' h4]|] eqn:E4; [|discriminate].
    simpl in Hin.
    destruct Hin as [[= <- <-]|[[= <- <-]|[[= <- <-]|[[= <- <-]|[]]]]];
      [apply (proj1 (addInnate_ok _ _ _ _ _) (ex_intro _ _ (ex_intro _ _ E1)))
      |apply (proj1 (addInnate_ok _ _ _ _ _) (ex_intro _ _ (ex_intro _ _ E2)))
      |apply (proj1 (addInnate_ok _ _ _ _ _) (ex_intro _ _ (ex_intro _ _ E3)))
      |apply (proj1 (addInnate_ok _ _ _ _ _) (ex_intro _ _ (ex_intro _ _ E4)))]; eauto.
  - intros H.
    assert (Hall : forall types keys, In (types, keys) (innateLists c trait) ->
              forall set h0, exists r0 h', Advantages.addInnate trait types keys set h0
                                           = Eff.Ok (r0, h')).
    { intros types keys Hin set h0. apply addInnate_ok. intros (k & Hk & Hs).
      apply H. exists types, keys, k. auto. }
    destruct (Hall _ _ (or_introl eq_refl) p h) as (p' & h1 & ->).
    destruct (Hall _ _ (or_intror (or_introl eq_refl)) r h1) as (r' & h2 & ->).
    destruct (Hall _ _ (or_intror (or_intror (or_introl eq_refl))) l h2) as (l' & h3 & ->).
    destruct (Hall _ _ (or_intror (or_intror (or_intror (or_introl eq_refl)))) s h3)
      as (s' & h4 & ->).
    eexists _, _. reflexivity.
Qed.

Lemma reduceTraitChoice_ok trait name types advs s h :
  (exists r h', Advantages.reduceTraitChoice trait name types advs s h = Eff.Ok (r, h'))
  <-> (cs_category s = Some name ->
       (exists v, In v (cs_chosenValues s) /\ knownIn types v = true) ->
       usableColor (t_color trait)).
Proof.
  unfold Advantages.reduceTraitChoice.
  destruct (Js.strict_eq (cs_category s) (Some name)) eqn:E; simpl.
  - apply strict_eq_spec in E. split.
    + intros (r & h' & H) _ (v & Hv & Hs).
      destruct (foldM_In _ _ _ _ _ _ v H Hv) as (a1 & h1 & a2 & h2 & Hf).
      apply (proj1 (reduceValue_ok trait types a1 v h1)); eauto.
    + intros H. apply foldM_total. intros a v h0 Hv. apply reduceValue_ok.
      intros Hs. apply H; eauto.
  - split; [|intros _; eexists _, _; reflexivity].
    intros _ Hc. apply strict_eq_spec in Hc. congruence.
Qed.

Lemma addChoices_ok tc name types set h :
  (exists r h', Advantages.addChoices tc name types set h = Eff.Ok (r, h'))
  <-> ((exists s v, In s (tc_choices tc) /\ cs_category s = Some name
                    /\ In v (cs_chosenValues s) /\ knownIn types v = true) ->
       usableColor (t_color (tc_trait tc))).
Proof.
  unfold Advantages.addChoices, Eff.bind, Eff.ret. split.
  - intros (r & h' & H) (s & v & Hs & Hc & Hv & Hk).
    destruct (Eff.foldM _ [] (tc_choices tc) h) as [[rs h1]|] eqn:E; [|discriminate].
    destruct (foldM_In _ _ _ _ _ _ s E Hs) as (a1 & ha & a2 & hb & Hf).
    apply (proj1 (reduceTraitChoice_ok (tc_trait tc) name types a1 s ha)); eauto.
  - intros H.
    destruct (foldM_total (Advantages.reduceTraitChoice (tc_trait tc) name types)
                (tc_choices tc)) with (a := @nil (option AdvObj)) (h := h)
      as (rs & h1 & ->); [|eauto].
    intros a s h0 Hs. apply reduceTraitChoice_ok. intros Hc (v & Hv & Hk).
    apply H. exists s, v. auto.
Qed.

Lemma choiceStep_ok c sets tc h :
  (exists r h', Advantages.choiceStep c sets tc h = Eff.Ok (r, h'))
  <-> (yieldsChoice c tc -> usableColor (t_color (tc_trait tc))).
Proof.
  destruct sets as [[[p r] l] s]. unfold Advantages.choiceStep, Eff.bind, Eff.ret. split.
  - intros (res & h' & H) (name & types & sl & v & Hin & Hs & Hc & Hv & Hk).
    destruct (Advantages.addChoices tc "PROFICIENCY_TYPES" _ p h)
      as [[p' h1]|] eqn:E1; [|discriminate].
    destruct (Advantages.addChoices tc "DAMAGE_TYPES" _ r h1)
      as [[r' h2]|] eqn:E2; [|discriminate].
    destruct (Advantages.addChoices tc "LANGUAGE_TYPES" _ l h2)
      as [[l' h3]|] eqn:E3; [|discriminate].
    destruct (Advantages.addChoices tc "SAVE_TYPES" _ s h3)
      as [[s' h4]|] eqn:E4; [|discriminate].
    simpl in Hin.
    destruct Hin as [[= <- <-]|[[= <- <-]|[[= <- <-]|[[= <- <-]|[]]]]];
      [apply (proj1 (addChoices_ok _ _ _ _ _) (ex_intro _ _ (ex_intro _ _ E1)))
      |apply (proj1 (addChoices_ok _ _ _ _ _) (ex_intro _ _ (ex_intro _ _ E2)))
      |apply (proj1 (addChoices_ok _ _ _ _ _) (ex_intro _ _ (ex_intro _ _ E3)))
      |apply (proj1 (addChoices_ok _ _ _ _ _) (ex_intro _ _ (ex_intro _ _ E4)))];
      exists sl, v; auto.
  - intros H.
    assert (Hall : forall name types, In (name, types) (choiceTables c) ->
              forall set h0, exists r0 h', Advantages.addChoices tc name types set h0
                                           = Eff.Ok (r0, h')).
    { intros name types Hin set h0. apply addChoices_ok. intros (sl & v & Hs & Hc & Hv & Hk).
      apply H. exists name, types, sl, v. auto. }
    destruct (Hall _ _ (or_introl eq_refl) p h) as (p' & h1 & ->).
    destruct (Hall _ _ (or_intror (or_introl eq_refl)) r h1) as (r' & h2 & ->).
    destruct (Hall _ _ (or_intror (or_intror (or_introl eq_refl))) l h2) as (l' & h3 & ->).
    destruct (Hall _ _ (or_intror (or_intror (or_intror (or_introl eq_refl)))) s h3)
      as (s' & h4 & ->).
    eexists _, _. reflexivity.
Qed.

(** ** What the innate and the choice tier produce *)

Lemma reduceValue_result trait types advs v h rs h' :
  Advantages.reduceValue trait types advs v h = Eff.Ok (rs, h') ->
  if knownIn types v
  then (exists x, rs = advs ++ [x] /\ entryOf "choice" trait types v x)
       /\ Eff.log h' = Eff.log h
  else rs = advs /\ Eff.log h' = Eff.log h ++ [Advantages.unknownType trait v].
Proof.
  unfold Advantages.reduceValue, knownIn, Eff.bind, Eff.lift, Eff.ret.
  destruct (Advantages.labelOf types v) as [lbl|] eqn:Eg.
  - destruct (Style.buildStyleString (t_color trait)) as [st|]; [|discriminate].
    simpl. intros [= <- <-]. split; [|reflexivity].
    eexists. split; [reflexivity|]. unfold entryOf. eexists _, lbl.
    repeat split; try reflexivity. exact Eg.
  - simpl. intros [= <- <-]. split; reflexivity.
Qed.

Lemma foldM_reduceValue trait types vs : forall advs h rs h',
  Eff.foldM (Advantages.reduceValue trait types) advs vs h = Eff.Ok (rs, h') ->
  exists new,
    rs = advs ++ new
    /\ Forall2 (entryOf "choice" trait types) (List.filter (knownIn types) vs) new
    /\ Eff.log h' = Eff.log h ++ map (Advantages.unknownType trait)
                                  (List.filter (fun v => negb (knownIn types v)) vs).
Proof.
  induction vs as [|v vs IH]; intros advs h rs h' H; simpl in H.
  - injection H as <- <-. exists []. rewrite !app_nil_r. repeat split. constructor.
  - unfold Eff.bind in H.
    destruct (Advantages.reduceValue trait types advs v h) as [[a1 h1]|] eqn:E; [|discriminate].
    apply reduceValue_result in E. destruct (IH _ _ _ _ H) as (new & -> & Hnew & Hlog).
    simpl. destruct (knownIn types v); simpl.
    + destruct E as [(x & -> & Hx) Hl]. exists (x :: new).
      rewrite <- app_assoc. split; [reflexivity|]. split; [by constructor|].
      rewrite Hlog, Hl. reflexivity.
    + destruct E as [-> Hl]. exists new. split; [reflexivity|]. split; [exact Hnew|].
      rewrite Hlog, Hl, <- app_assoc. reflexivity.
Qed.

Lemma foldM_reduceTraitChoice trait name types choices : forall advs h rs h',
  Eff.foldM (Advantages.reduceTraitChoice trait name types) advs choices h
  = Eff.Ok (rs, h') ->
  exists new,
    rs = advs ++ new
    /\ Forall2 (entryOf "choice" trait types)
         (List.filter (knownIn types) (chosenFor name choices)) new
    /\ Eff.log h' = Eff.log h ++ map (Advantages.unknownType trait)
                      (List.filter (fun v => negb (knownIn types v))
                                   (chosenFor name choices)).
Proof.
  induction choices as [|s choices IH]; intros advs h rs h' H; simpl in H.
  - injection H as <- <-. exists []. rewrite !app_nil_r. repeat split. constructor.
  - unfold Eff.bind in H.
    destruct (Advantages.reduceTraitChoice trait name types advs s h)
      as [[a1 h1]|] eqn:E; [|discriminate].
    destruct (IH _ _ _ _ H) as (new & -> & Hnew & Hlog).
    unfold Advantages.reduceTraitChoice in E. unfold chosenFor. simpl.
    destruct (Js.strict_eq (cs_category s) (Some name)); simpl in *.
    + apply foldM_reduceValue in E. destruct E as (n1 & -> & Hn1 & Hl1).
      exists (n1 ++ new). rewrite <- app_assoc. split; [reflexivity|].
      rewrite !List.filter_app, map_app. split.
      * apply Forall2_app; assumption.
      * rewrite Hlog, Hl1, <- app_assoc. reflexivity.
    + injection E as <- <-. exists new. auto.
Qed.

(** X17: the array the choice tier builds for a trait choice and a
    category holds exactly one entry per chosen value that the table
    answers (by an entry of its own or by a member it inherits), in
    the order of the slots of that category and of their chosen
    values; each entry is tagged "choice" and carries the provenance of
    the trait and the label the table answers, which is [undefined] for
    an inherited member.  It never holds [undefined]: a chosen value
    the table does not answer adds nothing and is logged. *)
Theorem X17_choice_tier_entries trait name types choices h rs h' :
  Eff.foldM (Advantages.reduceTraitChoice trait name types) [] choices h
  = Eff.Ok (rs, h') ->
  Forall2 (entryOf "choice" trait types)
    (List.filter (knownIn types) (chosenFor name choices)) rs
  /\ ~ In None rs
  /\ Eff.log h' = Eff.log h ++ map (Advantages.unknownType trait)
                     (List.filter (fun v => negb (knownIn types v))
                                  (chosenFor name choices)).
Proof.
  intros H. apply foldM_reduceTraitChoice in H. destruct H as (new & -> & Hnew & Hlog).
  simpl. split; [exact Hnew|]. split; [|exact Hlog].
  intros Hin. clear Hlog. induction Hnew as [|v x vs xs Hx Hrest IH]; [destruct Hin|].
  destruct Hin as [->|Hin]; [|auto]. destruct Hx as (o & ? & [=] & _).
Qed.

(** The record with elvish chosen, plus a chosen value the table
    inherits and one it does not answer. *)
Lemma X17_choice_tier_entries_witness :
  exists rs h',
    Eff.foldM (Advantages.reduceTraitChoice (Examples.traitWith Examples.noInnate None)
                 "LANGUAGE_TYPES" (LANGUAGE_TYPES Examples.catalog)) []
      [Examples.chosenElvish;
       {| cs_key := "more"; cs_label := "more"; cs_category := Some "LANGUAGE_TYPES";
          cs_options := []; cs_chosenValues := ["constructor"; "klingon"]; cs_amount := 1 |}]
      Examples.heap0 = Eff.Ok (rs, h')
    /\ Forall2 (entryOf "choice" (Examples.traitWith Examples.noInnate None)
                  (LANGUAGE_TYPES Examples.catalog)) ["elvish"; "constructor"] rs
    /\ ~ In None rs
    /\ Eff.log h' = ["Unknown type klingon in B (T1)"].
Proof.
  destruct (Eff.foldM _ [] _ Examples.heap0) as [[rs h']|e] eqn:E.
  - exists rs, h'. split; [reflexivity|].
    destruct (X17_choice_tier_entries _ _ _ _ _ _ _ E) as (Hent & Hnone & Hlog).
    split; [exact Hent|]. split; [exact Hnone|exact Hlog].
  - vm_compute in E. discriminate E.
Defined.

Lemma mapInnate_result trait types k h r h' :
  Advantages.mapInnate trait types k h = Eff.Ok (r, h') ->
  if knownIn types k
  then entryOf "innate" trait types k r /\ Eff.log h' = Eff.log h
  else r = None /\ Eff.log h' = Eff.log h ++ [Advantages.unknownType trait k].
Proof.
  unfold Advantages.mapInnate, knownIn, Eff.bind, Eff.lift, Eff.ret.
  destruct (Advantages.labelOf types k) as [lbl|] eqn:Eg.
  - destruct (Style.buildStyleString (t_color trait)) as [st|]; [|discriminate].
    simpl. intros [= <- <-]. split; [|reflexivity].
    unfold entryOf. eexists _, lbl. repeat split; try reflexivity. exact Eg.
  - simpl. intros [= <- <-]. split; reflexivity.
Qed.

Lemma innate_results trait types keys h rs h' :
  Eff.mapM (Advantages.mapInnate trait types) keys h = Eff.Ok (rs, h') ->
  Forall2 (fun k r => if knownIn types k then entryOf "innate" trait types k r
                      else r = None) keys rs
  /\ Eff.log h' = Eff.log h ++ map (Advantages.unknownType trait)
                     (List.filter (fun k => negb (knownIn types k)) keys).
Proof.
  revert h rs h'. induction keys as [|k keys IH]; intros h rs h' H; simpl in H.
  - injection H as <- <-. simpl. rewrite app_nil_r. split; [constructor|reflexivity].
  - unfold Eff.bind, Eff.ret in H.
    destruct (Advantages.mapInnate trait types k h) as [[r h1]|] eqn:E; [|discriminate].
    destruct (Eff.mapM _ keys h1) as [[rs' h2]|] eqn:E2; [|discriminate].
    injection H as <- <-. apply mapInnate_result in E.
    destruct (IH _ _ _ E2) as (Hrest & Hlog). simpl.
    destruct (knownIn types k) eqn:Ek; simpl.
    + destruct E as [Hr Hl]. split; [constructor; [by rewrite Ek|exact Hrest]|].
      rewrite Hlog, Hl. reflexivity.
    + destruct E as [-> Hl]. split; [constructor; [by rewrite Ek|exact Hrest]|].
      rewrite Hlog, Hl, <- app_assoc. reflexivity.
Qed.

(** X18: the array the innate tier builds for one list of a trait has
    one element per listed key, in order: for a key the table answers
    (by an entry of its own or by a member it inherits) an entry tagged
    "innate" with the provenance of the trait and the label the table
    answers, which is [undefined] for an inherited member; for a key
    the table does not answer the value [undefined]; the keys without
    answer are logged in order. *)
Theorem X18_innate_tier_results trait types keys h rs h' :
  Eff.mapM (Advantages.mapInnate trait types) keys h = Eff.Ok (rs, h') ->
  Forall2 (fun k r => if knownIn types k then entryOf "innate" trait types k r
                      else r = None) keys rs
  /\ Eff.log h' = Eff.log h ++ map (Advantages.unknownType trait)
                     (List.filter (fun k => negb (knownIn types k)) keys).
Proof. apply innate_results. Qed.

(** The keys [P2], [toString] and [bogus]: an entry with the label of
    the table, an entry without label, and [undefined]. *)
Lemma X18_innate_tier_results_witness :
  exists o1 o2 h',
    Eff.mapM (Advantages.mapInnate Examples.traitUnknown (PROFICIENCY_TYPES Examples.catalog))
      ["P2"; "toString"; "bogus"] Examples.heap0 = Eff.Ok ([Some o1; Some o2; None], h')
    /\ label (a_data o1) = Some "Shields" /\ label (a_data o2) = None
    /\ Eff.log h' = ["Unknown type bogus in B (T1)"].
Proof.
  destruct (Eff.mapM (Advantages.mapInnate Examples.traitUnknown
                        (PROFICIENCY_TYPES Examples.catalog))
              ["P2"; "toString"; "bogus"] Examples.heap0) as [[rs h']|e] eqn:E.
  - destruct (X18_innate_tier_results _ _ _ _ _ _ E) as (Hrs & Hlog).
    inversion Hrs as [|k1 r1 ks1 rs1 H1 Hrs1]; subst.
    inversion Hrs1 as [|k2 r2 ks2 rs2 H2 Hrs2]; subst.
    inversion Hrs2 as [|k3 r3 ks3 rs3 H3 Hrs3]; subst.
    inversion Hrs3; subst.
    vm_compute in H1, H2, H3.
    destruct H1 as (o1 & l1 & -> & [= <-] & _ & _ & _ & _ & L1).
    destruct H2 as (o2 & l2 & -> & [= <-] & _ & _ & _ & _ & L2).
    subst r3. exists o1, o2, h'. repeat split; assumption.
  - vm_compute in E. discriminate E.
Defined.

(** ** A trait choice in the pass that creates it *)

Lemma reduce_no_chosen trait name types choices : forall advs h,
  (forall s, In s choices -> cs_chosenValues s = []) ->
  Eff.foldM (Advantages.reduceTraitChoice trait name types) advs choices h
  = Eff.Ok (advs, h).
Proof.
  induction choices as [|s choices IH]; intros advs h H; [reflexivity|].
  simpl. unfold Eff.bind.
  assert (E : Advantages.reduceTraitChoice trait name types advs s h = Eff.Ok (advs, h)).
  { unfold Advantages.reduceTraitChoice. rewrite (H s (or_introl eq_refl)).
    destruct (negb _); reflexivity. }
  rewrite E. apply IH. intros s' Hs'. apply H. by right.
Qed.

Lemma addChoices_no_chosen tc name types set h :
  (forall s, In s (tc_choices tc) -> cs_chosenValues s = []) ->
  Advantages.addChoices tc name types set h = Eff.Ok (set, h).
Proof.
  intros H. unfold Advantages.addChoices, Eff.bind.
  rewrite reduce_no_chosen by exact H. reflexivity.
Qed.

(** X20: a trait choice as the reconciler creates it goes through the
    evaluator and the choice tier of the same pass without
    contributing anything: all its slots are created without chosen
    values, so the four sets and the log are left as they were. *)
Theorem X20_new_choice_contributes_nothing c (t : Trait) sets h :
  let tc := Builder.evaluate c (freshChoice t) in
  (forall s, In s (tc_choices tc) -> cs_chosenValues s = [])
  /\ Advantages.choiceStep c sets tc h = Eff.Ok (sets, h).
Proof.
  simpl.
  assert (Hempty : forall s, In s (tc_choices (Builder.evaluate c (freshChoice t))) ->
                             cs_chosenValues s = []).
  { destruct (selections_preserved c (freshChoice t)) as (created & Hsel & _).
    simpl in Hsel. intros s Hs. apply (in_map selection) in Hs. rewrite Hsel in Hs.
    apply in_map_iff in Hs. destruct Hs as (k & Hk & _). unfold selection in Hk.
    congruence. }
  split; [exact Hempty|].
  destruct sets as [[[p r] l] s]. unfold Advantages.choiceStep, Eff.bind.
  repeat (rewrite addChoices_no_chosen by exact Hempty; cbv beta iota).
  reflexivity.
Qed.

(** ** What the three tiers leave in a set *)

Lemma allocated_nil h : allocated h h [].
Proof. unfold allocated. simpl. repeat split; [lia|constructor|constructor]. Qed.

Lemma allocated_app h h1 h2 a b :
  allocated h h1 a -> allocated h1 h2 b -> allocated h h2 (a ++ b).
Proof.
  intros (Hle1 & Ha & Hna) (Hle2 & Hb & Hnb). unfold allocated.
  rewrite omap_app, map_app. split; [lia|]. split.
  - apply Forall_app. split.
    + eapply Forall_impl; [exact Ha|]. simpl. intros; lia.
    + eapply Forall_impl; [exact Hb|]. simpl. intros; lia.
  - apply NoDup_app. split; [exact Hna|]. split; [|exact Hnb].
    intros n Hn1 Hn2. apply list_elem_of_In, in_map_iff in Hn1, Hn2.
    destruct Hn1 as (o1 & <- & Ho1), Hn2 as (o2 & Heq & Ho2).
    rewrite Forall_forall in Ha, Hb.
    specialize (Ha o1 (proj2 (list_elem_of_In _ _) Ho1)).
    specialize (Hb o2 (proj2 (list_elem_of_In _ _) Ho2)). simpl in *. lia.
Qed.

Lemma allocated_one h a :
  allocated h {| Eff.next_oid := S (Eff.next_oid h); Eff.log := Eff.log h |}
    [Some {| a_oid := Eff.next_oid h; a_data := a |}].
Proof.
  unfold allocated. simpl. split; [lia|]. split.
  - constructor; [simpl; lia|constructor].
  - apply NoDup_singleton.
Qed.

Lemma allocated_log h msg :
  allocated h {| Eff.next_oid := Eff.next_oid h; Eff.log := msg |} [].
Proof. unfold allocated. simpl. repeat split; [lia|constructor|constructor]. Qed.

Lemma mapManualData_alloc types v h r h' :
  Advantages.mapManualData types v h = Eff.Ok (r, h') ->
  allocated h h' [r]
  /\ exists o, r = Some o /\ matches types (dueManual v) o.
Proof.
  unfold Advantages.mapManualData, Eff.bind, Eff.ret.
  destruct (Advantages.labelOf types (mv_value v)) as [lbl|] eqn:El; [|discriminate].
  simpl. intros [= <- <-]. split; [apply allocated_one|].
  eexists. split; [reflexivity|]. split; [reflexivity|exact El].
Qed.

Lemma mapInnate_alloc trait types k h r h' :
  Advantages.mapInnate trait types k h = Eff.Ok (r, h') -> allocated h h' [r].
Proof.
  unfold Advantages.mapInnate, Eff.bind, Eff.lift, Eff.ret.
  destruct (Advantages.labelOf types k).
  - destruct (Style.buildStyleString (t_color trait)); [|discriminate].
    simpl. intros [= <- <-]. apply allocated_one.
  - simpl. intros [= <- <-]. apply allocated_log.
Qed.

Lemma mapM_alloc {A} (f : A -> Eff.M (option AdvObj)) l :
  (forall x h r h', f x h = Eff.Ok (r, h') -> allocated h h' [r]) ->
  forall h rs h', Eff.mapM f l h = Eff.Ok (rs, h') -> allocated h h' rs.
Proof.
  intros Hf. induction l as [|x l IH]; intros h rs h' H; simpl in H.
  - injection H as <- <-. apply allocated_nil.
  - unfold Eff.bind, Eff.ret in H.
    destruct (f x h) as [[r h1]|] eqn:E; [|discriminate].
    destruct (Eff.mapM f l h1) as [[rs' h2]|] eqn:E2; [|discriminate].
    injection H as <- <-.
    apply (allocated_app h h1 h2 [r] rs'); [eapply Hf; eauto|eapply IH; eauto].
Qed.

(** What holds of every call holds of the results of [map], in order. *)
Lemma mapM_Forall2 {A B} (f : A -> Eff.M B) (R : A -> B -> Prop) l :
  (forall x h r h', f x h = Eff.Ok (r, h') -> R x r) ->
  forall h rs h', Eff.mapM f l h = Eff.Ok (rs, h') -> Forall2 R l rs.
Proof.
  intros Hf. induction l as [|x l IH]; intros h rs h' H; simpl in H.
  - injection H as <- <-. constructor.
  - unfold Eff.bind, Eff.ret in H.
    destruct (f x h) as [[r h1]|] eqn:E; [|discriminate].
    destruct (Eff.mapM f l h1) as [[rs' h2]|] eqn:E2; [|discriminate].
    injection H as <- <-. constructor; [eapply Hf; eauto|eapply IH; eauto].
Qed.

Lemma reduceValue_alloc trait types advs v h rs h' :
  Advantages.reduceValue trait types advs v h = Eff.Ok (rs, h') ->
  exists new, rs = advs ++ new /\ allocated h h' new.
Proof.
  unfold Advantages.reduceValue, Eff.bind, Eff.lift, Eff.ret.
  destruct (Advantages.labelOf types v).
  - destruct (Style.buildStyleString (t_color trait)); [|discriminate].
    simpl. intros [= <- <-]. eexists. split; [reflexivity|apply allocated_one].
  - simpl. intros [= <- <-]. exists []. rewrite app_nil_r.
    split; [reflexivity|apply allocated_log].
Qed.

Lemma foldM_alloc {B} (f : list (option AdvObj) -> B -> Eff.M (list (option AdvObj))) l :
  (forall advs x h rs h', f advs x h = Eff.Ok (rs, h') ->
     exists new, rs = advs ++ new /\ allocated h h' new) ->
  forall advs h rs h', Eff.foldM f advs l h = Eff.Ok (rs, h') ->
    exists new, rs = advs ++ new /\ allocated h h' new.
Proof.
  intros Hf. induction l as [|x l IH]; intros advs h rs h' H; simpl in H.
  - injection H as <- <-. exists []. rewrite app_nil_r. split; [reflexivity|].
    apply allocated_nil.
  - unfold Eff.bind in H. destruct (f advs x h) as [[a1 h1]|] eqn:E; [|discriminate].
    destruct (Hf _ _ _ _ _ E) as (n1 & -> & Hn1).
    destruct (IH _ _ _ _ H) as (n2 & -> & Hn2).
    exists (n1 ++ n2). rewrite <- app_assoc. split; [reflexivity|].
    eapply allocated_app; eauto.
Qed.

Lemma reduceTraitChoice_alloc trait name types advs s h rs h' :
  Advantages.reduceTraitChoice trait name types advs s h = Eff.Ok (rs, h') ->
  exists new, rs = advs ++ new /\ allocated h h' new.
Proof.
  unfold Advantages.reduceTraitChoice. destruct (negb _).
  - intros [= <- <-]. exists []. rewrite app_nil_r. split; [reflexivity|].
    apply allocated_nil.
  - apply foldM_alloc. apply reduceValue_alloc.
Qed.

Lemma below_mono n m S : (n <= m)%nat -> below n S -> below m S.
Proof.
  intros Hle [Hb Hnd]. split; [|exact Hnd].
  eapply Forall_impl; [exact Hb|]. simpl. intros; lia.
Qed.

(** Adding objects with identities of their own appends every one of them. *)
Lemma set_add_all_defined rs : forall acc,
  NoDup (map a_oid (omap id (acc ++ rs))) ->
  omap id (foldl (Coll.set_add same_adv) acc rs) = omap id acc ++ omap id rs.
Proof.
  induction rs as [|x rs IH]; intros acc Hnd; simpl.
  - by rewrite app_nil_r.
  - destruct x as [o|].
    + assert (E : Coll.set_add same_adv acc (Some o) = acc ++ [Some o]).
      { unfold Coll.set_add. destruct (existsb _ acc) eqn:Ex; [|reflexivity].
        exfalso. apply existsb_exists in Ex. destruct Ex as ([o'|] & Hin & Hs); [|discriminate].
        simpl in Hs. apply Nat.eqb_eq in Hs.
        rewrite omap_app, map_app in Hnd. simpl in Hnd.
        apply NoDup_app in Hnd. destruct Hnd as (_ & Hdisj & _).
        apply (Hdisj (a_oid o')).
        - apply list_elem_of_In, in_map, list_elem_of_In, list_elem_of_omap.
          exists (Some o'). split; [by apply list_elem_of_In|reflexivity].
        - rewrite <- Hs. apply elem_of_cons. by left. }
      rewrite E, IH.
      * rewrite omap_app. simpl. by rewrite <- app_assoc.
      * by rewrite <- app_assoc.
    + assert (E : omap id (Coll.set_add same_adv acc None) = omap id acc).
      { unfold Coll.set_add. destruct (existsb _ acc); [reflexivity|].
        rewrite omap_app. simpl. by rewrite app_nil_r. }
      simpl. rewrite IH, E; [reflexivity|].
      rewrite omap_app, E, <- omap_app. rewrite omap_app in Hnd |- *. exact Hnd.
Qed.

Lemma set_add_all_below S rs h h' n :
  below n S -> (n <= Eff.next_oid h)%nat -> allocated h h' rs ->
  omap id (Coll.set_add_all same_adv S rs) = omap id S ++ omap id rs
  /\ below (Eff.next_oid h') (Coll.set_add_all same_adv S rs).
Proof.
  intros [Hb Hnd] Hle (Hle' & Ha & Hna).
  assert (Hall : NoDup (map a_oid (omap id (S ++ rs)))).
  { rewrite omap_app, map_app. apply NoDup_app. split; [exact Hnd|]. split; [|exact Hna].
    intros k Hk1 Hk2. apply list_elem_of_In, in_map_iff in Hk1, Hk2.
    destruct Hk1 as (o1 & <- & Ho1), Hk2 as (o2 & Heq & Ho2).
    rewrite Forall_forall in Hb, Ha.
    specialize (Hb o1 (proj2 (list_elem_of_In _ _) Ho1)).
    specialize (Ha o2 (proj2 (list_elem_of_In _ _) Ho2)). simpl in *. lia. }
  unfold Coll.set_add_all. pose proof (set_add_all_defined rs S Hall) as E.
  split; [exact E|]. unfold below. rewrite E. split.
  - apply Forall_app. split.
    + eapply Forall_impl; [exact Hb|]. simpl. intros; lia.
    + eapply Forall_impl; [exact Ha|]. simpl. intros; lia.
  - rewrite <- omap_app. exact Hall.
Qed.

Lemma entryOf_matches tier trait types k o :
  entryOf tier trait types k (Some o) ->
  matches types (tier, Advantages.sourceLabel trait, Key k) o.
Proof.
  intros (o' & lbl & [= <-] & Hl & Ht & Hs & _ & Hv & Hlbl).
  unfold matches, summary. rewrite Ht, Hs, Hv. split; [reflexivity|].
  simpl. rewrite Hl, Hlbl. reflexivity.
Qed.

Lemma innate_results_matches trait types keys rs :
  Forall2 (fun k r => if knownIn types k then entryOf "innate" trait types k r
                      else r = None) keys rs ->
  Forall2 (matches types) (map (dueInnate trait) (List.filter (knownIn types) keys))
    (omap id rs).
Proof.
  induction 1 as [|k r keys rs Hkr Hrest IH]; [constructor|]. simpl.
  destruct (knownIn types k).
  - destruct Hkr as (o & lbl & -> & Hrest'). simpl. constructor; [|exact IH].
    apply (entryOf_matches "innate"). exists o, lbl. split; [reflexivity|exact Hrest'].
  - subst r. simpl. exact IH.
Qed.

Lemma choice_results_matches trait types vs rs :
  Forall2 (entryOf "choice" trait types) vs rs ->
  Forall2 (matches types) (map (dueChoice trait) vs) (omap id rs).
Proof.
  induction 1 as [|v r vs rs Hvr Hrest IH]; [constructor|].
  destruct Hvr as (o & lbl & -> & Hrest'). simpl. constructor; [|exact IH].
  apply (entryOf_matches "choice"). exists o, lbl. split; [reflexivity|exact Hrest'].
Qed.

Lemma manual_results_matches types vs rs :
  Forall2 (fun v r => exists o, r = Some o /\ matches types (dueManual v) o) vs rs ->
  Forall2 (matches types) (map dueManual vs) (omap id rs).
Proof.
  induction 1 as [|v r vs rs Hvr Hrest IH]; [constructor|].
  destruct Hvr as (o & -> & Hm). simpl. constructor; [exact Hm|exact IH].
Qed.

Lemma grows_nil types S : grows types [] S S.
Proof. exists []. split; [by rewrite app_nil_r|constructor]. Qed.

Lemma grows_app types d1 d2 S S1 S2 :
  grows types d1 S S1 -> grows types d2 S1 S2 -> grows types (d1 ++ d2) S S2.
Proof.
  intros (n1 & E1 & H1) (n2 & E2 & H2). exists (n1 ++ n2).
  split; [by rewrite E2, E1, <- app_assoc|by apply Forall2_app].
Qed.

Lemma setMap_content types l h ys h' :
  Advantages.setMap (Advantages.mapManualData types) l h = Eff.Ok (ys, h') ->
  (Eff.next_oid h <= Eff.next_oid h')%nat
  /\ below (Eff.next_oid h') ys
  /\ Forall2 (matches types) (map dueManual l) (omap id ys).
Proof.
  unfold Advantages.setMap, Eff.bind, Eff.ret. intros H.
  destruct (Eff.mapM _ l h) as [[rs h1]|] eqn:E; [|discriminate].
  destruct (_ =? _)%nat; [|discriminate]. injection H as <- <-.
  pose proof (mapM_alloc _ l (fun x h r h' Hx => proj1 (mapManualData_alloc types x h r h' Hx))
                _ _ _ E) as Ha.
  pose proof (mapM_Forall2 _ (fun v r => exists o, r = Some o /\ matches types (dueManual v) o)
                l (fun x h r h' Hx => proj2 (mapManualData_alloc types x h r h' Hx)) _ _ _ E)
    as Hm.
  assert (Hnil : below 0 []) by (split; constructor).
  destruct (set_add_all_below [] rs h h1 0 Hnil ltac:(lia) Ha) as [Eo Hb].
  split; [apply Ha|]. split; [exact Hb|].
  unfold Coll.set_of. unfold Coll.set_add_all in Eo. rewrite Eo. simpl.
  by apply manual_results_matches.
Qed.

Lemma addInnate_content trait types keys S h S' h' n :
  below n S -> (n <= Eff.next_oid h)%nat ->
  Advantages.addInnate trait types keys S h = Eff.Ok (S', h') ->
  (Eff.next_oid h <= Eff.next_oid h')%nat
  /\ below (Eff.next_oid h') S'
  /\ grows types (map (dueInnate trait) (List.filter (knownIn types) keys)) S S'.
Proof.
  intros Hb Hle H. unfold Advantages.addInnate, Eff.bind, Eff.ret in H.
  destruct (Eff.mapM _ keys h) as [[rs h1]|] eqn:E; [|discriminate].
  injection H as <- <-.
  pose proof (mapM_alloc _ keys (mapInnate_alloc trait types) _ _ _ E) as Ha.
  destruct (set_add_all_below S rs h h1 n Hb Hle Ha) as [Eo Hb'].
  split; [apply Ha|]. split; [exact Hb'|].
  exists (omap id rs). split; [exact Eo|].
  apply innate_results_matches. eapply innate_results. exact E.
Qed.

Lemma addChoices_content tc name types S h S' h' n :
  below n S -> (n <= Eff.next_oid h)%nat ->
  Advantages.addChoices tc name types S h = Eff.Ok (S', h') ->
  (Eff.next_oid h <= Eff.next_oid h')%nat
  /\ below (Eff.next_oid h') S'
  /\ grows types (map (dueChoice (tc_trait tc))
                    (List.filter (knownIn types) (chosenFor name (tc_choices tc)))) S S'.
Proof.
  intros Hb Hle H. unfold Advantages.addChoices, Eff.bind, Eff.ret in H.
  destruct (Eff.foldM _ [] (tc_choices tc) h) as [[rs h1]|] eqn:E; [|discriminate].
  injection H as <- <-.
  destruct (foldM_alloc _ _ (reduceTraitChoice_alloc (tc_trait tc) name types) _ _ _ _ E)
    as (new & -> & Ha). simpl in *.
  destruct (set_add_all_below S new h h1 n Hb Hle Ha) as [Eo Hb'].
  split; [apply Ha|]. split; [exact Hb'|].
  exists (omap id new). split; [exact Eo|].
  apply foldM_reduceTraitChoice in E. destruct E as (new' & Hnew & Hf & _).
  simpl in Hnew. subst new'. by apply choice_results_matches.
Qed.

Lemma innateStep_content c sets trait h sets' h' :
  (forall k, below (Eff.next_oid h) (pick sets k)) ->
  Advantages.innateStep c sets trait h = Eff.Ok (sets', h') ->
  (Eff.next_oid h <= Eff.next_oid h')%nat
  /\ (forall k, below (Eff.next_oid h') (pick sets' k))
  /\ (forall k, grows (tableOf c k)
                  (map (dueInnate trait)
                       (List.filter (knownIn (tableOf c k)) (innateOf k trait)))
                  (pick sets k) (pick sets' k)).
Proof.
  destruct sets as [[[p r] l] s]. intros Hb H.
  pose proof (Hb Proficiency) as Hp. pose proof (Hb Resistance) as Hr.
  pose proof (Hb Language) as Hl. pose proof (Hb SaveAdvantage) as Hs. simpl in Hp, Hr, Hl, Hs.
  unfold Advantages.innateStep, Eff.bind, Eff.ret in H.
  destruct (Advantages.addInnate trait (PROFICIENCY_TYPES c) _ p h)
    as [[p1 h1]|] eqn:E1; [|discriminate].
  destruct (Advantages.addInnate trait (DAMAGE_TYPES c) _ r h1)
    as [[r1 h2]|] eqn:E2; [|discriminate].
  destruct (Advantages.addInnate trait (LANGUAGE_TYPES c) _ l h2)
    as [[l1 h3]|] eqn:E3; [|discriminate].
  destruct (Advantages.addInnate trait (SAVE_TYPES c) _ s h3)
    as [[s1 h4]|] eqn:E4; [|discriminate].
  injection H as <- <-.
  destruct (addInnate_content _ _ _ _ _ _ _ _ Hp (Nat.le_refl _) E1) as (L1 & B1 & C1).
  destruct (addInnate_content _ _ _ _ _ _ _ _ Hr L1 E2) as (L2 & B2 & C2).
  assert (L12 : (Eff.next_oid h <= Eff.next_oid h2)%nat) by lia.
  destruct (addInnate_content _ _ _ _ _ _ _ (Eff.next_oid h) Hl L12 E3) as (L3 & B3 & C3).
  assert (L13 : (Eff.next_oid h <= Eff.next_oid h3)%nat) by lia.
  destruct (addInnate_content _ _ _ _ _ _ _ (Eff.next_oid h) Hs L13 E4) as (L4 & B4 & C4).
  split; [lia|]. split.
  - intros []; simpl; [eapply below_mono; [|exact B1]; lia
                      |eapply below_mono; [|exact B2]; lia
                      |eapply below_mono; [|exact B3]; lia
                      |exact B4].
  - intros []; simpl; assumption.
Qed.

Lemma choiceStep_content c sets tc h sets' h' :
  (forall k, below (Eff.next_oid h) (pick sets k)) ->
  Advantages.choiceStep c sets tc h = Eff.Ok (sets', h') ->
  (Eff.next_oid h <= Eff.next_oid h')%nat
  /\ (forall k, below (Eff.next_oid h') (pick sets' k))
  /\ (forall k, grows (tableOf c k)
                  (map (dueChoice (tc_trait tc))
                       (List.filter (knownIn (tableOf c k))
                                    (chosenFor (nameOf k) (tc_choices tc))))
                  (pick sets k) (pick sets' k)).
Proof.
  destruct sets as [[[p r] l] s]. intros Hb H.
  pose proof (Hb Proficiency) as Hp. pose proof (Hb Resistance) as Hr.
  pose proof (Hb Language) as Hl. pose proof (Hb SaveAdvantage) as Hs. simpl in Hp, Hr, Hl, Hs.
  unfold Advantages.choiceStep, Eff.bind, Eff.ret in H.
  destruct (Advantages.addChoices tc "PROFICIENCY_TYPES" _ p h)
    as [[p1 h1]|] eqn:E1; [|discriminate].
  destruct (Advantages.addChoices tc "DAMAGE_TYPES" _ r h1)
    as [[r1 h2]|] eqn:E2; [|discriminate].
  destruct (Advantages.addChoices tc "LANGUAGE_TYPES" _ l h2)
    as [[l1 h3]|] eqn:E3; [|discriminate].
  destruct (Advantages.addChoices tc "SAVE_TYPES" _ s h3)
    as [[s1 h4]|] eqn:E4; [|discriminate].
  injection H as <- <-.
  destruct (addChoices_content _ _ _ _ _ _ _ _ Hp (Nat.le_refl _) E1) as (L1 & B1 & C1).
  destruct (addChoices_content _ _ _ _ _ _ _ _ Hr L1 E2) as (L2 & B2 & C2).
  assert (L12 : (Eff.next_oid h <= Eff.next_oid h2)%nat) by lia.
  destruct (addChoices_content _ _ _ _ _ _ _ (Eff.next_oid h) Hl L12 E3) as (L3 & B3 & C3).
  assert (L13 : (Eff.next_oid h <= Eff.next_oid h3)%nat) by lia.
  destruct (addChoices_content _ _ _ _ _ _ _ (Eff.next_oid h) Hs L13 E4) as (L4 & B4 & C4).
  split; [lia|]. split.
  - intros []; simpl; [eapply below_mono; [|exact B1]; lia
                      |eapply below_mono; [|exact B2]; lia
                      |eapply below_mono; [|exact B3]; lia
                      |exact B4].
  - intros []; simpl; assumption.
Qed.

Lemma foldM_innate_content c trs : forall sets h sets' h',
  (forall k, below (Eff.next_oid h) (pick sets k)) ->
  Eff.foldM (Advantages.innateStep c) sets trs h = Eff.Ok (sets', h') ->
  (Eff.next_oid h <= Eff.next_oid h')%nat
  /\ (forall k, below (Eff.next_oid h') (pick sets' k))
  /\ (forall k, grows (tableOf c k)
                  (concat (map (fun t => map (dueInnate t)
                                  (List.filter (knownIn (tableOf c k)) (innateOf k t))) trs))
                  (pick sets k) (pick sets' k)).
Proof.
  induction trs as [|t trs IH]; intros sets h sets' h' Hb H.
  - simpl in H. unfold Eff.ret in H. injection H as <- <-.
    split; [lia|]. split; [exact Hb|]. intros k. apply grows_nil.
  - cbn [Eff.foldM] in H. unfold Eff.bind in H.
    destruct (Advantages.innateStep c sets t h) as [[sets1 h1]|] eqn:E; [|discriminate].
    destruct (innateStep_content _ _ _ _ _ _ Hb E) as (L1 & B1 & G1).
    destruct (IH _ _ _ _ B1 H) as (L2 & B2 & G2).
    split; [lia|]. split; [exact B2|].
    intros k. simpl. eapply grows_app; [apply G1|apply G2].
Qed.

Lemma foldM_choice_content c tcs : forall sets h sets' h',
  (forall k, below (Eff.next_oid h) (pick sets k)) ->
  Eff.foldM (Advantages.choiceStep c) sets tcs h = Eff.Ok (sets', h') ->
  (Eff.next_oid h <= Eff.next_oid h')%nat
  /\ (forall k, below (Eff.next_oid h') (pick sets' k))
  /\ (forall k, grows (tableOf c k)
                  (concat (map (fun tc => map (dueChoice (tc_trait tc))
                                  (List.filter (knownIn (tableOf c k))
                                     (chosenFor (nameOf k) (tc_choices tc)))) tcs))
                  (pick sets k) (pick sets' k)).
Proof.
  induction tcs as [|t tcs IH]; intros sets h sets' h' Hb H.
  - simpl in H. unfold Eff.ret in H. injection H as <- <-.
    split; [lia|]. split; [exact Hb|]. intros k. apply grows_nil.
  - cbn [Eff.foldM] in H. unfold Eff.bind in H.
    destruct (Advantages.choiceStep c sets t h) as [[sets1 h1]|] eqn:E; [|discriminate].
    destruct (choiceStep_content _ _ _ _ _ _ Hb E) as (L1 & B1 & G1).
    destruct (IH _ _ _ _ B1 H) as (L2 & B2 & G2).
    split; [lia|]. split; [exact B2|].
    intros k. simpl. eapply grows_app; [apply G1|apply G2].
Qed.

(** The steps of a completed aggregation. *)
Lemma prepareAdvantages_inv {Abl} cmp eng c (sys : System Abl ManualValue) h sys' h' :
  Advantages.prepareAdvantages cmp eng c sys h = Eff.Ok (sys', h') ->
  exists p0 h1 r0 h2 l0 h3 s0 h4 sets1 h5 sets2,
    Advantages.setMap (Advantages.mapManualData (PROFICIENCY_TYPES c)) (proficiencies sys) h
    = Eff.Ok (p0, h1)
    /\ Advantages.setMap (Advantages.mapManualData (DAMAGE_TYPES c)) (resistances sys) h1
       = Eff.Ok (r0, h2)
    /\ Advantages.setMap (Advantages.mapManualData (LANGUAGE_TYPES c)) (languages sys) h2
       = Eff.Ok (l0, h3)
    /\ Advantages.setMap (Advantages.mapManualData (SAVE_TYPES c)) (saveAdvantages sys) h3
       = Eff.Ok (s0, h4)
    /\ Eff.foldM (Advantages.innateStep c) (p0, r0, l0, s0) (traits sys) h4
       = Eff.Ok (sets1, h5)
    /\ Eff.foldM (Advantages.choiceStep c) sets1 (traitChoices sys) h5 = Eff.Ok (sets2, h')
    /\ (forall k, Advantages.sortSet cmp eng (pick sets2 k) = Eff.Ok (setOf sys' k))
    /\ abilities sys' = abilities sys
    /\ traits sys' = traits sys /\ traitChoices sys' = traitChoices sys
    /\ background sys' = background sys /\ heritage sys' = heritage sys
    /\ lineage sys' = lineage sys /\ class sys' = class sys
    /\ backgroundId sys' = backgroundId sys /\ heritageId sys' = heritageId sys
    /\ lineageId sys' = lineageId sys /\ classId sys' = classId sys.
Proof.
  unfold Advantages.prepareAdvantages, Eff.bind, Eff.ret, Eff.lift. intros H.
  destruct (Advantages.setMap _ (proficiencies sys) h) as [[p0 h1]|] eqn:E1; [|discriminate].
  destruct (Advantages.setMap _ (resistances sys) h1) as [[r0 h2]|] eqn:E2; [|discriminate].
  destruct (Advantages.setMap _ (languages sys) h2) as [[l0 h3]|] eqn:E3; [|discriminate].
  destruct (Advantages.setMap _ (saveAdvantages sys) h3) as [[s0 h4]|] eqn:E4;
    [|discriminate].
  destruct (Eff.foldM (Advantages.innateStep c) _ (traits sys) h4)
    as [[sets1 h5]|] eqn:E5; [|discriminate].
  destruct (Eff.foldM (Advantages.choiceStep c) sets1 (traitChoices sys) h5)
    as [[[[[p r] l] s] h6]|] eqn:E6; [|discriminate].
  destruct (Advantages.sortSet cmp eng p) as [p'|] eqn:S1; [|discriminate].
  destruct (Advantages.sortSet cmp eng r) as [r'|] eqn:S2; [|discriminate].
  destruct (Advantages.sortSet cmp eng l) as [l'|] eqn:S3; [|discriminate].
  destruct (Advantages.sortSet cmp eng s) as [s'|] eqn:S4; [|discriminate].
  injection H as <- <-.
  exists p0, h1, r0, h2, l0, h3, s0, h4, sets1, h5, (p, r, l, s).
  repeat (split; [first [assumption | reflexivity | intros []; simpl; assumption]|]).
  reflexivity.
Qed.

(** The four sets when the three tiers are through: no object twice,
    and exactly the entries that are due, in the order of the tiers. *)
Lemma loops_content {Abl} c (sys : System Abl ManualValue)
    h p0 h1 r0 h2 l0 h3 s0 h4 sets1 h5 sets2 h6 :
  Advantages.setMap (Advantages.mapManualData (PROFICIENCY_TYPES c)) (proficiencies sys) h
  = Eff.Ok (p0, h1) ->
  Advantages.setMap (Advantages.mapManualData (DAMAGE_TYPES c)) (resistances sys) h1
  = Eff.Ok (r0, h2) ->
  Advantages.setMap (Advantages.mapManualData (LANGUAGE_TYPES c)) (languages sys) h2
  = Eff.Ok (l0, h3) ->
  Advantages.setMap (Advantages.mapManualData (SAVE_TYPES c)) (saveAdvantages sys) h3
  = Eff.Ok (s0, h4) ->
  Eff.foldM (Advantages.innateStep c) (p0, r0, l0, s0) (traits sys) h4 = Eff.Ok (sets1, h5) ->
  Eff.foldM (Advantages.choiceStep c) sets1 (traitChoices sys) h5 = Eff.Ok (sets2, h6) ->
  (forall k, NoDup (map a_oid (omap id (pick sets2 k))))
  /\ (forall k, Forall2 (matches (tableOf c k)) (dueOf c sys k) (omap id (pick sets2 k))).
Proof.
  intros E1 E2 E3 E4 E5 E6.
  destruct (setMap_content _ _ _ _ _ E1) as (L1 & B1 & C1).
  destruct (setMap_content _ _ _ _ _ E2) as (L2 & B2 & C2).
  destruct (setMap_content _ _ _ _ _ E3) as (L3 & B3 & C3).
  destruct (setMap_content _ _ _ _ _ E4) as (L4 & B4 & C4).
  assert (B0 : forall k, below (Eff.next_oid h4) (pick (p0, r0, l0, s0) k)).
  { intros []; simpl; [eapply below_mono; [|exact B1]; lia
                      |eapply below_mono; [|exact B2]; lia
                      |eapply below_mono; [|exact B3]; lia
                      |exact B4]. }
  destruct (foldM_innate_content _ _ _ _ _ _ B0 E5) as (L5 & B5 & G5).
  destruct (foldM_choice_content _ _ _ _ _ _ B5 E6) as (L6 & B6 & G6).
  split; [intros k; apply (B6 k)|].
  intros k. destruct (G5 k) as (n1 & En1 & F1). destruct (G6 k) as (n2 & En2 & F2).
  rewrite En2, En1, <- app_assoc. unfold dueOf, entriesDue.
  apply Forall2_app; [|by apply Forall2_app].
  destruct k; simpl; assumption.
Qed.

Lemma matches_labelled types dues os :
  Forall2 (matches types) dues os -> noneInherited types dues ->
  forallb Advantages.labelled os = true.
Proof.
  unfold noneInherited.
  induction 1 as [|d o dues os [_ Hl] _ IH]; intros Hn; [reflexivity|].
  inversion Hn as [|? ? Hd Hrest]; subst. simpl. rewrite (IH Hrest), andb_true_r.
  unfold Advantages.labelled. destruct (label (a_data o)); [reflexivity|].
  exfalso. exact (Hd Hl).
Qed.

(** ** Shape of the final sets *)

Lemma set_add_all_Some {A} (same : option A -> option A -> bool) (xs : list A) :
  forall acc, exists xs', foldl (Coll.set_add same) acc (map Some xs) = acc ++ map Some xs'.
Proof.
  induction xs as [|x xs IH]; intros acc; simpl.
  - exists []. by rewrite app_nil_r.
  - unfold Coll.set_add at 2. destruct (existsb (same (Some x)) acc).
    + apply IH.
    + destruct (IH (acc ++ [Some x])) as (xs' & ->). exists (x :: xs').
      by rewrite <- app_assoc.
Qed.

Lemma set_add_all_undefined (ds : list AdvObj) (nones : list (option AdvObj)) :
  (forall x, In x nones -> x = None) ->
  foldl (Coll.set_add same_adv) (map Some ds) nones
  = map Some ds ++ match nones with [] => [] | _ => [None] end.
Proof.
  intros Hn. destruct nones as [|n nones]; [by rewrite app_nil_r|].
  rewrite (Hn n (or_introl eq_refl)). simpl.
  assert (E : Coll.set_add same_adv (map Some ds) None = map Some ds ++ [None]).
  { unfold Coll.set_add. assert (Hx : existsb (same_adv None) (map Some ds) = false).
    { induction ds; [reflexivity|]. simpl. exact IHds. }
    rewrite Hx. reflexivity. }
  rewrite E. assert (Hrest : forall x, In x nones -> x = None)
    by (intros x Hx; apply Hn; by right).
  clear -Hrest. induction nones as [|m nones IH]; [reflexivity|]. simpl.
  rewrite (Hrest m (or_introl eq_refl)).
  assert (E : Coll.set_add same_adv (map Some ds ++ [None]) None = map Some ds ++ [None]).
  { unfold Coll.set_add. rewrite existsb_app. simpl. rewrite orb_true_r. reflexivity. }
  rewrite E. apply IH. intros x Hx. apply Hrest. by right.
Qed.

(** A Set made of entries followed by the [undefined]s of [l]. *)
Lemma set_of_entries_shape (xs : list AdvObj) (l : list (option AdvObj)) :
  exists ds,
    Coll.set_of same_adv (map Some xs ++ filter (fun x => x = None) l) = map Some ds
    \/ Coll.set_of same_adv (map Some xs ++ filter (fun x => x = None) l)
       = map Some ds ++ [None].
Proof.
  unfold Coll.set_of. rewrite foldl_app.
  destruct (set_add_all_Some same_adv xs []) as (ds & ->). simpl. exists ds.
  rewrite set_add_all_undefined.
  - destruct (filter _ l); [left; by rewrite app_nil_r|right; reflexivity].
  - intros x Hx. apply list_elem_of_In, list_elem_of_filter in Hx. tauto.
Qed.

Lemma set_of_entries_defined (xs : list AdvObj) (l : list (option AdvObj)) :
  NoDup (map a_oid xs) ->
  omap id (Coll.set_of same_adv (map Some xs ++ filter (fun x => x = None) l)) = xs.
Proof.
  intros Hnd. unfold Coll.set_of. rewrite set_add_all_defined.
  - simpl. rewrite omap_app, omap_id_Some, omap_id_nones, app_nil_r. reflexivity.
  - simpl. rewrite omap_app, omap_id_Some, omap_id_nones, app_nil_r. exact Hnd.
Qed.

Lemma sortSet_shape cmp eng l S :
  Advantages.sortSet cmp eng l = Eff.Ok S ->
  exists ds, S = map Some ds \/ S = map Some ds ++ [None].
Proof.
  unfold Advantages.sortSet, Coll.sortUndef.
  destruct (forallb Advantages.labelled (omap id l) || (length (omap id l) <=? 1)%nat).
  - intros [= <-]. apply set_of_entries_shape.
  - destruct (eng (omap id l)); [|discriminate]. intros [= <-]. apply set_of_entries_shape.
Qed.

(** With objects of distinct identity a completed sort keeps every
    entry, on an engine whose completed sort permutes the array. *)
Lemma sortSet_entries cmp eng S S' :
  (forall l l', eng l = Eff.Ok l' -> l' ≡ₚ l) ->
  NoDup (map a_oid (omap id S)) ->
  Advantages.sortSet cmp eng S = Eff.Ok S' ->
  omap id S' ≡ₚ omap id S.
Proof.
  intros Heng Hnd. unfold Advantages.sortSet, Coll.sortUndef.
  destruct (forallb Advantages.labelled (omap id S) || (length (omap id S) <=? 1)%nat).
  - intros [= <-]. rewrite set_of_entries_defined; [apply sort_Permutation|].
    rewrite (Permutation_map a_oid (sort_Permutation _ _)). exact Hnd.
  - destruct (eng (omap id S)) as [l'|] eqn:E; [|discriminate]. intros [= <-].
    pose proof (Heng _ _ E) as HP.
    rewrite set_of_entries_defined; [exact HP|].
    rewrite (Permutation_map a_oid HP). exact Hnd.
Qed.

Lemma sortSet_labelled_entries cmp eng S S' :
  forallb Advantages.labelled (omap id S) = true ->
  NoDup (map a_oid (omap id S)) ->
  Advantages.sortSet cmp eng S = Eff.Ok S' ->
  omap id S' = Coll.sort (Advantages.byLabel cmp) (omap id S).
Proof.
  intros Hl Hnd. rewrite sortSet_labelled by exact Hl. intros [= <-].
  unfold Coll.sortUndef. apply set_of_entries_defined.
  rewrite (Permutation_map a_oid (sort_Permutation _ _)). exact Hnd.
Qed.

(** X19: in each of the four final sets the value [undefined] occurs
    at most once and only as the very last element: the sort moves it
    behind the entries and the Set keeps a single one. *)
Theorem X19_undefined_last {Abl} cmp eng c (sys : System Abl ManualValue) h sys' h' :
  Advantages.prepareAdvantages cmp eng c sys h = Eff.Ok (sys', h') ->
  Forall (fun S => exists ds, S = map Some ds \/ S = map Some ds ++ [None])
    [proficiencies sys'; resistances sys'; languages sys'; saveAdvantages sys'].
Proof.
  intros H. apply prepareAdvantages_inv in H.
  destruct H as (p0 & h1 & r0 & h2 & l0 & h3 & s0 & h4 & sets1 & h5 & sets2 & H).
  destruct H as (_ & _ & _ & _ & _ & _ & Hsort & _).
  repeat constructor.
  - apply (sortSet_shape _ _ _ _ (Hsort Proficiency)).
  - apply (sortSet_shape _ _ _ _ (Hsort Resistance)).
  - apply (sortSet_shape _ _ _ _ (Hsort Language)).
  - apply (sortSet_shape _ _ _ _ (Hsort SaveAdvantage)).
Qed.

(** The trait with two unknown keys among three. *)
Lemma X19_undefined_last_witness :
  exists sys' h',
    Advantages.prepareAdvantages Examples.ordinalCompare Examples.strictEngine
      Examples.catalog
      (Examples.withTraits
         [Examples.traitWith
            {| in_proficiencies := ["nope"; "P2"; "bogus"]; in_resistances := [];
               in_languages := []; in_saveAdvantages := [] |} None] [] [])
      Examples.heap0 = Eff.Ok (sys', h')
    /\ exists ds, proficiencies sys' = map Some ds \/ proficiencies sys' = map Some ds ++ [None].
Proof.
  destruct (Advantages.prepareAdvantages _ _ _ _ Examples.heap0) as [[sys' h']|e] eqn:E.
  - exists sys', h'. split; [reflexivity|].
    pose proof (X19_undefined_last _ _ _ _ _ _ _ E) as H.
    inversion H as [|? ? Hp _]. exact Hp.
  - vm_compute in E. discriminate E.
Defined.

(** ** Exceptions of the whole aggregation *)

(** X16: when [prepareAdvantages] completes, the table answers every
    stored manual value (by an entry of its own or by a member it
    inherits) and every trait or trait choice that yields an innate or
    choice entry has a usable colour (none, or one with two adjacent
    word characters); a manual value without answer always makes it
    throw, innate keys and chosen values without answer never do.
    Conversely, when no entry is due to a member a table only inherits
    (every entry then has a label, and the final sort does not depend
    on the engine), these conditions make it complete. *)
Theorem X16_aggregation_completes_iff {Abl} cmp eng c (sys : System Abl ManualValue) h :
  let conditions :=
    manualKnown (PROFICIENCY_TYPES c) (proficiencies sys)
    /\ manualKnown (DAMAGE_TYPES c) (resistances sys)
    /\ manualKnown (LANGUAGE_TYPES c) (languages sys)
    /\ manualKnown (SAVE_TYPES c) (saveAdvantages sys)
    /\ (forall t, In t (traits sys) -> yieldsInnate c t -> usableColor (t_color t))
    /\ (forall tc, In tc (traitChoices sys) -> yieldsChoice c tc ->
                   usableColor (t_color (tc_trait tc))) in
  ((exists sys' h', Advantages.prepareAdvantages cmp eng c sys h = Eff.Ok (sys', h')) ->
   conditions)
  /\ ((forall k, noneInherited (tableOf c k) (dueOf c sys k)) ->
      conditions ->
      exists sys' h', Advantages.prepareAdvantages cmp eng c sys h = Eff.Ok (sys', h')).
Proof.
  simpl. split.
  - intros (sys' & h' & H). apply prepareAdvantages_inv in H.
    destruct H as (p0 & h1 & r0 & h2 & l0 & h3 & s0 & h4 & sets1 & h5 & sets2 & H).
    destruct H as (E1 & E2 & E3 & E4 & E5 & E6 & _).
    repeat split; try (eapply setMap_manual_inv; eassumption).
    + intros t Ht. destruct (foldM_In _ _ _ _ _ _ t E5 Ht) as (a1 & ha & a2 & hb & Hf).
      apply (proj1 (innateStep_ok c a1 t ha)). eauto.
    + intros tc Ht. destruct (foldM_In _ _ _ _ _ _ tc E6 Ht) as (a1 & ha & a2 & hb & Hf).
      apply (proj1 (choiceStep_ok c a1 tc ha)). eauto.
  - intros Hni (Hp & Hr & Hl & Hs & Ht & Htc).
    destruct (setMap_manual_ok _ _ h Hp) as (p0 & h1 & E1).
    destruct (setMap_manual_ok _ _ h1 Hr) as (r0 & h2 & E2).
    destruct (setMap_manual_ok _ _ h2 Hl) as (l0 & h3 & E3).
    destruct (setMap_manual_ok _ _ h3 Hs) as (s0 & h4 & E4).
    destruct (foldM_total (Advantages.innateStep c) (traits sys)) with
      (a := (p0, r0, l0, s0)) (h := h4) as (sets1 & h5 & E5).
    { intros a t h0 Hin. apply innateStep_ok. by apply Ht. }
    destruct (foldM_total (Advantages.choiceStep c) (traitChoices sys)) with
      (a := sets1) (h := h5) as (sets2 & h6 & E6).
    { intros a tc h0 Hin. apply choiceStep_ok. by apply Htc. }
    destruct (loops_content c sys _ _ _ _ _ _ _ _ _ _ _ _ _ E1 E2 E3 E4 E5 E6)
      as (_ & Hcontent).
    assert (Hsort : forall k,
               Advantages.sortSet cmp eng (pick sets2 k)
               = Eff.Ok (Coll.set_of same_adv
                           (Coll.sortUndef (Advantages.byLabel cmp) (pick sets2 k)))).
    { intros k. apply sortSet_labelled.
      eapply matches_labelled; [apply Hcontent|apply Hni]. }
    destruct sets2 as [[[p r] l] s].
    pose proof (Hsort Proficiency) as S1. pose proof (Hsort Resistance) as S2.
    pose proof (Hsort Language) as S3. pose proof (Hsort SaveAdvantage) as S4.
    simpl in S1, S2, S3, S4.
    unfold Advantages.prepareAdvantages, Eff.bind, Eff.ret, Eff.lift.
    rewrite E1, E2, E3, E4, E5, E6, S1, S2, S3, S4.
    eexists _, _. reflexivity.
Qed.

(** A trait with a key its table does not answer, next to a manual
    value the table has: the run completes.  With a manual value the
    table does not answer it throws. *)
Lemma X16_aggregation_completes_iff_witness :
  (exists sys' h',
      Advantages.prepareAdvantages Examples.ordinalCompare Examples.strictEngine
        Examples.catalog
        (Examples.withTraits [Examples.traitUnknown] [] [{| mv_value := "P2" |}])
        Examples.heap0 = Eff.Ok (sys', h'))
  /\ ~ exists sys' h',
      Advantages.prepareAdvantages Examples.ordinalCompare Examples.strictEngine
        Examples.catalog
        (Examples.withTraits [Examples.traitUnknown] [] [{| mv_value := "bogus" |}])
        Examples.heap0 = Eff.Ok (sys', h').
Proof.
  split.
  - apply (proj2 (X16_aggregation_completes_iff Examples.ordinalCompare Examples.strictEngine
                    Examples.catalog
                    (Examples.withTraits [Examples.traitUnknown] [] [{| mv_value := "P2" |}])
                    Examples.heap0)).
    + intros []; vm_compute; repeat constructor; discriminate.
    + repeat split.
      * intros v [<-|[]]. vm_compute. eauto.
      * intros v [].
      * intros v [].
      * intros v [].
      * intros t [<-|[]] _. right. vm_compute. discriminate.
      * intros tc [].
  - intros H.
    apply (proj1 (X16_aggregation_completes_iff Examples.ordinalCompare Examples.strictEngine
                    Examples.catalog _ Examples.heap0)) in H.
    destruct H as (Hp & _). destruct (Hp {| mv_value := "bogus" |}) as [x Hx].
    + left. reflexivity.
    + discriminate Hx.
Defined.

(** ** Nothing is merged, nothing is lost *)

(** X22: a completed aggregation neither merges nor loses entries, on
    an engine whose completed sort permutes the array: each final set
    holds no object twice and holds exactly one entry for every stored
    manual value, for every innate key of a current trait that the
    table answers (a key listed twice counts twice) and for every
    chosen value the table answers in a slot of the category, each with
    its tier, source text and value. *)
Theorem X22_one_entry_per_value {Abl} cmp eng c (sys : System Abl ManualValue) h sys' h' :
  (forall l l', eng l = Eff.Ok l' -> l' ≡ₚ l) ->
  Advantages.prepareAdvantages cmp eng c sys h = Eff.Ok (sys', h') ->
  forall k,
    NoDup (map a_oid (omap id (setOf sys' k)))
    /\ map summary (omap id (setOf sys' k)) ≡ₚ dueOf c sys k.
Proof.
  intros Heng H k. apply prepareAdvantages_inv in H.
  destruct H as (p0 & h1 & r0 & h2 & l0 & h3 & s0 & h4 & sets1 & h5 & sets2 & H).
  destruct H as (E1 & E2 & E3 & E4 & E5 & E6 & Hsort & _).
  destruct (loops_content c sys _ _ _ _ _ _ _ _ _ _ _ _ _ E1 E2 E3 E4 E5 E6)
    as (Hnd & Hcontent).
  pose proof (sortSet_entries _ _ _ _ Heng (Hnd k) (Hsort k)) as HP.
  split.
  - rewrite (Permutation_map a_oid HP). apply Hnd.
  - rewrite (Permutation_map summary HP).
    assert (E : map summary (omap id (pick sets2 k)) = dueOf c sys k).
    { specialize (Hcontent k). clear -Hcontent.
      induction Hcontent as [|d o ds os [Hs _] _ IH]; [reflexivity|].
      simpl. rewrite Hs. f_equal. exact IH. }
    rewrite E. reflexivity.
Qed.

(** One manual value, a trait with [P1] and a trait with [P1] twice:
    four proficiency entries.  A trait with [P1] and [constructor], on
    an engine that completes the sort: two entries. *)
Lemma X22_one_entry_per_value_witness :
  (exists sys' h',
    Advantages.prepareAdvantages Examples.ordinalCompare Examples.strictEngine
      Examples.catalog
      (Examples.withTraits [Examples.traitP1; Examples.traitTwice] []
         [{| mv_value := "P2" |}]) Examples.heap0 = Eff.Ok (sys', h')
    /\ map summary (omap id (proficiencies sys'))
       ≡ₚ [ ("manual", "Manual", Stored {| mv_value := "P2" |});
            ("innate", "B (T1)", Key "P1"); ("innate", "B (T1)", Key "P1");
            ("innate", "B (T1)", Key "P1") ])
  /\ (exists sys' h',
    Advantages.prepareAdvantages Examples.ordinalCompare Examples.lenientEngine
      Examples.catalog
      (Examples.withTraits [Examples.traitInherited] [] []) Examples.heap0
    = Eff.Ok (sys', h')
    /\ map summary (omap id (proficiencies sys'))
       ≡ₚ [ ("innate", "B (T1)", Key "P1"); ("innate", "B (T1)", Key "constructor") ]).
Proof.
  split.
  - destruct (Advantages.prepareAdvantages Examples.ordinalCompare Examples.strictEngine
                Examples.catalog
                (Examples.withTraits [Examples.traitP1; Examples.traitTwice] []
                   [{| mv_value := "P2" |}]) Examples.heap0) as [[sys' h']|e] eqn:E.
    + exists sys', h'. split; [reflexivity|].
      assert (Heng : forall l l', Examples.strictEngine l = Eff.Ok l' -> l' ≡ₚ l)
        by (intros l l' H; discriminate H).
      exact (proj2 (X22_one_entry_per_value _ _ _ _ _ _ _ Heng E Proficiency)).
    + vm_compute in E. discriminate E.
  - destruct (Advantages.prepareAdvantages Examples.ordinalCompare Examples.lenientEngine
                Examples.catalog
                (Examples.withTraits [Examples.traitInherited] [] []) Examples.heap0)
      as [[sys' h']|e] eqn:E.
    + exists sys', h'. split; [reflexivity|].
      assert (Heng : forall l l', Examples.lenientEngine l = Eff.Ok l' -> l' ≡ₚ l)
        by (intros l l' [= <-]; reflexivity).
      exact (proj2 (X22_one_entry_per_value _ _ _ _ _ _ _ Heng E Proficiency)).
    + vm_compute in E. discriminate E.
Defined.

(** ** Order of the final sets *)

(** C5 (amended): after a completed advantage aggregation each of the
    four final sets holds pairwise distinct objects (entries are told
    apart by identity, so two entries may still have the same content);
    and when no entry is due to a member the table only inherits, every
    entry has a label and, under a consistent [localeCompare], the
    entries iterate in ascending order of label. *)
Theorem C5_sorted_sets_of_distinct_objects {Abl} cmp eng c
    (sys : System Abl ManualValue) h sys' h' :
  consistent cmp ->
  Advantages.prepareAdvantages cmp eng c sys h = Eff.Ok (sys', h') ->
  forall k,
    pairwiseDistinct same_adv (setOf sys' k)
    /\ (noneInherited (tableOf c k) (dueOf c sys k) ->
        Forall (fun o => is_Some (label (a_data o))) (omap id (setOf sys' k))
        /\ StronglySorted (ascending cmp Advantages.labelText) (omap id (setOf sys' k))).
Proof.
  intros Hc H k. apply prepareAdvantages_inv in H.
  destruct H as (p0 & h1 & r0 & h2 & l0 & h3 & s0 & h4 & sets1 & h5 & sets2 & H).
  destruct H as (E1 & E2 & E3 & E4 & E5 & E6 & Hsort & _).
  split; [exact (sortSet_distinct _ _ _ _ (Hsort k))|].
  intros Hni.
  destruct (loops_content c sys _ _ _ _ _ _ _ _ _ _ _ _ _ E1 E2 E3 E4 E5 E6)
    as (Hnd & Hcontent).
  pose proof (matches_labelled _ _ _ (Hcontent k) Hni) as Hl.
  split; [|exact (sortSet_sorted _ _ Hc _ _ Hl (Hsort k))].
  rewrite (sortSet_labelled_entries _ _ _ _ Hl (Hnd k) (Hsort k)).
  apply Forall_forall. intros o Ho. rewrite sort_Permutation in Ho.
  rewrite forallb_forall in Hl. specialize (Hl o (proj1 (list_elem_of_In _ _) Ho)).
  unfold Advantages.labelled in Hl. destruct (label (a_data o)); [eauto|discriminate].
Qed.

(** A run with one manual and three innate proficiencies. *)
Lemma C5_sorted_sets_of_distinct_objects_witness :
  exists sys' h',
    Advantages.prepareAdvantages Examples.ordinalCompare Examples.strictEngine
      Examples.catalog
      (Examples.withTraits [Examples.traitP1; Examples.traitTwice] []
         [{| mv_value := "P2" |}]) Examples.heap0 = Eff.Ok (sys', h')
    /\ pairwiseDistinct same_adv (proficiencies sys')
    /\ StronglySorted (ascending Examples.ordinalCompare Advantages.labelText)
         (omap id (proficiencies sys')).
Proof.
  destruct (Advantages.prepareAdvantages Examples.ordinalCompare Examples.strictEngine
              Examples.catalog
              (Examples.withTraits [Examples.traitP1; Examples.traitTwice] []
                 [{| mv_value := "P2" |}]) Examples.heap0) as [[sys' h']|e] eqn:E.
  - exists sys', h'. split; [reflexivity|].
    destruct (C5_sorted_sets_of_distinct_objects _ _ _ _ _ _ _ ordinalCompare_consistent E
                Proficiency) as (Hd & Hs).
    split; [exact Hd|]. apply Hs. vm_compute. repeat constructor; discriminate.
  - vm_compute in E. discriminate E.
Defined.

(** With a key the table only inherits the outcome is the engine's:
    the entry of [constructor] has no label, so the sort of the
    proficiencies throws on the one engine and leaves the entries of
    [P1] and [constructor] on the other. *)
Lemma inherited_key_sort_is_engines :
  Advantages.prepareAdvantages Examples.ordinalCompare Examples.strictEngine
    Examples.catalog (Examples.withTraits [Examples.traitInherited] [] []) Examples.heap0
  = Eff.Throw "TypeError"
  /\ exists sys' h' o1 o2,
       Advantages.prepareAdvantages Examples.ordinalCompare Examples.lenientEngine
         Examples.catalog (Examples.withTraits [Examples.traitInherited] [] [])
         Examples.heap0 = Eff.Ok (sys', h')
       /\ proficiencies sys' = [Some o1; Some o2]
       /\ label (a_data o1) = Some "Light armor" /\ label (a_data o2) = None
       /\ Eff.log h' = [].
Proof.
  split; [vm_compute; reflexivity|].
  eexists _, _, _, _. split; [vm_compute; reflexivity|]. repeat split; reflexivity.
Qed.

(** ** The whole pass *)

Lemma reconcile_ids trs tcs i :
  Js.truthy i = true ->
  (In i (map tc_id (Catalog.reconcile trs tcs)) <-> In i (map t_id trs)).
Proof.
  intros Hi. rewrite !in_map_iff. unfold Catalog.reconcile. split.
  - intros (tc & <- & Hin). apply prune_In in Hin. destruct Hin as (_ & t & Ht & Heq). eauto.
  - intros (t & <- & Hin).
    destruct (foldl_addMissing_has trs tcs t Hin Hi) as (tc & Htc & Hid).
    exists tc. split; [done|]. apply prune_In. split; [done|]. exists t. auto.
Qed.

Lemma evaluate_id c tc : tc_id (Builder.evaluate c tc) = tc_id tc.
Proof.
  unfold Builder.evaluate, tc_id.
  destruct (t_builderInfo (tc_trait tc)) as [bi|]; [|reflexivity].
  destruct (bi_options bi) as [opts|]; [|reflexivity].
  destruct (Builder.processOptions c _ opts). reflexivity.
Qed.

(** X21: when a whole pass [_preparePcDerivedData] completes, the
    derived view it leaves is consistent: every ability holds its raw
    score with the modifier [floor((v - 10) / 2)] (for integer raw
    scores from [-2^53 + 10] to [2^53]), the traits are those of the
    resolved background, heritage and lineage, in that order, the ids
    of the trait choices are exactly the ids of those traits, and the
    stored references are copied; the later steps undo nothing of the
    earlier ones. *)
Theorem X21_pass_leaves_consistent_view cmp eng game (e : Env) src
    (s : System Z ManualValue) h sys' h' :
  (forall a v, abilities s !! a = Some v -> exactScore v) ->
  (_preparePcDerivedData cmp eng game e src s).2 h = Eff.Ok (sys', h') ->
  (forall a, abilities sys' !! a
             = (fun v => inr {| value := v; mod_ := (v - 10) / 2 |}) <$> abilities s !! a)
  /\ traits sys' = Catalog.traitsOf (background sys') ++ Catalog.traitsOf (heritage sys')
                   ++ Catalog.traitsOf (lineage sys')
  /\ (forall i, Js.truthy i = true ->
        (In i (map tc_id (traitChoices sys')) <-> In i (map t_id (traits sys'))))
  /\ backgroundId sys' = src_background src /\ heritageId sys' = src_heritage src
  /\ lineageId sys' = src_lineage src /\ classId sys' = src_class src.
Proof.
  unfold _preparePcDerivedData. simpl. intros Hex H.
  apply prepareAdvantages_inv in H.
  destruct H as (p0 & h1 & r0 & h2 & l0 & h3 & s0 & h4 & sets1 & h5 & sets2 & H).
  destruct H as (_ & _ & _ & _ & _ & _ & _ & H). simpl in H.
  destruct H as (Ha & Ht & Htc & Hb & Hh & Hl & Hc & Hbi & Hhi & Hli & Hci).
  split; [|split; [|split]].
  - intros a. rewrite Ha, deriveTable_lookup.
    destruct (abilities s !! a) as [v|] eqn:Ev; [|reflexivity].
    simpl. unfold score. rewrite modifier_exact by (eapply Hex; eauto). reflexivity.
  - rewrite Ht, Hb, Hh, Hl. reflexivity.
  - intros i Hi. rewrite Htc, Ht, map_map.
    rewrite (map_ext _ tc_id (fun tc => evaluate_id _ tc)). by apply reconcile_ids.
  - rewrite Hbi, Hhi, Hli, Hci. repeat split; reflexivity.
Qed.

(** The character with background B: strength 15, one manual and one
    innate proficiency. *)
Lemma X21_pass_leaves_consistent_view_witness :
  exists sys' h',
    (_preparePcDerivedData Examples.ordinalCompare Examples.strictEngine
       Examples.gameOverlap Examples.warm Examples.refs hero).2 Examples.heap0
    = Eff.Ok (sys', h')
    /\ abilities sys' !! "str" = Some (inr {| value := 15; mod_ := 2 |})
    /\ (In (Some "t1") (map tc_id (traitChoices sys'))
        <-> In (Some "t1") (map t_id (traits sys'))).
Proof.
  destruct ((_preparePcDerivedData Examples.ordinalCompare Examples.strictEngine
               Examples.gameOverlap Examples.warm Examples.refs hero).2 Examples.heap0)
    as [[sys' h']|err] eqn:E.
  - exists sys', h'. split; [reflexivity|].
    assert (Hex : forall a v, abilities hero !! a = Some v -> exactScore v).
    { intros a v Hv. unfold hero in Hv. cbn [abilities] in Hv.
      apply lookup_singleton_Some in Hv. destruct Hv as [_ <-].
      unfold exactScore. simpl. lia. }
    destruct (X21_pass_leaves_consistent_view _ _ _ _ _ _ _ _ _ Hex E) as (Ha & _ & Hids & _).
    split; [rewrite Ha; reflexivity|]. apply Hids. reflexivity.
  - vm_compute in E. discriminate E.
Defined.
